(** * Augmented red-black trees: order statistics, interval prefix sums, Josephus

  A verification development for [ost.h], [pom.h] and [josephus.h].

  The two tree classes are CLRS red-black trees over heap nodes that carry
  [left], [right] and [parent] pointers and share one sentinel [nil].  A
  tree is owned through its root, so it is embedded as an inductive
  [node]; the [parent] back-references, which the code follows upwards in
  the fix-up loops and in [rank], are embedded as the list of [frame]s
  that leads from a node back to the root (innermost parent first).  The
  pair (subtree, frames) is the pointer the C++ code holds.

  The sentinel is read freely by the code ([nil->color] is [BLACK],
  [nil->left] is [nil]) but is never meant to be written, except for its
  parent link and for writes that store the value already there.  A run
  that would store a new colour or child into the sentinel, or whose
  fix-up loop outlives its bound, ends in [Undefined]; the theorems show
  that no tree built by [insert] and [remove] ever gets there.

  C++ [int] sizes and [long long] sums are modelled in [Z]: they count or
  add up live nodes, and stay far inside their types for any tree that
  fits in memory.  Arithmetic on caller-supplied [int]s (the step [m] of
  the Josephus generator) wraps at 32 bits. *)

From Stdlib Require Import ZArith List Lia Bool Permutation Sorted.
Import ListNotations.
Open Scope Z_scope.

(* Sizes and sums stay symbolic under [simpl] and [cbn]. *)
#[local] Arguments Z.add : simpl never.
#[local] Arguments Z.sub : simpl never.
#[local] Arguments Z.mul : simpl never.
#[local] Arguments Z.opp : simpl never.
#[local] Arguments Z.pow : simpl never.
#[local] Arguments Z.modulo : simpl never.
#[local] Arguments Z.rem : simpl never.
#[local] Arguments Z.of_nat : simpl never.
#[local] Arguments Z.to_nat : simpl never.

(* ------------------------------------------------------------------ *)
(** ** Outcomes *)

Inductive result (A : Type) : Type :=
| Ok (a : A)
| OutOfRange   (* std::out_of_range, thrown by [select] *)
| AllocError   (* std::length_error or std::bad_alloc, thrown by the
                  constructor of a std::vector asked for a negative size *)
| Undefined.   (* a write to the sentinel, or a loop bound exceeded *)

Arguments Ok {A} a.
Arguments OutOfRange {A}.
Arguments AllocError {A}.
Arguments Undefined {A}.

Definition bind {A B : Type} (m : result A) (f : A -> result B) : result B :=
match m with
| Ok a => f a
| OutOfRange => OutOfRange
| AllocError => AllocError
| Undefined => Undefined
end.

Notation "x <- m ;; f" := (bind m (fun x => f))
(at level 61, m at next level, right associativity).
Notation "' pat <- m ;; f" := (bind m (fun x => match x with pat => f end))
(at level 61, pat pattern, m at next level, right associativity).

(** [enum Color { RED, BLACK }] (and [POMColor], the same two values). *)
Inductive Color : Type := RED | BLACK.

(* ------------------------------------------------------------------ *)
(** ** The balancing code shared by both classes

  [ost.h] and [pom.h] contain the same rotation and fix-up code, copied;
  they differ only in how a rotation refreshes the augmented field of the
  two nodes it moves.  [K] is what a node holds for good (its key, its
  interval), [D] the augmented field ([size], [data]). *)

Module RB.
Section Core.

Variables K D : Type.

Inductive node : Type :=
| nil
| Node (key : K) (color : Color) (data : D) (left right : node).

(** [recompute k l r]: the augmented field of a node from its children,
    as stored in the node a rotation moves down.
    [promote d k l r]: the field stored in the node a rotation moves
    up, where [d] is the field the other node had before the rotation. *)
Variable recompute : K -> node -> node -> D.
Variable promote : D -> K -> node -> node -> D.

Definition colorOf (x : node) : Color :=
  match x with nil => BLACK | Node _ c _ _ _ => c end.

Definition leftOf (x : node) : node :=
  match x with nil => nil | Node _ _ _ l _ => l end.

Definition rightOf (x : node) : node :=
  match x with nil => nil | Node _ _ _ _ r => r end.

(** [x->color = c]. Storing [BLACK] into the sentinel changes nothing. *)
Definition paint (c : Color) (x : node) : result node :=
  match x, c with
  | Node k _ d l r, _ => Ok (Node k c d l r)
  | nil, BLACK => Ok nil
  | nil, RED => Undefined
  end.

(** One step of a parent chain: the parent node with a hole where the
    child we came from hangs. *)
Inductive frame : Type :=
| LeftOf (key : K) (color : Color) (data : D) (right : node)
    (* the child is [parent->left]; [right] is its sibling *)
| RightOf (key : K) (color : Color) (data : D) (left : node).
    (* the child is [parent->right]; [left] is its sibling *)

Definition fcolor (f : frame) : Color :=
  match f with LeftOf _ c _ _ | RightOf _ c _ _ => c end.

Definition fkey (f : frame) : K :=
  match f with LeftOf k _ _ _ | RightOf k _ _ _ => k end.

Definition fpaint (c : Color) (f : frame) : frame :=
  match f with
  | LeftOf k _ d r => LeftOf k c d r
  | RightOf k _ d l => RightOf k c d l
  end.

Definition sibling (f : frame) : node :=
  match f with LeftOf _ _ _ s | RightOf _ _ _ s => s end.

(** The parent node, with [x] as the child the frame left out. *)
Definition fill (f : frame) (x : node) : node :=
  match f with
  | LeftOf k c d r => Node k c d x r
  | RightOf k c d l => Node k c d l x
  end.

(** The whole tree around [x]: follow the parent links to the root. *)
Fixpoint plug (x : node) (path : list frame) : node :=
  match path with
  | [] => x
  | f :: up => plug (fill f x) up
  end.

(** Moving the pointer from a node to one of its children. *)
Definition toLeft (x : node) (path : list frame)
  : result (node * list frame) :=
  match x with
  | nil => Undefined
  | Node k c d l r => Ok (l, LeftOf k c d r :: path)
  end.

Definition toRight (x : node) (path : list frame)
  : result (node * list frame) :=
  match x with
  | nil => Undefined
  | Node k c d l r => Ok (r, RightOf k c d l :: path)
  end.

(** [leftRotate(x)], on the subtree rooted at [x]; the result takes the
    place of [x] under [x]'s old parent (or as the root). *)
Definition leftRotate (x : node) : result node :=
  match x with
  | Node kx cx dx a (Node ky cy dy b c) =>
      let x' := Node kx cx (recompute kx a b) a b in
      Ok (Node ky cy (promote dx ky x' c) x' c)
  | _ => Undefined
  end.

Definition rightRotate (y : node) : result node :=
  match y with
  | Node ky cy dy (Node kx cx dx a b) c =>
      let y' := Node ky cy (recompute ky b c) b c in
      Ok (Node kx cx (promote dy kx a y') a y')
  | _ => Undefined
  end.

(** The [while] loop of [insertFixup(z)].  The result is a subtree and
    the frames above it; in the recolouring case the loop goes on from
    the grandparent, after a rotation [z->parent] has just been painted
    [BLACK] and the loop test fails. *)
Fixpoint insertFixup_loop (z : node) (path : list frame)
  : result (node * list frame) :=
  match path with
  | [] => Ok (z, [])
  | p :: above =>
    match fcolor p with
    | BLACK => Ok (z, path)
    | RED =>
      match above with
      | [] => Undefined
      | LeftOf kg cg dg y :: rest =>
        (* z->parent == z->parent->parent->left *)
        match colorOf y with
        | RED =>
            y' <- paint BLACK y ;;
            insertFixup_loop
              (Node kg RED dg (fill (fpaint BLACK p) z) y') rest
        | BLACK =>
            sub <- match p with
                   | RightOf _ _ _ _ => leftRotate (fill p z)
                   | LeftOf _ _ _ _ => Ok (fill p z)
                   end ;;
            sub' <- paint BLACK sub ;;
            t <- rightRotate (Node kg RED dg sub' y) ;;
            Ok (t, rest)
        end
      | RightOf kg cg dg y :: rest =>
        match colorOf y with
        | RED =>
            y' <- paint BLACK y ;;
            insertFixup_loop
              (Node kg RED dg y' (fill (fpaint BLACK p) z)) rest
        | BLACK =>
            sub <- match p with
                   | LeftOf _ _ _ _ => rightRotate (fill p z)
                   | RightOf _ _ _ _ => Ok (fill p z)
                   end ;;
            sub' <- paint BLACK sub ;;
            t <- leftRotate (Node kg RED dg y sub') ;;
            Ok (t, rest)
        end
      end
    end
  end.

(** [insertFixup(z)]: the loop, then [root->color = BLACK]. *)
Definition insertFixup (z : node) (path : list frame) : result node :=
  '(t, up) <- insertFixup_loop z path ;;
  paint BLACK (plug t up).

(** [minimum(x)]: the leftmost node below [x], with the way back. *)
Fixpoint minimum (x : node) (path : list frame) : node * list frame :=
  match x with
  | nil => (nil, path)
  | Node k c d l r =>
      match l with
      | nil => (x, path)
      | Node _ _ _ _ _ => minimum l (LeftOf k c d r :: path)
      end
  end.

(** [x->left = l] and [x->right = r] on a real node. *)
Definition withLeft (x l : node) : result node :=
  match x with
  | nil => Undefined
  | Node k c d _ r => Ok (Node k c d l r)
  end.

Definition withRight (x r : node) : result node :=
  match x with
  | nil => Undefined
  | Node k c d l _ => Ok (Node k c d l r)
  end.

(** One turn of the [while] loop of [deleteFixup(x)] for
    [x == x->parent->left]; [kp cp dp] are the parent's fields, [w] its
    right child.  The result is the pointer [x] the next test of the
    loop sees, the root after the last case. *)
Definition deleteFixup_left (x : node) (kp : K) (cp : Color) (dp : D)
    (w : node) (rest : list frame) : result (node * list frame) :=
  '(x, path) <-
    match colorOf w with
    | RED =>
        w' <- paint BLACK w ;;
        t <- leftRotate (Node kp RED dp x w') ;;
        '(p, up) <- toLeft t rest ;;
        toLeft p up
    | BLACK => Ok (x, LeftOf kp cp dp w :: rest)
    end ;;
  match path with
  | LeftOf kp cp dp w :: rest =>
      match colorOf (leftOf w), colorOf (rightOf w) with
      | BLACK, BLACK =>
          w' <- paint RED w ;;
          Ok (Node kp cp dp x w', rest)
      | _, _ =>
          w <- match colorOf (rightOf w) with
               | BLACK =>
                   wl <- paint BLACK (leftOf w) ;;
                   w1 <- withLeft w wl ;;
                   w2 <- paint RED w1 ;;
                   rightRotate w2
               | RED => Ok w
               end ;;
          w1 <- paint cp w ;;
          wr <- paint BLACK (rightOf w1) ;;
          w2 <- withRight w1 wr ;;
          t <- leftRotate (Node kp BLACK dp x w2) ;;
          Ok (plug t rest, [])
      end
  | _ => Undefined
  end.

(** The same turn for [x == x->parent->right]; [w] is the left child. *)
Definition deleteFixup_right (x : node) (kp : K) (cp : Color) (dp : D)
    (w : node) (rest : list frame) : result (node * list frame) :=
  '(x, path) <-
    match colorOf w with
    | RED =>
        w' <- paint BLACK w ;;
        t <- rightRotate (Node kp RED dp w' x) ;;
        '(p, up) <- toRight t rest ;;
        toRight p up
    | BLACK => Ok (x, RightOf kp cp dp w :: rest)
    end ;;
  match path with
  | RightOf kp cp dp w :: rest =>
      match colorOf (rightOf w), colorOf (leftOf w) with
      | BLACK, BLACK =>
          w' <- paint RED w ;;
          Ok (Node kp cp dp w' x, rest)
      | _, _ =>
          w <- match colorOf (leftOf w) with
               | BLACK =>
                   wr <- paint BLACK (rightOf w) ;;
                   w1 <- withRight w wr ;;
                   w2 <- paint RED w1 ;;
                   leftRotate w2
               | RED => Ok w
               end ;;
          w1 <- paint cp w ;;
          wl <- paint BLACK (leftOf w1) ;;
          w2 <- withLeft w1 wl ;;
          t <- rightRotate (Node kp BLACK dp w2 x) ;;
          Ok (plug t rest, [])
      end
  | _ => Undefined
  end.

(** The [while (x != root && x->color == BLACK)] loop.  A turn that
    moves [x] to its parent shortens the parent chain; any other turn is
    the last or the last but one, so [2 + length path] turns suffice. *)
Fixpoint deleteFixup_loop (fuel : nat) (x : node) (path : list frame)
  : result (node * list frame) :=
  match fuel with
  | O => Undefined
  | S fuel =>
    match path with
    | [] => Ok (x, [])
    | f :: rest =>
      match colorOf x with
      | RED => Ok (x, path)
      | BLACK =>
          '(x', path') <-
            match f with
            | LeftOf kp cp dp w => deleteFixup_left x kp cp dp w rest
            | RightOf kp cp dp w => deleteFixup_right x kp cp dp w rest
            end ;;
          deleteFixup_loop fuel x' path'
      end
    end
  end.

(** [deleteFixup(x)]: the loop, then [x->color = BLACK]. *)
Definition deleteFixup (x : node) (path : list frame) : result node :=
  '(x', path') <- deleteFixup_loop (S (S (length path))) x path ;;
  x'' <- paint BLACK x' ;;
  Ok (plug x'' path').

(** In-order contents. *)
Fixpoint elements (x : node) : list K :=
  match x with
  | nil => []
  | Node k _ _ l r => elements l ++ k :: elements r
  end.

End Core.

Arguments nil {K D}.
Arguments Node {K D} key color data left right.
Arguments LeftOf {K D} key color data right.
Arguments RightOf {K D} key color data left.
Arguments colorOf {K D} x.
Arguments leftOf {K D} x.
Arguments rightOf {K D} x.
Arguments paint {K D} c x.
Arguments fcolor {K D} f.
Arguments fkey {K D} f.
Arguments fpaint {K D} c f.
Arguments sibling {K D} f.
Arguments fill {K D} f x.
Arguments plug {K D} x path.
Arguments toLeft {K D} x path.
Arguments toRight {K D} x path.
Arguments withLeft {K D} x l.
Arguments withRight {K D} x r.
Arguments leftRotate {K D} recompute promote x.
Arguments rightRotate {K D} recompute promote y.
Arguments insertFixup_loop {K D} recompute promote z path.
Arguments insertFixup {K D} recompute promote z path.
Arguments minimum {K D} x path.
Arguments deleteFixup_left {K D} recompute promote x kp cp dp w rest.
Arguments deleteFixup_right {K D} recompute promote x kp cp dp w rest.
Arguments deleteFixup_loop {K D} recompute promote fuel x path.
Arguments deleteFixup {K D} recompute promote x path.
Arguments elements {K D} x.

End RB.

Import RB.

(* ------------------------------------------------------------------ *)
(** ** [ost.h]: the order-statistic tree, instantiated at [int] keys *)

Module OST.

(** [OSTNode<int>]: [key], [color], [size], [left], [right]. *)
Definition OSTNode : Type := node Z Z.
Definition OrderStatisticTree : Type := OSTNode.

Definition getSize (x : OSTNode) : Z :=
  match x with nil => 0 | Node _ _ size _ _ => size end.

(** The size update of a rotation: [y->size = x->size;
    x->size = getSize(x->left) + getSize(x->right) + 1]. *)
Definition recompute (_ : Z) (l r : OSTNode) : Z :=
  getSize l + getSize r + 1.
Definition promote (d : Z) (_ : Z) (_ _ : OSTNode) : Z := d.

Definition leftRotate := leftRotate recompute promote.
Definition rightRotate := rightRotate recompute promote.
Definition insertFixup := insertFixup recompute promote.
Definition deleteFixup := deleteFixup recompute promote.

(** The constructor: the tree is the sentinel alone. *)
Definition empty_tree : OrderStatisticTree := nil.

(** The descent of [insert]: [x->size++] on every node passed. *)
Fixpoint insert_walk (key : Z) (x : OSTNode) (path : list (frame Z Z))
  : list (frame Z Z) :=
  match x with
  | nil => path
  | Node k c size l r =>
      if key <? k
      then insert_walk key l (LeftOf k c (size + 1) r :: path)
      else insert_walk key r (RightOf k c (size + 1) l :: path)
  end.

Definition insert (key : Z) (root : OrderStatisticTree)
  : result OrderStatisticTree :=
  insertFixup (Node key RED 1 nil nil) (insert_walk key root []).

(** [search(x, key)]: the node found (or [nil]) and its parent chain. *)
Fixpoint search (x : OSTNode) (path : list (frame Z Z)) (key : Z)
  : OSTNode * list (frame Z Z) :=
  match x with
  | nil => (nil, path)
  | Node k c size l r =>
      if key =? k then (x, path)
      else if key <? k
           then search l (LeftOf k c size r :: path) key
           else search r (RightOf k c size l :: path) key
  end.

(** [p->size--] on one node of a parent chain. *)
Definition decrement (f : frame Z Z) : frame Z Z :=
  match f with
  | LeftOf k c size r => LeftOf k c (size - 1) r
  | RightOf k c size l => RightOf k c (size - 1) l
  end.

(** The end of [remove]: [deleteFixup(x)] if the node spliced out was
    [BLACK]. *)
Definition remove_finish (yOriginalColor : Color) (x : OSTNode)
    (path : list (frame Z Z)) : result OrderStatisticTree :=
  match yOriginalColor with
  | BLACK => deleteFixup x path
  | RED => Ok (plug x path)
  end.

Definition remove (key : Z) (root : OrderStatisticTree)
  : result OrderStatisticTree :=
  match search root [] key with
  | (nil, _) => Ok root
  | (Node _ zcolor _ zleft zright, zpath) =>
      (* sizes decremented from z up to the root; z itself goes away *)
      let zpath := map decrement zpath in
      match zleft, zright with
      | nil, _ => remove_finish zcolor zright zpath
      | _, nil => remove_finish zcolor zleft zpath
      | _, _ =>
          match minimum zright [] with
          | (Node ykey ycolor _ _ x, ypath) =>
              (* [ypath] is empty when y->parent == z; otherwise the
                 sizes from y->parent up to z->right are decremented *)
              let ypath := match ypath with
                           | [] => []
                           | _ => map decrement ypath
                           end in
              (* y->right: x itself, or z->right with y spliced out *)
              let yright := plug x ypath in
              let ysize := getSize zleft + getSize yright + 1 in
              remove_finish ycolor x
                (ypath ++ RightOf ykey zcolor ysize zleft :: zpath)
          | (nil, _) => Undefined
          end
      end
  end.

(** [selectNode(x, k)]. *)
Fixpoint selectNode (x : OSTNode) (k : Z) : OSTNode :=
  match x with
  | nil => nil
  | Node _ _ _ l r =>
      let r0 := getSize l + 1 in
      if k =? r0 then x
      else if k <? r0 then selectNode l k
           else selectNode r (k - r0)
  end.

(** [select(k)]: the key or the exception, and the tree after the
    call. *)
Definition select (k : Z) (root : OrderStatisticTree)
  : result Z * OrderStatisticTree :=
  (match selectNode root k with
   | nil => OutOfRange
   | Node key _ _ _ _ => Ok key
   end, root).

(** The upward loop of [rank]: [r] grows whenever [y] is a right
    child. *)
Fixpoint rank_walk (r : Z) (path : list (frame Z Z)) : Z :=
  match path with
  | [] => r
  | LeftOf _ _ _ _ :: up => rank_walk r up
  | RightOf _ _ _ l :: up => rank_walk (r + (getSize l + 1)) up
  end.

Definition rank (key : Z) (root : OrderStatisticTree) : Z :=
  match search root [] key with
  | (nil, _) => -1
  | (Node _ _ _ l _, path) => rank_walk (getSize l + 1) path
  end.

Definition size (root : OrderStatisticTree) : Z := getSize root.

Definition empty (root : OrderStatisticTree) : bool :=
  match root with nil => true | Node _ _ _ _ _ => false end.

(** Sequences of mutating calls. *)
Inductive op : Type := Insert (key : Z) | Remove (key : Z).

Definition apply (o : op) (t : OrderStatisticTree)
  : result OrderStatisticTree :=
  match o with
  | Insert key => insert key t
  | Remove key => remove key t
  end.

Fixpoint run (ops : list op) (t : OrderStatisticTree)
  : result OrderStatisticTree :=
  match ops with
  | [] => Ok t
  | o :: ops => t' <- apply o t ;; run ops t'
  end.

End OST.

(* ------------------------------------------------------------------ *)
(** ** [pom.h]: the interval tree with maximum prefix sums *)

Module POM.

Record Interval : Type :=
  { start : Z; end_ : Z; value : Z }.

(** [Interval::operator<]. *)
Definition lt (a b : Interval) : bool := start a <? start b.

Record AugmentedData : Type :=
  { sum : Z; maxpref : Z; argmax : Z }.

Definition LLONG_MIN : Z := - 2 ^ 63.

(** [AugmentedData()]. *)
Definition no_data : AugmentedData :=
  {| sum := 0; maxpref := LLONG_MIN; argmax := -1 |}.

(** What a [POMNode] holds for good: its interval, and its address,
    which [insert] and [remove] keep to come back to the node once the
    fix-up has moved it ([updateAncestors(z)],
    [updateAncestors(updateStart)]).  The sentinel has address [0]. *)
Record POMKey : Type :=
  { addr : nat; interval : Interval }.

Definition POMNode : Type := node POMKey AugmentedData.

(** The object: the root, and the address the next [new POMNode]
    returns. *)
Record POMTree : Type :=
  { root : POMNode; fresh : nat }.

(** The constructor. *)
Definition empty_tree : POMTree := {| root := nil; fresh := 1 |}.

(** The fields [updateAugmentedData(node)] stores in [node->data], for
    a node that is not the sentinel. *)
Definition augment (k : POMKey) (l r : POMNode) : AugmentedData :=
  let iv := interval k in
  let s := value iv in
  let s := match l with nil => s | Node _ _ d _ _ => s + sum d end in
  let s := match r with nil => s | Node _ _ d _ _ => s + sum d end in
  let leftSum := match l with nil => 0 | Node _ _ d _ _ => sum d end in
  let leftMaxPref :=
    match l with nil => LLONG_MIN | Node _ _ d _ _ => maxpref d end in
  let rightMaxPref :=
    match r with nil => LLONG_MIN | Node _ _ d _ _ => maxpref d end in
  let mp := leftMaxPref in
  let am := match l with nil => -1 | Node _ _ d _ _ => argmax d end in
  let prefixAtNode := leftSum + value iv in
  let '(mp, am) :=
    if prefixAtNode >? mp then (prefixAtNode, start iv) else (mp, am) in
  let '(mp, am) :=
    match r with
    | nil => (mp, am)
    | Node _ _ d _ _ =>
        if prefixAtNode + rightMaxPref >? mp
        then (prefixAtNode + rightMaxPref, argmax d)
        else (mp, am)
    end in
  {| sum := s; maxpref := mp; argmax := am |}.

Definition updateAugmentedData (x : POMNode) : POMNode :=
  match x with
  | nil => nil
  | Node k c _ l r => Node k c (augment k l r) l r
  end.

(** A rotation calls [updateAugmentedData] on the node that moved down,
    then on the one that moved up. *)
Definition promote (_ : AugmentedData) (k : POMKey) (l r : POMNode)
  : AugmentedData := augment k l r.

Definition leftRotate := leftRotate augment promote.
Definition rightRotate := rightRotate augment promote.
Definition insertFixup := insertFixup augment promote.
Definition deleteFixup := deleteFixup augment promote.

(** [updateAncestors(node)] for a node that is not the sentinel. *)
Fixpoint updateAncestors (x : POMNode)
    (path : list (frame POMKey AugmentedData)) : POMNode :=
  match path with
  | [] => updateAugmentedData x
  | f :: up => updateAncestors (fill f (updateAugmentedData x)) up
  end.

(** The node at address [a] in the tree below [x], with its parent
    chain. *)
Fixpoint locate (a : nat) (x : POMNode)
    (path : list (frame POMKey AugmentedData))
  : option (POMNode * list (frame POMKey AugmentedData)) :=
  match x with
  | nil => None
  | Node k c d l r =>
      if Nat.eqb (addr k) a then Some (x, path)
      else
        match locate a l (LeftOf k c d r :: path) with
        | Some found => Some found
        | None => locate a r (RightOf k c d l :: path)
        end
  end.

(** [updateAncestors(p)] for a pointer [p] held across a fix-up: nothing
    for the sentinel, else the walk from the node at that address. *)
Definition updateAncestors_at (p : nat) (root : POMNode)
  : result POMNode :=
  match p with
  | O => Ok root
  | _ =>
      match locate p root [] with
      | Some (x, path) => Ok (updateAncestors x path)
      | None => Undefined
      end
  end.

(** [new POMNode(iv)] at address [a], with [left = right = nil]. *)
Definition new_node (a : nat) (iv : Interval) : POMNode :=
  Node {| addr := a; interval := iv |} RED
    {| sum := value iv; maxpref := value iv; argmax := start iv |}
    nil nil.

(** The descent of [insert]. *)
Fixpoint insert_walk (iv : Interval) (x : POMNode)
    (path : list (frame POMKey AugmentedData))
  : list (frame POMKey AugmentedData) :=
  match x with
  | nil => path
  | Node k c d l r =>
      if lt iv (interval k)
      then insert_walk iv l (LeftOf k c d r :: path)
      else insert_walk iv r (RightOf k c d l :: path)
  end.

Definition insert (iv : Interval) (t : POMTree) : result POMTree :=
  let z := fresh t in
  root1 <- insertFixup (new_node z iv) (insert_walk iv (root t) []) ;;
  root2 <- updateAncestors_at z root1 ;;
  Ok {| root := root2; fresh := S z |}.

(** [search(x, interval)]: a match needs [start] and [end] equal. *)
Fixpoint search (x : POMNode) (path : list (frame POMKey AugmentedData))
    (iv : Interval) : POMNode * list (frame POMKey AugmentedData) :=
  match x with
  | nil => (nil, path)
  | Node k c d l r =>
      if (start iv =? start (interval k)) && (end_ iv =? end_ (interval k))
      then (x, path)
      else if lt iv (interval k)
           then search l (LeftOf k c d r :: path) iv
           else search r (RightOf k c d l :: path) iv
  end.

(** The address of [x->parent], for [x] with parent chain [path]. *)
Definition parent_addr (path : list (frame POMKey AugmentedData)) : nat :=
  match path with
  | [] => O
  | f :: _ => addr (fkey f)
  end.

(** The end of [remove]: the fix-up if the node spliced out was
    [BLACK], then [updateAncestors(updateStart)]. *)
Definition remove_finish (t : POMTree) (yOriginalColor : Color)
    (x : POMNode) (path : list (frame POMKey AugmentedData))
    (updateStart : nat) : result POMTree :=
  root1 <- match yOriginalColor with
           | BLACK => deleteFixup x path
           | RED => Ok (plug x path)
           end ;;
  root2 <- updateAncestors_at updateStart root1 ;;
  Ok {| root := root2; fresh := fresh t |}.

Definition remove (iv : Interval) (t : POMTree) : result POMTree :=
  match search (root t) [] iv with
  | (nil, _) => Ok t
  | (Node _ zcolor _ zleft zright, zpath) =>
      match zleft, zright with
      | nil, _ => remove_finish t zcolor zright zpath (parent_addr zpath)
      | _, nil => remove_finish t zcolor zleft zpath (parent_addr zpath)
      | _, _ =>
          match minimum zright [] with
          | (Node ykey ycolor ydata _ x, ypath) =>
              (* updateStart = y->parent, or y when y->parent == z *)
              let updateStart := match ypath with
                                 | [] => addr ykey
                                 | f :: _ => addr (fkey f)
                                 end in
              remove_finish t ycolor x
                (ypath ++ RightOf ykey zcolor ydata zleft :: zpath)
                updateStart
          | (nil, _) => Undefined
          end
      end
  end.

Definition findPOM (t : POMTree) : AugmentedData :=
  match root t with
  | nil => no_data
  | Node _ _ d _ _ => d
  end.

Definition getSum (t : POMTree) : Z :=
  match root t with
  | nil => 0
  | Node _ _ d _ _ => sum d
  end.

Definition empty (t : POMTree) : bool :=
  match root t with nil => true | Node _ _ _ _ _ => false end.

Inductive op : Type := Insert (iv : Interval) | Remove (iv : Interval).

Definition apply (o : op) (t : POMTree) : result POMTree :=
  match o with
  | Insert iv => insert iv t
  | Remove iv => remove iv t
  end.

Fixpoint run (ops : list op) (t : POMTree) : result POMTree :=
  match ops with
  | [] => Ok t
  | o :: ops => t' <- apply o t ;; run ops t'
  end.

End POM.

(* ------------------------------------------------------------------ *)
(** ** [josephus.h] *)

Module Josephus.

(** Two's-complement wrap-around of [int] arithmetic. *)
Definition int_wrap (z : Z) : Z := (z + 2 ^ 31) mod 2 ^ 32 - 2 ^ 31.

(** [for (int i = 0; i < n; i++) ost.insert(i);] with [count] turns
    left. *)
Fixpoint initialize (i : Z) (count : nat) (ost : OST.OrderStatisticTree)
  : result OST.OrderStatisticTree :=
  match count with
  | O => Ok ost
  | S count => ost' <- OST.insert i ost ;; initialize (i + 1) count ost'
  end.

(** [while (!ost.empty())]: every turn removes one key, so the size of
    the tree bounds the number of turns. *)
Fixpoint generateOST_loop (fuel : nat) (m : Z)
    (ost : OST.OrderStatisticTree) (current : Z) (acc : list Z)
  : result (list Z) :=
  if OST.empty ost then Ok acc
  else
    match fuel with
    | O => Undefined
    | S fuel =>
        let current :=
          Z.rem (int_wrap (int_wrap (current + m) - 1)) (OST.size ost) in
        let '(r, ost) := OST.select (current + 1) ost in
        eliminated <- r ;;
        ost <- OST.remove eliminated ost ;;
        let current :=
          if OST.empty ost then current
          else Z.rem current (OST.size ost) in
        generateOST_loop fuel m ost current (acc ++ [eliminated])
    end.

Definition generateOST (n m : Z) : result (list Z) :=
  ost <- initialize 0 (Z.to_nat n) OST.empty_tree ;;
  generateOST_loop (Z.to_nat (OST.size ost)) m ost 0 [].

(** [alive[current]] and [alive[current] = false]. *)
Definition at_ (alive : list bool) (current : Z) : bool :=
  nth (Z.to_nat current) alive false.

Fixpoint clear (alive : list bool) (i : nat) : list bool :=
  match alive, i with
  | [], _ => []
  | _ :: rest, O => false :: rest
  | b :: rest, S i => b :: clear rest i
  end.

(** [while (count < m) { if (alive[current]) { count++; if (count == m)
    break; } current = (current + 1) % n; }] *)
Fixpoint count_loop (fuel : nat) (n m : Z) (alive : list bool)
    (count current : Z) : result Z :=
  if count <? m then
    match fuel with
    | O => Undefined
    | S fuel =>
        if at_ alive current then
          if count + 1 =? m then Ok current
          else count_loop fuel n m alive (count + 1)
                 (Z.rem (current + 1) n)
        else count_loop fuel n m alive count (Z.rem (current + 1) n)
    end
  else Ok current.

(** [while (!alive[current]) current = (current + 1) % n;] *)
Fixpoint skip_dead (fuel : nat) (n : Z) (alive : list bool) (current : Z)
  : result Z :=
  if at_ alive current then Ok current
  else
    match fuel with
    | O => Undefined
    | S fuel => skip_dead fuel n alive (Z.rem (current + 1) n)
    end.

Fixpoint generateNaive_loop (fuel : nat) (n m : Z) (alive : list bool)
    (current remaining : Z) (acc : list Z) : result (list Z) :=
  if 0 <? remaining then
    match fuel with
    | O => Undefined
    | S fuel =>
        current <- count_loop (Z.to_nat (n * m)) n m alive 0 current ;;
        let alive := clear alive (Z.to_nat current) in
        let acc := acc ++ [current] in
        let remaining := remaining - 1 in
        current <- (if 0 <? remaining
                    then skip_dead (Z.to_nat n) n alive
                           (Z.rem (current + 1) n)
                    else Ok current) ;;
        generateNaive_loop fuel n m alive current remaining acc
    end
  else Ok acc.

(** [generateNaive(n, m)]. [std::vector<bool> alive(n, true)] turns a
    negative [n] into a size beyond what a vector can hold, and its
    constructor throws. *)
Definition generateNaive (n m : Z) : result (list Z) :=
  if n <? 0 then AllocError
  else generateNaive_loop (Z.to_nat n) n m (repeat true (Z.to_nat n)) 0 n [].

(** [verify(n, m)]: both vectors, compared with [==]. *)
Definition verify (n m : Z) : result bool :=
  resultOST <- generateOST n m ;;
  resultNaive <- generateNaive n m ;;
  Ok (if list_eq_dec Z.eq_dec resultOST resultNaive then true else false).

End Josephus.


(* ------------------------------------------------------------------ *)
(** ** Properties of trees, stated for both classes at once *)

Module Shape.
Section Shape.

Context {K D : Type}.

(** In-order contents to the left and to the right of a pointer. *)
Fixpoint before (path : list (frame K D)) : list K :=
  match path with
  | [] => []
  | LeftOf _ _ _ _ :: up => before up
  | RightOf k _ _ l :: up => before up ++ elements l ++ [k]
  end.

Fixpoint after (path : list (frame K D)) : list K :=
  match path with
  | [] => []
  | LeftOf k _ _ r :: up => k :: elements r ++ after up
  | RightOf _ _ _ _ :: up => after up
  end.

(** The longest way down from [t] to a leaf, in nodes: what bounds
    the walks of [search], [insert], [selectNode] and the fix-ups. *)
Fixpoint height (t : node K D) : nat :=
  match t with
  | nil => O
  | Node _ _ _ l r => S (Nat.max (height l) (height r))
  end.

(** The three red-black properties. *)
Definition root_black (t : node K D) : Prop := colorOf t = BLACK.

Fixpoint no_red_red (t : node K D) : Prop :=
  match t with
  | nil => True
  | Node _ c _ l r =>
      (c = RED -> colorOf l = BLACK /\ colorOf r = BLACK)
      /\ no_red_red l /\ no_red_red r
  end.

(** The number of black nodes on every path from the root of [t] down
    to a leaf (the sentinel, not counted), from left to right. *)
Fixpoint black_counts (t : node K D) : list nat :=
  match t with
  | nil => [O]
  | Node _ c _ l r =>
      map (fun n => match c with BLACK => S n | RED => n end)
          (black_counts l ++ black_counts r)
  end.

Definition equal_black_counts (t : node K D) : Prop :=
  forall a b, In a (black_counts t) -> In b (black_counts t) -> a = b.

Definition red_black (t : node K D) : Prop :=
  root_black t /\ no_red_red t /\ equal_black_counts t.

(** A subtree without red-red pair whose paths all hold [h] black
    nodes. *)
Fixpoint rbt (h : nat) (x : node K D) : Prop :=
  match x with
  | nil => h = O
  | Node _ RED _ l r =>
      colorOf l = BLACK /\ colorOf r = BLACK /\ rbt h l /\ rbt h r
  | Node _ BLACK _ l r =>
      match h with
      | O => False
      | S h' => rbt h' l /\ rbt h' r
      end
  end.

(** The same, except that a red root may have red children. *)
Definition rbt_top (h : nat) (x : node K D) : Prop :=
  match x with
  | Node _ RED _ l r => rbt h l /\ rbt h r
  | _ => rbt h x
  end.

Definition top_black (path : list (frame K D)) : Prop :=
  match path with
  | [] => True
  | f :: _ => fcolor f = BLACK
  end.

(** A parent chain that makes a red-black tree around any subtree with
    [h] black nodes per path (and a black root, if the parent is
    red). *)
Fixpoint ctx_rb (h : nat) (path : list (frame K D)) : Prop :=
  match path with
  | [] => True
  | f :: up =>
      rbt h (sibling f) /\
      match fcolor f with
      | RED => colorOf (sibling f) = BLACK /\ up <> [] /\ top_black up
               /\ ctx_rb h up
      | BLACK => ctx_rb (S h) up
      end
  end.

(** [path] fits around a red-black subtree [x]: plugging [x] in gives
    a red-black tree. *)
Definition fits (x : node K D) (path : list (frame K D)) : Prop :=
  exists h, rbt h x /\ ctx_rb h path
            /\ (colorOf x = RED -> path <> [] /\ top_black path).

(** What the loop of [deleteFixup] keeps: a subtree that is red-black
    but for a red root with red children, one black node short of what
    its parent chain expects. *)
Definition short (x : node K D) (path : list (frame K D)) : Prop :=
  exists h, rbt_top h x /\ ctx_rb (S h) path.

(** What [remove] hands to [deleteFixup], or plugs back in directly:
    after a black node was spliced out the pointer is one black node
    short, after a red one it fits. *)
Definition spliced (c : Color) (x : node K D) (path : list (frame K D))
  : Prop :=
  match c with
  | BLACK => short x path
  | RED => fits x path /\ path <> []
  end.

(** Two frames that differ at most in the augmented field. *)
Definition same_frame (f g : frame K D) : Prop :=
  match f, g with
  | LeftOf k c _ r, LeftOf k' c' _ r' => k = k' /\ c = c' /\ r = r'
  | RightOf k c _ l, RightOf k' c' _ l' => k = k' /\ c = c' /\ l = l'
  | _, _ => False
  end.

(** A pointer [(z, path')] reached from [(x, path)] by going down
    child links; the augmented fields of the nodes passed may have been
    rewritten on the way. *)
Inductive descent : node K D -> list (frame K D) ->
                    node K D -> list (frame K D) -> Prop :=
| descent_here x path : descent x path x path
| descent_left k c d d' l r path z path' :
    descent l (LeftOf k c d' r :: path) z path' ->
    descent (Node k c d l r) path z path'
| descent_right k c d d' l r path z path' :
    descent r (RightOf k c d' l :: path) z path' ->
    descent (Node k c d l r) path z path'.

(** A tree without its augmented fields. *)
Fixpoint erase (t : node K D) : node K unit :=
  match t with
  | nil => nil
  | Node k c _ l r => Node k c tt (erase l) (erase r)
  end.

(** Keys in order: with [proj] the number a node is ordered by. *)
Variable proj : K -> Z.

(** Every key on the left is not greater, every key on the right not
    smaller. *)
Fixpoint bst (t : node K D) : Prop :=
  match t with
  | nil => True
  | Node k _ _ l r =>
      Forall (fun k' => proj k' <= proj k) (elements l)
      /\ Forall (fun k' => proj k <= proj k') (elements r)
      /\ bst l /\ bst r
  end.

(** The reading with a strict bound on the right. *)
Fixpoint bst_strict (t : node K D) : Prop :=
  match t with
  | nil => True
  | Node k _ _ l r =>
      Forall (fun k' => proj k' <= proj k) (elements l)
      /\ Forall (fun k' => proj k < proj k') (elements r)
      /\ bst_strict l /\ bst_strict r
  end.

Definition inorder_sorted (t : node K D) : Prop :=
  StronglySorted Z.le (map proj (elements t)).

End Shape.
End Shape.

(* ------------------------------------------------------------------ *)
(** ** Augmented fields that agree with the children *)

Module Aug.
Section Aug.

Context {K D : Type}.

(** [recompute k l r] is what the augmented field of a node should be;
    [mark] tells the node the code will come back to after a fix-up, to
    recompute it and its ancestors. *)
Variable recompute : K -> node K D -> node K D -> D.
Variable mark : K -> bool.

(** Every node's field is the function of its children it should be. *)
Fixpoint consistent (t : node K D) : Prop :=
  match t with
  | nil => True
  | Node k _ d l r => d = recompute k l r /\ consistent l /\ consistent r
  end.

Fixpoint marked (t : node K D) : bool :=
  match t with
  | nil => false
  | Node k _ _ l r => mark k || marked l || marked r
  end.

(** The same, except on the marked nodes and their ancestors. *)
Fixpoint consistent_but (t : node K D) : Prop :=
  match t with
  | nil => True
  | Node k _ d l r =>
      (d = recompute k l r \/ mark k || marked l || marked r = true)
      /\ consistent_but l /\ consistent_but r
  end.

Fixpoint ctx_consistent_but (path : list (frame K D)) : Prop :=
  match path with
  | [] => True
  | f :: up => consistent_but (sibling f) /\ ctx_consistent_but up
  end.

(** The marked node is in the subtree, or is its parent. *)
Definition reaches (x : node K D) (path : list (frame K D)) : Prop :=
  marked x = true
  \/ match path with
     | [] => False
     | f :: _ => mark (fkey f) = true
     end.

End Aug.
End Aug.

(* ------------------------------------------------------------------ *)
(** ** Properties of the order-statistic tree *)

Module OSTProps.
Import OST.

(** Every node's [size] is one more than the sizes of its children,
    the sentinel counting for nothing. *)
Fixpoint sizes_ok (t : OSTNode) : Prop :=
  match t with
  | nil => True
  | Node _ _ size l r =>
      size = 1 + getSize l + getSize r /\ sizes_ok l /\ sizes_ok r
  end.

(** The same along a parent chain, around a subtree of size [s]. *)
Fixpoint ctx_sizes (s : Z) (path : list (frame Z Z)) : Prop :=
  match path with
  | [] => True
  | LeftOf _ _ size r :: up =>
      size = 1 + s + getSize r /\ sizes_ok r /\ ctx_sizes size up
  | RightOf _ _ size l :: up =>
      size = 1 + getSize l + s /\ sizes_ok l /\ ctx_sizes size up
  end.

(** The keys inserted and not removed, as a ledger kept beside the
    tree: [Remove] strikes one copy of the key, if there is one. *)
Fixpoint remove_one (key : Z) (l : list Z) : list Z :=
  match l with
  | [] => []
  | a :: l' => if a =? key then l' else a :: remove_one key l'
  end.

Definition record (l : list Z) (o : op) : list Z :=
  match o with
  | Insert key => key :: l
  | Remove key => remove_one key l
  end.

Definition live (ops : list op) : list Z := fold_left record ops [].

(** How many keys of [l] are below [key], and how many are not above
    it. *)
Definition count_lt (key : Z) (l : list Z) : Z :=
  Z.of_nat (length (filter (fun a => a <? key) l)).

Definition count_le (key : Z) (l : list Z) : Z :=
  Z.of_nat (length (filter (fun a => a <=? key) l)).

(** What every tree built by [insert] and [remove] satisfies. *)
Definition invariant (t : OrderStatisticTree) : Prop :=
  colorOf t = BLACK
  /\ (exists h, Shape.rbt h t)
  /\ sizes_ok t
  /\ StronglySorted Z.le (elements t).

End OSTProps.

(* ------------------------------------------------------------------ *)
(** ** Properties of the interval tree *)

Module POMProps.
Import POM.

(** The number an interval is ordered by. *)
Definition start_of (k : POMKey) : Z := start (interval k).

(** The intervals in the tree, in order. *)
Definition intervals (t : POMTree) : list Interval :=
  map interval (elements (root t)).

(** [search] looks for an interval with this [start] and [end]. *)
Definition matches (iv : Interval) (k : POMKey) : bool :=
  (start iv =? start (interval k)) && (end_ iv =? end_ (interval k)).

(** The intervals inserted and not removed, as a ledger kept beside
    the tree: [Remove] strikes one interval with that [start] and
    [end], if there is one. *)
Definition same_span (a b : Interval) : bool :=
  (start a =? start b) && (end_ a =? end_ b).

Fixpoint strike (iv : Interval) (l : list Interval) : list Interval :=
  match l with
  | [] => []
  | a :: l' => if same_span iv a then l' else a :: strike iv l'
  end.

Definition record (l : list Interval) (o : op) : list Interval :=
  match o with
  | Insert iv => iv :: l
  | Remove iv => strike iv l
  end.

Definition live (ops : list op) : list Interval := fold_left record ops [].

(** Every [Insert] brings a [start] that no interval of the ledger
    has. *)
Fixpoint fresh_starts (kept : list Interval) (ops : list op) : Prop :=
  match ops with
  | [] => True
  | o :: ops' =>
      match o with
      | Insert iv => ~ In (start iv) (map start kept)
      | Remove _ => True
      end
      /\ fresh_starts (record kept o) ops'
  end.

Definition sum_values (l : list Interval) : Z :=
  fold_right Z.add 0 (map value l).

(** The running sums of the values of a sequence of intervals, one per
    non-empty prefix, each with the [start] of the interval the prefix
    ends at. *)
Fixpoint prefix_sums (acc : Z) (l : list Interval) : list (Z * Z) :=
  match l with
  | [] => []
  | iv :: l' =>
      (acc + value iv, start iv) :: prefix_sums (acc + value iv) l'
  end.

(** The greatest running sum, with the place where it is first
    reached. *)
Fixpoint leftmost_max (best : Z * Z) (l : list (Z * Z)) : Z * Z :=
  match l with
  | [] => best
  | p :: l' => leftmost_max (if fst p >? fst best then p else best) l'
  end.

Definition best_prefix (l : list Interval) : option (Z * Z) :=
  match prefix_sums 0 l with
  | [] => None
  | p :: ps => Some (leftmost_max p ps)
  end.

(** The four intervals of the example of the specification, in the
    order of insertion. *)
Definition example_intervals : list op :=
  [Insert {| start := 0; end_ := 5; value := 10 |};
   Insert {| start := 5; end_ := 10; value := -5 |};
   Insert {| start := 10; end_ := 15; value := 8 |};
   Insert {| start := 15; end_ := 20; value := -3 |}].

(** Three intervals that start at 5, and the removal of the first. *)
Definition equal_starts : list op :=
  [Insert {| start := 5; end_ := 6; value := 1 |};
   Insert {| start := 5; end_ := 7; value := 2 |};
   Insert {| start := 5; end_ := 8; value := 4 |};
   Remove {| start := 5; end_ := 6; value := 1 |}].

(** Where [insert] puts an interval among those in the tree, taken
    in order: before the first one that it is less than
    ([Interval::operator<]), behind all the others. *)
Fixpoint place (iv : Interval) (l : list Interval) : list Interval :=
  match l with
  | [] => [iv]
  | a :: l' => if lt iv a then iv :: l else a :: place iv l'
  end.

(** The sum of the values of the first [j + 1] intervals. *)
Definition running_sum (l : list Interval) (j : nat) : Z :=
  sum_values (firstn (S j) l).

(** [mp] is the greatest running sum of [l], and [am] the [start] of
    the first interval at which it is reached. *)
Definition leftmost_greatest (l : list Interval) (mp am : Z) : Prop :=
  exists i iv,
    nth_error l i = Some iv
    /\ running_sum l i = mp
    /\ start iv = am
    /\ (forall j, (j < length l)%nat -> running_sum l j <= mp)
    /\ (forall j, (j < i)%nat -> running_sum l j < mp).

(** The better of two running sums, the earlier one on a tie. *)
Definition pick (b m : Z * Z) : Z * Z := if fst m >? fst b then m else b.

(** A running sum of a right subtree, seen from the node above. *)
Definition shift (a : Z) (p : Z * Z) : Z * Z := (a + fst p, snd p).

(** The augmented data the intervals of a subtree call for: the sum of
    their values, the greatest running sum and the start where it is
    first reached; [AugmentedData()] for no interval at all. *)
Definition summary (l : list Interval) : AugmentedData :=
  match best_prefix l with
  | None => no_data
  | Some (mp, am) => {| sum := sum_values l; maxpref := mp; argmax := am |}
  end.

(** Every node's [data] is what [updateAugmentedData] would store. *)
Definition aug_ok (x : POMNode) : Prop := Aug.consistent augment x.

(** Every node's [data] is the summary of the intervals below it. *)
Fixpoint summaries_ok (x : POMNode) : Prop :=
  match x with
  | nil => True
  | Node k _ d l r =>
      d = summary (map interval (elements l ++ k :: elements r))
      /\ summaries_ok l /\ summaries_ok r
  end.

(** The node at address [a]. *)
Definition at_addr (a : nat) (k : POMKey) : bool := Nat.eqb (addr k) a.

(** Live nodes have distinct addresses, none the sentinel's, all handed
    out before. *)
Definition addrs_ok (t : POMTree) : Prop :=
  (1 <= fresh t)%nat
  /\ NoDup (map addr (elements (root t)))
  /\ Forall (fun k => (1 <= addr k < fresh t)%nat) (elements (root t)).

(** The value of an interval is a C++ [int]. *)
Definition int_valued (o : op) : Prop :=
  match o with
  | Insert iv => - 2 ^ 31 <= value iv < 2 ^ 31
  | Remove _ => True
  end.

(** It is then above the [LLONG_MIN] that stands for "no prefix". *)
Definition above_min (iv : Interval) : Prop := LLONG_MIN < value iv.

(** What every tree built by [insert] and [remove] satisfies. *)
Definition invariant (t : POMTree) : Prop :=
  colorOf (root t) = BLACK
  /\ (exists h, Shape.rbt h (root t))
  /\ StronglySorted Z.le (map start_of (elements (root t))).

End POMProps.

(* ------------------------------------------------------------------ *)
(** ** Properties of the Josephus generators *)

Module JosephusProps.

(** The positions [0 .. n-1]. *)
Definition positions (n : Z) : list Z :=
  map Z.of_nat (seq 0 (Z.to_nat n)).

(** The sizes of circle and the steps of the correctness test. *)
Definition tested_n : list Z := [7; 10; 12; 15].
Definition tested_m : list Z := [2; 3; 4; 5].

(** The circle of those still standing, as the list that starts with
    the one the count starts at: one step on ... *)
Definition rot1 (l : list Z) : list Z :=
  match l with
  | [] => []
  | x :: l' => l' ++ [x]
  end.

(** ... and [k] steps on. *)
Definition rotn (k : nat) (l : list Z) : list Z := Nat.iter k rot1 l.

(** The Josephus order: [k] steps on, the one reached leaves the
    circle, and the count starts again at the next one. *)
Fixpoint eliminate (fuel k : nat) (circle : list Z) : list Z :=
  match fuel with
  | O => []
  | S fuel =>
      match rotn k circle with
      | [] => []
      | e :: rest => e :: eliminate fuel k rest
      end
  end.

Definition josephus (n m : Z) : list Z :=
  eliminate (Z.to_nat n) (Z.to_nat (m - 1)) (positions n).

(** The positions of [alive], once round from [q]. *)
Definition circ (n q : Z) : list Z :=
  map (fun i => (q + Z.of_nat i) mod n) (seq 0 (Z.to_nat n)).

(** Those of them still standing. *)
Definition ring (alive : list bool) (n q : Z) : list Z :=
  filter (Josephus.at_ alive) (circ n q).

(** How many positions the inner loops pass before they meet one still
    standing. *)
Fixpoint lead (alive : list bool) (l : list Z) : nat :=
  match l with
  | [] => O
  | x :: l' => if Josephus.at_ alive x then O else S (lead alive l')
  end.

End JosephusProps.


(* ------------------------------------------------------------------ *)
(** * Proofs: the shared balancing code *)

(** Inversion of a successful [bind]. *)
Lemma bind_Ok {A B : Type} (m : result A) (f : A -> result B) (b : B) :
bind m f = Ok b -> exists a, m = Ok a /\ f a = Ok b.
Proof. destruct m; simpl; intros H; try discriminate; eauto. Qed.

Ltac inv_ok :=
repeat match goal with
| H : Ok _ = Ok _ |- _ => injection H as H; subst
| H : (_, _) = (_, _) |- _ => inversion H; subst; clear H
| H : Undefined = Ok _ |- _ => discriminate H
| H : OutOfRange = Ok _ |- _ => discriminate H
| H : bind ?m _ = Ok _ |- _ =>
    let a := fresh "a" in
    let Ha := fresh "Ha" in
    apply bind_Ok in H; destruct H as [a [Ha H]]
| H : (let '(_, _) := ?p in _) = Ok _ |- _ => destruct p
| H : (match ?p with (_, _) => _ end) = Ok _ |- _ => destruct p
end.

Lemma list_ind2 {A : Type} (P : list A -> Prop) :
P [] -> (forall a, P [a]) ->
(forall a b l, P l -> P (a :: b :: l)) ->
forall l, P l.
Proof.
intros H0 H1 H2 l.
enough (P l /\ forall a, P (a :: l)) by tauto.
induction l as [|b l [IH1 IH2]]; split; auto.
Qed.

Ltac list_norm :=
  simpl; repeat first [rewrite <- app_assoc | rewrite <- app_comm_cons];
  reflexivity.

Ltac block_var e :=
  match e with
  | colorOf ?a => block_var a
  | leftOf ?a => block_var a
  | rightOf ?a => block_var a
  | fcolor ?a => block_var a
  | sibling ?a => block_var a
  | paint _ ?a => block_var a
  | withLeft ?a _ => block_var a
  | withRight ?a _ => block_var a
  | toLeft ?a _ => block_var a
  | toRight ?a _ => block_var a
  | bind ?m _ => block_var m
  | _ => is_var e; destruct e
  end.

Ltac crunch H :=
  repeat (cbn in H;
          match type of H with
          | context [match ?e with _ => _ end] => block_var e
          | context [bind ?m _] => block_var m
          end);
  cbn in H; try discriminate H; inv_ok.

Ltac tidy :=
  repeat match goal with
  | H : _ /\ _ |- _ => destruct H
  | H : False |- _ => contradiction H
  | H : RED = BLACK |- _ => discriminate H
  | H : BLACK = RED |- _ => discriminate H
  | H : S _ = O |- _ => discriminate H
  | H : O = S _ |- _ => discriminate H
  | H : ?a = ?a |- _ => clear H
  | H : ?a <> ?a |- _ => contradiction H; reflexivity
  | H : ?x = _ |- _ => is_var x; subst x
  | H : _ = ?x |- _ => is_var x; subst x
  end.

Ltac crunch_goal :=
  repeat (cbn in *; tidy;
          match goal with
          | |- context [match ?e with _ => _ end] => block_var e
          | |- context [bind ?m _] => block_var m
          end);
  cbn in *; tidy.


Section Shapes.

Context {K D : Type}.

(** ** In-order contents *)

Lemma elements_plug (x : node K D) path :
  elements (plug x path)
  = Shape.before path ++ elements x ++ Shape.after path.
Proof.
  revert x; induction path as [|[k c d r|k c d l] up IH]; intros x; simpl.
  - now rewrite app_nil_r.
  - rewrite IH; simpl. now rewrite <- !app_assoc.
  - rewrite IH; simpl. now rewrite <- !app_assoc.
Qed.

Lemma elements_plug_congr (x y : node K D) path :
  elements x = elements y ->
  elements (plug x path) = elements (plug y path).
Proof. intros E. now rewrite !elements_plug, E. Qed.

Lemma elements_paint c (x y : node K D) :
  paint c x = Ok y -> elements y = elements x.
Proof. destruct x, c; simpl; intros; inv_ok; reflexivity. Qed.

Lemma elements_fill_fpaint c (f : frame K D) x :
  elements (fill (fpaint c f) x) = elements (fill f x).
Proof. now destruct f. Qed.

Lemma elements_withLeft (x l y : node K D) :
  withLeft x l = Ok y ->
  elements y = elements l ++ match x with
                             | nil => []
                             | Node k _ _ _ r => k :: elements r
                             end.
Proof. destruct x; simpl; intros; inv_ok; reflexivity. Qed.

Lemma elements_withRight (x r y : node K D) :
  withRight x r = Ok y ->
  elements y = match x with
               | nil => []
               | Node k _ _ l _ => elements l ++ [k]
               end ++ elements r.
Proof.
  destruct x; simpl; intros; inv_ok; simpl.
  now rewrite <- app_assoc.
Qed.

(** Turns every step of a successful run into an equation between
    in-order contents, and rewrites with them. *)
Lemma plug_toLeft (x : node K D) path y up :
  toLeft x path = Ok (y, up) -> plug y up = plug x path.
Proof. destruct x; simpl; intros; inv_ok; reflexivity. Qed.

Lemma plug_toRight (x : node K D) path y up :
  toRight x path = Ok (y, up) -> plug y up = plug x path.
Proof. destruct x; simpl; intros; inv_ok; reflexivity. Qed.

(** Case analysis on whatever a successful run branches on. *)
(** ** Red-black shape *)

Lemma rbt_plug path : forall (x : node K D) h,
  Shape.rbt h x ->
  (colorOf x = RED -> Shape.top_black path) ->
  Shape.ctx_rb h path ->
  (exists h', Shape.rbt h' (plug x path))
  /\ (path <> [] -> colorOf (plug x path) = BLACK).
Proof.
  induction path as [|f up IH]; intros x h Hx Hc Hp; cbn [plug].
  - split; [eauto | congruence].
  - cbn [Shape.ctx_rb] in Hp. destruct Hp as [Hs Hp].
    assert (IH' : forall h', Shape.rbt h' (fill f x) ->
              (colorOf (fill f x) = RED -> Shape.top_black up) ->
              Shape.ctx_rb h' up ->
              (exists h'', Shape.rbt h'' (plug (fill f x) up))
              /\ colorOf (plug (fill f x) up) = BLACK).
    { intros h' H1 H2 H3. destruct (IH _ _ H1 H2 H3) as [IHa IHb].
      split; [exact IHa|].
      destruct up as [|g up']; [|apply IHb; discriminate].
      cbn [plug]. destruct f; simpl in *; destruct color; intuition. }
    destruct f as [k c d r|k c d l]; cbn [fcolor sibling fill] in *;
      destruct c; cbn [Shape.top_black fcolor] in Hc.
    + destruct Hp as (Hb & Hne & Ht & Hp).
      destruct (IH' h) as [IHa IHb]; simpl; auto.
      * destruct (colorOf x); intuition discriminate.
    + destruct (IH' (S h)) as [IHa IHb]; simpl; auto. discriminate.
    + destruct Hp as (Hb & Hne & Ht & Hp).
      destruct (IH' h) as [IHa IHb]; simpl; auto.
      * destruct (colorOf x); intuition discriminate.
    + destruct (IH' (S h)) as [IHa IHb]; simpl; auto. discriminate.
Qed.

Lemma rbt_black_counts (t : node K D) : forall h,
  Shape.rbt h t -> forall a, In a (Shape.black_counts t) -> a = h.
Proof.
  induction t as [|k c d l IHl r IHr]; intros h H a Ha; simpl in *.
  - intuition congruence.
  - apply in_map_iff in Ha. destruct Ha as [n [En Hn]].
    apply in_app_or in Hn.
    destruct c.
    + destruct H as (_ & _ & Hl & Hr). subst a.
      destruct Hn; [eapply IHl | eapply IHr]; eauto.
    + destruct h as [|h']; [contradiction|]. destruct H as [Hl Hr].
      subst a. f_equal.
      destruct Hn; [eapply IHl | eapply IHr]; eauto.
Qed.

Lemma rbt_no_red_red (t : node K D) : forall h,
  Shape.rbt h t -> Shape.no_red_red t.
Proof.
  induction t as [|k c d l IHl r IHr]; intros h H; simpl in *; auto.
  destruct c.
  - destruct H as (? & ? & Hl & Hr). eauto 6.
  - destruct h; [contradiction|]. destruct H as [Hl Hr].
    split; [discriminate|]. eauto.
Qed.

(** A red-black tree is no higher than twice its black height, and
    holds at least [2^h - 1] keys. *)
Lemma rbt_height (t : node K D) : forall h,
  Shape.rbt h t ->
  (Shape.height t
   <= 2 * h + match colorOf t with RED => 1 | BLACK => 0 end)%nat.
Proof.
  induction t as [|k c d l IHl r IHr]; intros h H; simpl in *; [lia|].
  destruct c.
  - destruct H as (Cl & Cr & Hl & Hr).
    specialize (IHl h Hl). specialize (IHr h Hr).
    rewrite Cl in IHl. rewrite Cr in IHr. lia.
  - destruct h as [|h]; [contradiction|]. destruct H as [Hl Hr].
    specialize (IHl h Hl). specialize (IHr h Hr).
    destruct (colorOf l), (colorOf r); lia.
Qed.

Lemma rbt_size (t : node K D) : forall h,
  Shape.rbt h t -> (2 ^ h <= S (length (elements t)))%nat.
Proof.
  induction t as [|k c d l IHl r IHr]; intros h H; simpl in *.
  - subst h. simpl. lia.
  - rewrite length_app. simpl. destruct c.
    + destruct H as (_ & _ & Hl & _). specialize (IHl h Hl). lia.
    + destruct h as [|h]; [contradiction|]. destruct H as [Hl Hr].
      specialize (IHl h Hl). specialize (IHr h Hr).
      rewrite Nat.pow_succ_r'. lia.
Qed.

(** The height of a red-black tree of [n] keys is at most
    [2 log2 (n + 1)]. *)
Lemma rbt_logarithmic (t : node K D) h :
  colorOf t = BLACK -> Shape.rbt h t ->
  (Shape.height t <= 2 * Nat.log2 (S (length (elements t))))%nat.
Proof.
  intros Hc Ht. pose proof (rbt_height t h Ht) as Hh.
  rewrite Hc in Hh. pose proof (rbt_size t h Ht) as Hs.
  apply Nat.log2_le_mono in Hs. rewrite Nat.log2_pow2 in Hs by lia. lia.
Qed.

Lemma rbt_red_black (t : node K D) h :
  colorOf t = BLACK -> Shape.rbt h t -> Shape.red_black t.
Proof.
  intros Hc Ht. split; [exact Hc|]. split.
  - eapply rbt_no_red_red; eauto.
  - intros a b Ha Hb.
    rewrite (rbt_black_counts _ _ Ht _ Ha).
    now rewrite (rbt_black_counts _ _ Ht _ Hb).
Qed.

Lemma paint_black_rbt (x : node K D) h :
  Shape.rbt_top h x ->
  exists x' h', paint BLACK x = Ok x' /\ Shape.rbt h' x'
                /\ colorOf x' = BLACK
                /\ (colorOf x = BLACK -> h' = h)
                /\ (colorOf x = RED -> h' = S h).
Proof.
  destruct x as [|k [] d l r]; simpl; intros H.
  - exists nil, h. intuition discriminate.
  - exists (Node k BLACK d l r), (S h). simpl. intuition discriminate.
  - exists (Node k BLACK d l r), h. simpl. intuition discriminate.
Qed.

Lemma rbt_rbt_top (x : node K D) h : Shape.rbt h x -> Shape.rbt_top h x.
Proof. destruct x as [|k [] d l r]; simpl; tauto. Qed.

(** [insertFixup_loop] on a red subtree in a sound parent chain: it
    succeeds, and what it returns is a red-black subtree in a sound
    chain. *)
Lemma short_root (t : node K D) rest h :
  Shape.rbt h t ->
  (colorOf t = RED -> Shape.top_black rest) ->
  Shape.ctx_rb h rest ->
  Shape.short (plug t rest) [].
Proof.
  intros Ht Hc Hr. destruct (rbt_plug rest t h Ht Hc Hr) as [[h' H'] _].
  exists h'. split; [now apply rbt_rbt_top | exact I].
Qed.


Lemma before_app (p q : list (frame K D)) :
  Shape.before (p ++ q) = Shape.before q ++ Shape.before p.
Proof.
  induction p as [|[k c d r|k c d l] p IH]; simpl.
  - now rewrite app_nil_r.
  - exact IH.
  - rewrite IH. now rewrite <- app_assoc.
Qed.

Lemma after_app (p q : list (frame K D)) :
  Shape.after (p ++ q) = Shape.after p ++ Shape.after q.
Proof.
  induction p as [|[k c d r|k c d l] p IH]; simpl.
  - reflexivity.
  - rewrite IH. now rewrite <- app_assoc.
  - exact IH.
Qed.

Lemma same_frame_before (p q : list (frame K D)) :
  Forall2 Shape.same_frame p q -> Shape.before p = Shape.before q.
Proof.
  induction 1 as [|f g p q Hfg _ IH]; [reflexivity|].
  destruct f, g; simpl in *; try contradiction;
    destruct Hfg as (-> & -> & ->); now rewrite IH.
Qed.

Lemma same_frame_after (p q : list (frame K D)) :
  Forall2 Shape.same_frame p q -> Shape.after p = Shape.after q.
Proof.
  induction 1 as [|f g p q Hfg _ IH]; [reflexivity|].
  destruct f, g; simpl in *; try contradiction;
    destruct Hfg as (-> & -> & ->); now rewrite IH.
Qed.

Lemma same_frame_top (p q : list (frame K D)) :
  Forall2 Shape.same_frame p q ->
  (p <> [] /\ Shape.top_black p) -> (q <> [] /\ Shape.top_black q).
Proof.
  destruct 1 as [|f g p q Hfg _]; [tauto|].
  intros [_ Hb]. split; [discriminate|].
  destruct f, g; simpl in *; try contradiction;
    destruct Hfg as (-> & -> & ->); exact Hb.
Qed.

Lemma same_frame_ctx_rb (p q : list (frame K D)) :
  Forall2 Shape.same_frame p q ->
  forall h, Shape.ctx_rb h p -> Shape.ctx_rb h q.
Proof.
  induction 1 as [|f g p q Hfg Hpq IH]; intros h; [auto|].
  cbn [Shape.ctx_rb].
  assert (Ec : fcolor f = fcolor g /\ sibling f = sibling g)
    by (destruct f, g; simpl in *; try contradiction;
        destruct Hfg as (-> & -> & ->); auto).
  destruct Ec as [Ec Es]. rewrite <- Ec, <- Es.
  intros [Hs Hc]. split; [exact Hs|].
  destruct (fcolor f); [|now apply IH].
  destruct Hc as (Hb & Hne & Ht & Hc).
  destruct (same_frame_top _ _ Hpq (conj Hne Ht)). auto.
Qed.

Lemma same_frame_refl (p : list (frame K D)) :
  Forall2 Shape.same_frame p p.
Proof.
  induction p as [|[k c d r|k c d l] p IH]; constructor; simpl; auto.
Qed.

Lemma same_frame_app (p p' q q' : list (frame K D)) :
  Forall2 Shape.same_frame p p' -> Forall2 Shape.same_frame q q' ->
  Forall2 Shape.same_frame (p ++ q) (p' ++ q').
Proof. apply Forall2_app. Qed.

(** Descending keeps the in-order contents around the pointer. *)
Lemma descent_elements (x z : node K D) path path' :
  Shape.descent x path z path' ->
  exists l1 l2,
    elements x = l1 ++ elements z ++ l2
    /\ Shape.before path' = Shape.before path ++ l1
    /\ Shape.after path' = l2 ++ Shape.after path.
Proof.
  induction 1 as [x path
                 |k c d d' l r path z path' _ IH
                 |k c d d' l r path z path' _ IH].
  - exists [], []. simpl. now rewrite !app_nil_r.
  - destruct IH as (l1 & l2 & E & Eb & Ea).
    exists l1, (l2 ++ k :: elements r). simpl in *.
    rewrite E, Eb, Ea. rewrite <- !app_assoc. auto.
  - destruct IH as (l1 & l2 & E & Eb & Ea).
    exists (elements l ++ k :: l1), l2. simpl in *.
    rewrite E, Eb, Ea. rewrite <- !app_assoc. simpl. auto.
Qed.

(** Descending from a red-black subtree that fits its parent chain
    leads to one. *)
Lemma descent_fits (x z : node K D) path path' :
  Shape.descent x path z path' ->
  Shape.fits x path -> Shape.fits z path'.
Proof.
  induction 1 as [x path
                 |k c d d' l r path z path' _ IH
                 |k c d d' l r path z path' _ IH]; intros F.
  - exact F.
  - apply IH. destruct F as (h & Hx & Hp & Hc).
    destruct c; simpl in Hx.
    + destruct Hx as (Hl & Hr & Hxl & Hxr). specialize (Hc eq_refl).
      exists h. cbn. intuition congruence.
    + destruct h as [|h]; [contradiction|]. destruct Hx as [Hxl Hxr].
      exists h. cbn. intuition discriminate.
  - apply IH. destruct F as (h & Hx & Hp & Hc).
    destruct c; simpl in Hx.
    + destruct Hx as (Hl & Hr & Hxl & Hxr). specialize (Hc eq_refl).
      exists h. cbn. intuition congruence.
    + destruct h as [|h]; [contradiction|]. destruct Hx as [Hxl Hxr].
      exists h. cbn. intuition discriminate.
Qed.

Lemma fits_root (t : node K D) h :
  colorOf t = BLACK -> Shape.rbt h t -> Shape.fits t [].
Proof. intros Hc Ht. exists h. cbn. intuition congruence. Qed.

Lemma fits_plug (x : node K D) path :
  Shape.fits x path ->
  (path = [] -> colorOf x = BLACK) ->
  exists h, Shape.rbt h (plug x path) /\ colorOf (plug x path) = BLACK.
Proof.
  intros (h & Hx & Hp & Hc) Hroot.
  destruct (rbt_plug path x h Hx) as [[h' H'] Hb]; auto.
  - intros E. now apply Hc.
  - exists h'. split; [exact H'|].
    destruct path; [now apply Hroot | apply Hb; discriminate].
Qed.

(** [minimum] *)
Lemma minimum_descent (x : node K D) : forall path y ypath,
  minimum x path = (y, ypath) -> Shape.descent x path y ypath.
Proof.
  induction x as [|k c d l IHl r _]; intros path y ypath H; simpl in H.
  - inv_ok. constructor.
  - destruct l as [|lk lc ld ll lr].
    + inv_ok. constructor.
    + apply IHl in H. eapply Shape.descent_left; eauto.
Qed.

Lemma minimum_leftmost (x : node K D) : forall path y ypath,
  minimum x path = (y, ypath) ->
  x <> nil ->
  (exists k c d r, y = Node k c d nil r)
  /\ exists p, ypath = p ++ path /\ Shape.before p = []
               /\ Forall (fun f => exists k c d r, f = LeftOf k c d r) p.
Proof.
  induction x as [|k c d l IHl r _]; intros path y ypath H Hne;
    [congruence|]. simpl in H.
  destruct l as [|lk lc ld ll lr].
  - inv_ok. split; [eauto|]. exists []. auto.
  - apply IHl in H; [|discriminate].
    destruct H as [Hy (p & -> & Hb & Hall)]. split; [exact Hy|].
    exists (p ++ [LeftOf k c d r]). rewrite <- app_assoc. split; [auto|].
    rewrite before_app. split; [now rewrite Hb|].
    apply Forall_app. split; [exact Hall|]. constructor; eauto.
Qed.

Lemma descent_app (x z : node K D) p p' q :
  Shape.descent x p z p' -> Shape.descent x (p ++ q) z (p' ++ q).
Proof.
  induction 1; [constructor| |].
  - eapply Shape.descent_left. exact IHdescent.
  - eapply Shape.descent_right. exact IHdescent.
Qed.

Lemma same_frame_fits (x : node K D) p q :
  Forall2 Shape.same_frame p q -> Shape.fits x p -> Shape.fits x q.
Proof.
  intros S (h & Hx & Hp & Hc). exists h. split; [exact Hx|]. split.
  - eapply same_frame_ctx_rb; eauto.
  - intros E. eapply same_frame_top; eauto.
Qed.

Lemma same_frame_short (x : node K D) p q :
  Forall2 Shape.same_frame p q -> Shape.short x p -> Shape.short x q.
Proof.
  intros S (h & Hx & Hp). exists h. split; [exact Hx|].
  eapply same_frame_ctx_rb; eauto.
Qed.

Lemma same_frame_nonempty (p q : list (frame K D)) :
  Forall2 Shape.same_frame p q -> p <> [] -> q <> [].
Proof. destruct 1; [tauto | discriminate]. Qed.

Lemma same_frame_spliced c (x : node K D) p q :
  Forall2 Shape.same_frame p q -> Shape.spliced c x p -> Shape.spliced c x q.
Proof.
  intros S. destruct c; simpl.
  - intros [F N]. split; [eapply same_frame_fits|
                          eapply same_frame_nonempty]; eauto.
  - now apply same_frame_short.
Qed.

(** Splicing out a node in favour of one of its children. *)
Lemma splice_child kz cz dz (zl zr : node K D) zpath :
  Shape.fits (Node kz cz dz zl zr) zpath ->
  Shape.spliced cz zl zpath /\ Shape.spliced cz zr zpath.
Proof.
  intros (h & Hz & Hp & Hc). destruct cz; simpl in *.
  - destruct Hz as (Hl & Hr & Hzl & Hzr).
    destruct (Hc eq_refl) as [Hne _].
    repeat split; auto; exists h; intuition congruence.
  - destruct h as [|h]; [contradiction|]. destruct Hz as [Hzl Hzr].
    split; exists h; split; auto using rbt_rbt_top.
Qed.

(** Splicing out the successor [y], which then takes the place of
    [z]. *)
Lemma splice_successor kz cz dz (zl zr : node K D) zpath
    ky cy dy yl x ypath d :
  Shape.fits (Node kz cz dz zl zr) zpath ->
  minimum zr [] = (Node ky cy dy yl x, ypath) ->
  Shape.spliced cy x (ypath ++ RightOf ky cz d zl :: zpath).
Proof.
  intros (h & Hz & Hp & Hc) Hmin.
  apply minimum_descent in Hmin.
  apply descent_app with (q := RightOf ky cz d zl :: zpath) in Hmin.
  cbn [app] in Hmin.
  assert (F : Shape.fits zr (RightOf ky cz d zl :: zpath)).
  { destruct cz; simpl in Hz.
    - destruct Hz as (Hl & Hr & Hzl & Hzr).
      destruct (Hc eq_refl) as [Hne Ht].
      exists h. cbn. intuition congruence.
    - destruct h as [|h]; [contradiction|]. destruct Hz as [Hzl Hzr].
      exists h. cbn. intuition discriminate. }
  apply (descent_fits _ _ _ _ Hmin) in F.
  destruct F as (hy & Hy & Hyp & Hyc).
  destruct cy; simpl in *.
  - destruct Hy as (Hl & Hr & Hyl & Hyr). split.
    + exists hy. intuition congruence.
    + now destruct ypath.
  - destruct hy as [|hy]; [contradiction|]. destruct Hy as [Hyl Hyr].
    exists hy. split; auto using rbt_rbt_top.
Qed.

Lemma splice_successor_elements (zl zr : node K D) zpath
    ky cy dy yl x ypath cz d :
  minimum zr [] = (Node ky cy dy yl x, ypath) ->
  zr <> nil ->
  elements (plug x (ypath ++ RightOf ky cz d zl :: zpath))
  = Shape.before zpath ++ elements zl ++ elements zr ++ Shape.after zpath.
Proof.
  intros Hmin Hne.
  destruct (minimum_leftmost _ _ _ _ Hmin Hne)
    as [(k & c & d' & r & E) (p & Ep & Hb & _)].
  injection E as -> -> -> -> ->. rewrite app_nil_r in Ep. subst p.
  apply minimum_descent, descent_elements in Hmin.
  destruct Hmin as (l1 & l2 & E & Eb & Ea). simpl in *.
  rewrite Hb in Eb. subst l1. rewrite app_nil_r in Ea. subst l2.
  rewrite elements_plug, before_app, after_app, E. simpl.
  rewrite Hb. rewrite <- !app_assoc. simpl. reflexivity.
Qed.

End Shapes.

Section Balance.

Context {K D : Type}.
Variable recompute : K -> node K D -> node K D -> D.
Variable promote : D -> K -> node K D -> node K D -> D.

Local Abbreviation leftRotate := (RB.leftRotate recompute promote).
Local Abbreviation rightRotate := (RB.rightRotate recompute promote).
Local Abbreviation insertFixup_loop := (RB.insertFixup_loop recompute promote).
Local Abbreviation insertFixup := (RB.insertFixup recompute promote).
Local Abbreviation deleteFixup_left := (RB.deleteFixup_left recompute promote).
Local Abbreviation deleteFixup_right := (RB.deleteFixup_right recompute promote).
Local Abbreviation deleteFixup_loop := (RB.deleteFixup_loop recompute promote).
Local Abbreviation deleteFixup := (RB.deleteFixup recompute promote).

Lemma elements_leftRotate x y :
  leftRotate x = Ok y -> elements y = elements x.
Proof.
  destruct x as [|kx cx dx a [|ky cy dy b c]]; simpl; intros; inv_ok.
  simpl. now rewrite <- app_assoc.
Qed.

Lemma elements_rightRotate x y :
  rightRotate x = Ok y -> elements y = elements x.
Proof.
  destruct x as [|ky cy dy [|kx cx dx a b] c]; simpl; intros; inv_ok.
  simpl. now rewrite <- app_assoc.
Qed.

Ltac contents :=
  repeat match goal with
  | H : paint _ _ = Ok _ |- _ => apply elements_paint in H
  | H : RB.leftRotate _ _ _ = Ok _ |- _ => apply elements_leftRotate in H
  | H : RB.rightRotate _ _ _ = Ok _ |- _ => apply elements_rightRotate in H
  | H : withLeft _ _ = Ok _ |- _ => apply elements_withLeft in H
  | H : withRight _ _ = Ok _ |- _ => apply elements_withRight in H
  end;
  simpl in *;
  repeat match goal with
  | H : elements _ = _ |- _ => rewrite H in *; clear H
  end;
  simpl; rewrite <- ?app_assoc; simpl.

Lemma elements_insertFixup_loop path : forall z t up,
  insertFixup_loop z path = Ok (t, up) ->
  elements (plug t up) = elements (plug z path).
Proof.
  induction path as [| p | p g rest IH] using list_ind2; intros z t up H.
  - simpl in H. inv_ok. reflexivity.
  - simpl in H. destruct (fcolor p); inv_ok. reflexivity.
  - cbn [RB.insertFixup_loop] in H.
    destruct (fcolor p) eqn:Ep; [|inv_ok; reflexivity].
    destruct g as [kg cg dg y|kg cg dg y];
      destruct (colorOf y) eqn:Ey; inv_ok;
      try (apply IH in H; rewrite H);
      cbn [plug fill]; apply elements_plug_congr;
      destruct p; inv_ok; contents; reflexivity.
Qed.

Lemma elements_deleteFixup_left x kp cp dp w rest x' path' :
  deleteFixup_left x kp cp dp w rest = Ok (x', path') ->
  elements (plug x' path')
  = elements (plug x (LeftOf kp cp dp w :: rest)).
Proof.
  unfold RB.deleteFixup_left. intros H.
  crunch H; cbn [plug fill]; try apply elements_plug_congr; list_norm.
Qed.

Lemma elements_deleteFixup_right x kp cp dp w rest x' path' :
  deleteFixup_right x kp cp dp w rest = Ok (x', path') ->
  elements (plug x' path')
  = elements (plug x (RightOf kp cp dp w :: rest)).
Proof.
  unfold RB.deleteFixup_right. intros H.
  crunch H; cbn [plug fill]; try apply elements_plug_congr; list_norm.
Qed.

Lemma elements_deleteFixup_loop fuel : forall x path x' path',
  deleteFixup_loop fuel x path = Ok (x', path') ->
  elements (plug x' path') = elements (plug x path).
Proof.
  induction fuel as [|fuel IH]; intros x path x' path' H;
    [discriminate|].
  cbn [RB.deleteFixup_loop] in H.
  destruct path as [|f rest]; [inv_ok; reflexivity|].
  destruct (colorOf x); [inv_ok; reflexivity|].
  apply bind_Ok in H. destruct H as [[x1 path1] [H1 H]].
  apply IH in H. rewrite H.
  destruct f.
  - now apply elements_deleteFixup_left.
  - now apply elements_deleteFixup_right.
Qed.

Lemma elements_deleteFixup x path t :
  deleteFixup x path = Ok t ->
  elements t = elements (plug x path).
Proof.
  unfold RB.deleteFixup. intros H.
  apply bind_Ok in H. destruct H as [[x1 path1] [H1 H]].
  apply bind_Ok in H. destruct H as [x2 [H2 H]]. inv_ok.
  apply elements_deleteFixup_loop in H1. rewrite <- H1.
  apply elements_plug_congr. now apply elements_paint with BLACK.
Qed.

Lemma elements_insertFixup z path t :
  insertFixup z path = Ok t ->
  elements t = elements (plug z path).
Proof.
  unfold RB.insertFixup. intros H. inv_ok.
  apply elements_paint in H. rewrite H.
  now apply elements_insertFixup_loop.
Qed.

Lemma insertFixup_loop_rbt path : forall (z : node K D) h,
  Shape.rbt h z -> colorOf z = RED -> Shape.ctx_rb h path ->
  exists t up h',
    insertFixup_loop z path = Ok (t, up)
    /\ Shape.rbt h' t /\ Shape.ctx_rb h' up
    /\ (colorOf t = RED -> Shape.top_black up).
Proof.
  induction path as [| p | p g rest IH] using list_ind2;
    intros z h Hz Hc Hp.
  - exists z, [], h. simpl. auto.
  - cbn in Hp. destruct p as [k [] d s|k [] d s]; cbn in *;
      try (exfalso; intuition congruence);
      eexists _, _, h; (split; [reflexivity|]); cbn; intuition.
  - cbn [Shape.ctx_rb] in Hp. destruct Hp as [Hs Hp].
    destruct (fcolor p) eqn:Ep.
    2:{ exists z, (p :: g :: rest), h. cbn [RB.insertFixup_loop].
        rewrite Ep. split; [reflexivity|].
        cbn [Shape.ctx_rb Shape.top_black]. rewrite Ep. auto. }
    destruct Hp as (Hsb & _ & Hg & Hs2 & Hp).
    cbn [Shape.top_black] in Hg. rewrite Hg in Hp.
    cbn [RB.insertFixup_loop]. rewrite Ep.
    destruct g as [kg cg dg y|kg cg dg y]; cbn [fcolor sibling] in *;
      subst cg.
    + destruct z as [|kz [] dz zl zr]; try discriminate.
      destruct y as [|ky [] dy yl yr]; cbn [colorOf paint bind].
      * destruct p as [kp cp dp s|kp cp dp s]; cbn in Ep; subst cp;
          [|destruct zr as [|? ? ? ? ?]];
          cbn in *; try (exfalso; intuition congruence);
          eexists _, _, (S h); (split; [reflexivity|]);
          cbn; intuition discriminate.
      * apply (IH _ (S h)); [|reflexivity|assumption].
        destruct p; cbn in *; subst; cbn; intuition.
      * destruct p as [kp cp dp s|kp cp dp s]; cbn in Ep; subst cp;
          [|destruct zr as [|? ? ? ? ?]];
          cbn in *; try (exfalso; intuition congruence);
          eexists _, _, (S h); (split; [reflexivity|]);
          cbn; intuition discriminate.
    + destruct z as [|kz [] dz zl zr]; try discriminate.
      destruct y as [|ky [] dy yl yr]; cbn [colorOf paint bind].
      * destruct p as [kp cp dp s|kp cp dp s]; cbn in Ep; subst cp;
          [destruct zl as [|? ? ? ? ?]|];
          cbn in *; try (exfalso; intuition congruence);
          eexists _, _, (S h); (split; [reflexivity|]);
          cbn; intuition discriminate.
      * apply (IH _ (S h)); [|reflexivity|assumption].
        destruct p; cbn in *; subst; cbn; intuition.
      * destruct p as [kp cp dp s|kp cp dp s]; cbn in Ep; subst cp;
          [destruct zl as [|? ? ? ? ?]|];
          cbn in *; try (exfalso; intuition congruence);
          eexists _, _, (S h); (split; [reflexivity|]);
          cbn; intuition discriminate.
Qed.

Lemma insertFixup_rbt path (z : node K D) h :
  Shape.rbt h z -> colorOf z = RED -> Shape.ctx_rb h path ->
  exists t h',
    insertFixup z path = Ok t /\ Shape.rbt h' t /\ colorOf t = BLACK.
Proof.
  intros Hz Hc Hp.
  destruct (insertFixup_loop_rbt path z h Hz Hc Hp)
    as (t & up & h' & E & Ht & Hup & Htop).
  unfold RB.insertFixup. rewrite E. cbn [bind].
  destruct (rbt_plug up t h' Ht Htop Hup) as [[h2 H2] Hb].
  destruct (paint_black_rbt _ _ (rbt_rbt_top _ _ H2))
    as (t' & h3 & E' & H3 & Hc' & _).
  exists t', h3. auto.
Qed.

(** One turn of the loop of [deleteFixup] succeeds and keeps the
    pointer one black node short of its parent chain. *)
Lemma deleteFixup_left_rbt (x : node K D) kp cp dp w rest h :
  Shape.rbt h x -> colorOf x = BLACK ->
  Shape.ctx_rb (S h) (LeftOf kp cp dp w :: rest) ->
  exists x' path',
    deleteFixup_left x kp cp dp w rest = Ok (x', path')
    /\ Shape.short x' path'
    /\ ((length path' <= length rest)%nat \/ colorOf x' = RED).
Proof.
  intros Hx Hc Hp. unfold RB.deleteFixup_left.
  crunch_goal.
  all: eexists _, _; (split; [reflexivity|]).
  all: try (destruct cp; tidy).
  all: split; [|cbn; auto with arith].
  all: try solve [eexists; split; cycle 1;
                  [solve [cbn; repeat split; eauto]
                  |cbn; repeat split; eauto]].
  all: try solve [eapply short_root; cycle 2;
                  [eassumption
                  |cbn; repeat split; eauto
                  |cbn; intros; try discriminate; auto]].
Qed.

Lemma deleteFixup_right_rbt (x : node K D) kp cp dp w rest h :
  Shape.rbt h x -> colorOf x = BLACK ->
  Shape.ctx_rb (S h) (RightOf kp cp dp w :: rest) ->
  exists x' path',
    deleteFixup_right x kp cp dp w rest = Ok (x', path')
    /\ Shape.short x' path'
    /\ ((length path' <= length rest)%nat \/ colorOf x' = RED).
Proof.
  intros Hx Hc Hp. unfold RB.deleteFixup_right.
  crunch_goal.
  all: eexists _, _; (split; [reflexivity|]).
  all: try (destruct cp; tidy).
  all: split; [|cbn; auto with arith].
  all: try solve [eexists; split; cycle 1;
                  [solve [cbn; repeat split; eauto]
                  |cbn; repeat split; eauto]].
  all: try solve [eapply short_root; cycle 2;
                  [eassumption
                  |cbn; repeat split; eauto
                  |cbn; intros; try discriminate; auto]].
Qed.

Lemma deleteFixup_loop_rbt fuel : forall (x : node K D) path,
  Shape.short x path ->
  (length path + 2 <= fuel
   \/ (path = [] \/ colorOf x = RED) /\ 1 <= fuel)%nat ->
  exists x' path',
    deleteFixup_loop fuel x path = Ok (x', path')
    /\ Shape.short x' path'
    /\ (path' = [] \/ colorOf x' = RED).
Proof.
  induction fuel as [|fuel IH]; intros x path Hs Hf; [lia|].
  cbn [RB.deleteFixup_loop].
  destruct path as [|f rest]; [exists x, []; auto|].
  destruct (colorOf x) eqn:Ec; [exists x, (f :: rest); auto|].
  destruct Hf as [Hf|[[Hf|Hf] _]]; try discriminate. cbn [length] in Hf.
  destruct Hs as (h & Hx & Hp).
  assert (Hx' : Shape.rbt h x)
    by (destruct x as [|? [] ? ? ?]; simpl in *; auto; discriminate).
  assert (B : exists x1 path1,
             match f with
             | LeftOf kp cp dp w => deleteFixup_left x kp cp dp w rest
             | RightOf kp cp dp w => deleteFixup_right x kp cp dp w rest
             end = Ok (x1, path1)
             /\ Shape.short x1 path1
             /\ ((length path1 <= length rest)%nat \/ colorOf x1 = RED)).
  { destruct f; [eapply deleteFixup_left_rbt|eapply deleteFixup_right_rbt];
      eauto. }
  destruct B as (x1 & path1 & E & Hs1 & Hm). rewrite E. cbn [bind].
  apply IH; [assumption|].
  destruct Hm as [Hm|Hm]; [left; lia|right; split; [auto|lia]].
Qed.

Lemma deleteFixup_rbt (x : node K D) path :
  Shape.short x path ->
  exists t h', deleteFixup x path = Ok t
               /\ Shape.rbt h' t /\ colorOf t = BLACK.
Proof.
  intros Hs. unfold RB.deleteFixup.
  destruct (deleteFixup_loop_rbt (S (S (length path))) x path Hs)
    as (x1 & path1 & E & (h1 & Hx1 & Hp1) & Hend); [left; lia|].
  rewrite E. cbn [bind].
  destruct (paint_black_rbt _ _ Hx1) as (x2 & h2 & E2 & Hx2 & Hc2 & Hb & Hr).
  rewrite E2. cbn [bind]. 
  destruct Hend as [-> | Hred].
  - exists x2, h2. auto.
  - specialize (Hr Hred). subst h2.
    destruct (rbt_plug path1 x2 (S h1) Hx2) as [[h3 H3] Hb3];
      [rewrite Hc2; discriminate | assumption |].
    exists (plug x2 path1), h3. split; [reflexivity|]. split; [exact H3|].
    destruct path1; [exact Hc2 | apply Hb3; discriminate].
Qed.

(** The end of [remove]. *)
Lemma remove_finish_rbt c (x : node K D) path :
  Shape.spliced c x path ->
  exists t h,
    match c with
    | BLACK => deleteFixup x path
    | RED => Ok (plug x path)
    end = Ok t
    /\ Shape.rbt h t /\ colorOf t = BLACK
    /\ elements t = elements (plug x path).
Proof.
  destruct c; simpl.
  - intros [F N]. destruct (fits_plug x path F) as (h & H & Hc);
      [congruence|]. eauto 6.
  - intros S. destruct (deleteFixup_rbt x path S) as (t & h & E & H & Hc).
    exists t, h. repeat split; auto.
    now apply elements_deleteFixup.
Qed.

End Balance.

(** ** Augmented fields across a fix-up

    While [insertFixup] and [deleteFixup] run in [pom.h], the fields of
    the nodes between the changed node and the root are out of date; a
    rotation recomputes the two nodes it moves from their children.  The
    fields are therefore right everywhere except on the ancestors of the
    node [updateAncestors] will start from. *)

Section Stale.

Context {K D : Type}.
Variable recompute : K -> node K D -> node K D -> D.
Variable mark : K -> bool.

Local Abbreviation promote := (fun (_ : D) k l r => recompute k l r).
Local Abbreviation cb := (Aug.consistent_but recompute mark).
Local Abbreviation ctx_cb := (Aug.ctx_consistent_but recompute mark).
Local Abbreviation marked := (Aug.marked mark).

(** A field is right by construction (the rotation has just recomputed
    it), or as it was before, or it belongs to an ancestor of the marked
    node. *)
Ltac solve_marks :=
  repeat match goal with
         | H : @eq bool _ true |- _ => rewrite H
         end;
  rewrite ?orb_true_r; reflexivity.

Ltac stale_atom :=
  first [ assumption | exact I | reflexivity
        | left; reflexivity | left; solve_marks
        | right; solve_marks | solve_marks ].

Ltac stale_finish :=
  cbn in *; tidy;
  repeat match goal with
         | H : _ = true \/ _ = true |- _ => destruct H
         | H : _ = true \/ False |- _ => destruct H as [H|[]]
         | H : _ || _ = true |- _ => apply orb_true_iff in H
         end;
  repeat split; stale_atom.

Lemma stale_insertFixup_loop path : forall z t up,
  RB.insertFixup_loop recompute promote z path = Ok (t, up) ->
  cb z -> marked z = true -> ctx_cb path ->
  cb t /\ marked t = true /\ ctx_cb up.
Proof.
  induction path as [| p | p g rest IH] using list_ind2;
    intros z t up H Hz Hm Hp.
  - simpl in H. inv_ok. auto.
  - simpl in H. destruct (fcolor p); inv_ok. auto.
  - cbn [RB.insertFixup_loop] in H.
    destruct (fcolor p) eqn:Ep; [|inv_ok; auto].
    destruct g as [kg cg dg y|kg cg dg y];
      destruct (colorOf y) eqn:Ey.
    + destruct y; [discriminate|]. cbn [paint bind] in H.
      apply IH in H; [exact H| | |]; destruct p; stale_finish.
    + crunch H; stale_finish.
    + destruct y; [discriminate|]. cbn [paint bind] in H.
      apply IH in H; [exact H| | |]; destruct p; stale_finish.
    + crunch H; stale_finish.
Qed.

Lemma stale_paint c (x y : node K D) :
  paint c x = Ok y -> (cb x -> cb y) /\ marked y = marked x.
Proof. destruct x, c; simpl; intros; inv_ok; simpl; auto. Qed.

Lemma stale_plug path : forall x,
  cb x -> marked x = true -> ctx_cb path ->
  cb (plug x path) /\ marked (plug x path) = true.
Proof.
  induction path as [|f up IH]; intros x Hx Hm Hp; cbn [plug]; [auto|].
  destruct Hp as [Hs Hp]. apply IH; auto; destruct f; stale_finish.
Qed.

(** When the marked node is the parent of the pointer, plugging one
    level is enough to have it inside. *)
Lemma stale_plug_reaches path x :
  cb x -> Aug.reaches mark x path -> ctx_cb path ->
  path <> [] \/ marked x = true ->
  cb (plug x path) /\ marked (plug x path) = true.
Proof.
  intros Hx Hr Hp Hne. destruct path as [|f up].
  - cbn in *. intuition.
  - cbn [plug]. destruct Hp as [Hs Hp].
    apply stale_plug; auto; destruct f; unfold Aug.reaches in Hr;
      stale_finish.
Qed.

Lemma stale_root t rest :
  cb t -> marked t = true -> ctx_cb rest ->
  cb (plug t rest) /\ ctx_cb []
  /\ (marked (plug t rest) = true \/ False).
Proof.
  intros Ht Hm Hr. destruct (stale_plug rest t Ht Hm Hr). cbn. auto.
Qed.

Lemma stale_deleteFixup_left x kp cp dp w rest x' path' :
  RB.deleteFixup_left recompute promote x kp cp dp w rest
  = Ok (x', path') ->
  cb x -> ctx_cb (LeftOf kp cp dp w :: rest) ->
  Aug.reaches mark x (LeftOf kp cp dp w :: rest) ->
  cb x' /\ ctx_cb path' /\ Aug.reaches mark x' path'.
Proof.
  unfold RB.deleteFixup_left, Aug.reaches. intros H Hx Hp Hr.
  crunch H.
  all: try solve [stale_finish].
  all: apply stale_root; stale_finish.
Qed.

Lemma stale_deleteFixup_right x kp cp dp w rest x' path' :
  RB.deleteFixup_right recompute promote x kp cp dp w rest
  = Ok (x', path') ->
  cb x -> ctx_cb (RightOf kp cp dp w :: rest) ->
  Aug.reaches mark x (RightOf kp cp dp w :: rest) ->
  cb x' /\ ctx_cb path' /\ Aug.reaches mark x' path'.
Proof.
  unfold RB.deleteFixup_right, Aug.reaches. intros H Hx Hp Hr.
  crunch H.
  all: try solve [stale_finish].
  all: apply stale_root; stale_finish.
Qed.

Lemma stale_deleteFixup_loop fuel : forall x path x' path',
  RB.deleteFixup_loop recompute promote fuel x path = Ok (x', path') ->
  cb x -> ctx_cb path -> Aug.reaches mark x path ->
  cb x' /\ ctx_cb path' /\ Aug.reaches mark x' path'.
Proof.
  induction fuel as [|fuel IH]; intros x path x' path' H Hx Hp Hr;
    [discriminate|].
  cbn [RB.deleteFixup_loop] in H.
  destruct path as [|f rest]; [inv_ok; auto|].
  destruct (colorOf x); [inv_ok; auto|].
  apply bind_Ok in H. destruct H as [[x1 path1] [H1 H]].
  destruct f.
  - apply stale_deleteFixup_left in H1; auto.
    destruct H1 as (? & ? & ?). eapply IH; eauto.
  - apply stale_deleteFixup_right in H1; auto.
    destruct H1 as (? & ? & ?). eapply IH; eauto.
Qed.

(** After [deleteFixup] the fields are right except on the marked node
    and its ancestors. *)
Lemma stale_deleteFixup x path t :
  RB.deleteFixup recompute promote x path = Ok t ->
  cb x -> ctx_cb path -> Aug.reaches mark x path ->
  path <> [] \/ marked x = true ->
  cb t /\ marked t = true.
Proof.
  unfold RB.deleteFixup. intros H Hx Hp Hr Hne.
  apply bind_Ok in H. destruct H as [[x1 path1] [H1 H]].
  apply bind_Ok in H. destruct H as [x2 [H2 H]]. inv_ok.
  assert (Hne1 : path1 <> [] \/ marked x1 = true).
  { clear H2. revert H1 Hne Hr Hx Hp. generalize (S (S (length path))).
    intros fuel H1 Hne Hr Hx Hp.
    destruct (stale_deleteFixup_loop _ _ _ _ _ H1 Hx Hp Hr)
      as (_ & _ & [Hm|Hm]); [now right|].
    left. destruct path1; [contradiction | discriminate]. }
  apply stale_deleteFixup_loop in H1; auto.
  destruct H1 as (Hx1 & Hp1 & Hr1).
  apply stale_paint in H2. destruct H2 as [Hc Em].
  apply stale_plug_reaches; auto.
  - unfold Aug.reaches in *. now rewrite Em.
  - now rewrite Em.
Qed.

Lemma stale_insertFixup z path t :
  RB.insertFixup recompute promote z path = Ok t ->
  cb z -> marked z = true -> ctx_cb path ->
  cb t /\ marked t = true.
Proof.
  unfold RB.insertFixup. intros H Hz Hm Hp.
  apply bind_Ok in H. destruct H as [[t1 up] [H1 H]].
  apply stale_insertFixup_loop in H1; auto.
  destruct H1 as (Ht & Hmt & Hup).
  destruct (stale_plug up t1 Ht Hmt Hup) as [A B].
  apply stale_paint in H. destruct H as [Hc Em]. rewrite Em. auto.
Qed.

End Stale.


(* ------------------------------------------------------------------ *)
(** * Proofs: sorted lists and the ledger *)

Section SortedLists.

Lemma sorted_app (l1 l2 : list Z) :
  StronglySorted Z.le (l1 ++ l2) <->
  StronglySorted Z.le l1 /\ StronglySorted Z.le l2
  /\ (forall a b, In a l1 -> In b l2 -> a <= b).
Proof.
  induction l1 as [|x l1 IH]; simpl.
  - split; [intros H; repeat split; auto; [constructor | contradiction]
           |tauto].
  - split.
    + intros H. apply StronglySorted_inv in H. destruct H as [H1 H2].
      apply IH in H1. destruct H1 as (Ha & Hb & Hc).
      rewrite Forall_app in H2. destruct H2 as [H2 H3].
      rewrite Forall_forall in H3.
      repeat split; auto.
      * constructor; auto.
      * intros a b [->|Ha'] Hb'; auto.
    + intros (H1 & H2 & H3).
      apply StronglySorted_inv in H1. destruct H1 as [H1 H4].
      constructor.
      * apply IH. repeat split; auto.
      * rewrite Forall_app. split; [exact H4|].
        rewrite Forall_forall. intros b Hb. apply H3; auto.
Qed.

Lemma sorted_cons_iff (x : Z) (l : list Z) :
  StronglySorted Z.le (x :: l) <->
  StronglySorted Z.le l /\ Forall (Z.le x) l.
Proof.
  split; [apply StronglySorted_inv | intros []; now constructor].
Qed.

(** A sorted list stays sorted when one element is taken out, and when
    an element is put between the smaller-or-equal and the greater. *)
Lemma sorted_delete (l1 l2 : list Z) (k : Z) :
  StronglySorted Z.le (l1 ++ k :: l2) -> StronglySorted Z.le (l1 ++ l2).
Proof.
  rewrite !sorted_app, sorted_cons_iff.
  intros (H1 & (H2 & H3) & H4). repeat split; auto.
  intros a b Ha Hb. apply H4; simpl; auto.
Qed.

Lemma sorted_insert (l1 l2 : list Z) (k : Z) :
  StronglySorted Z.le (l1 ++ l2) ->
  Forall (fun a => a <= k) l1 -> Forall (fun b => k < b) l2 ->
  StronglySorted Z.le (l1 ++ k :: l2).
Proof.
  rewrite !sorted_app, sorted_cons_iff, !Forall_forall.
  intros (H1 & H2 & H3) H4 H5. repeat split; auto.
  - intros b Hb. specialize (H5 b Hb). lia.
  - intros a b Ha [<-|Hb]; auto.
Qed.

Lemma sorted_map_app {A : Type} (f : A -> Z) (l1 l2 : list A) :
  StronglySorted Z.le (map f (l1 ++ l2)) <->
  StronglySorted Z.le (map f l1) /\ StronglySorted Z.le (map f l2)
  /\ (forall a b, In a l1 -> In b l2 -> f a <= f b).
Proof.
  rewrite map_app, sorted_app. split; intros (H1 & H2 & H3);
    repeat split; auto.
  - intros a b Ha Hb. apply H3; now apply in_map.
  - intros a b Ha Hb. apply in_map_iff in Ha, Hb.
    destruct Ha as (a' & <- & Ha), Hb as (b' & <- & Hb). auto.
Qed.

(** There is one way to sort. *)
Lemma sorted_perm_eq (l : list Z) : forall l',
  StronglySorted Z.le l -> StronglySorted Z.le l' -> Permutation l l' ->
  l = l'.
Proof.
  induction l as [|a l IH]; intros l' Hs Hs' P.
  - apply Permutation_nil in P. auto.
  - destruct l' as [|b l'];
      [apply Permutation_sym, Permutation_nil in P; discriminate|].
    apply StronglySorted_inv in Hs, Hs'.
    destruct Hs as [Hs Ha], Hs' as [Hs' Hb].
    rewrite Forall_forall in Ha, Hb.
    assert (Eab : a = b).
    { assert (Hia : In a (b :: l'))
        by (eapply Permutation_in; [exact P|now left]).
      assert (Hib : In b (a :: l))
        by (eapply Permutation_in; [symmetry; exact P|now left]).
      simpl in Hia, Hib.
      destruct Hia as [Hia|Hia]; [auto|].
      destruct Hib as [Hib|Hib]; [auto|].
      specialize (Ha _ Hib). specialize (Hb _ Hia). lia. }
    subst b. f_equal. apply IH; auto.
    eapply Permutation_cons_inv; eauto.
Qed.

(** The place of an element that alone has a property. *)
Lemma split_unique {A : Type} (P : A -> Prop) (l1 : list A) :
  forall l1' k k' l2 l2',
  l1 ++ k :: l2 = l1' ++ k' :: l2' ->
  P k' -> Forall (fun a => ~ P a) l1 -> Forall (fun a => ~ P a) l2 ->
  l1 = l1' /\ k = k' /\ l2 = l2'.
Proof.
  induction l1 as [|a l1 IH]; intros [|a' l1'] k k' l2 l2' E Hk' H1 H2;
    simpl in E; inversion E; subst.
  - auto.
  - exfalso. rewrite Forall_forall in H2. apply (H2 k'); [|exact Hk'].
    apply in_elt.
  - inversion H1; subst. contradiction.
  - inversion H1; subst.
    destruct (IH l1' k k' l2 l2') as (-> & -> & ->); auto.
Qed.

End SortedLists.

Section Ledger.
Import OSTProps.

Lemma remove_one_absent (k : Z) (l : list Z) :
  ~ In k l -> remove_one k l = l.
Proof.
  induction l as [|a l IH]; simpl; [reflexivity|]. intros H.
  destruct (Z.eqb_spec a k); [tauto|]. f_equal. tauto.
Qed.

Lemma remove_one_present (k : Z) (l : list Z) :
  In k l -> Permutation (k :: remove_one k l) l.
Proof.
  induction l as [|a l IH]; simpl; [contradiction|]. intros H.
  destruct (Z.eqb_spec a k) as [->|N]; [reflexivity|].
  destruct H as [->|H]; [congruence|].
  rewrite perm_swap. constructor. auto.
Qed.

Lemma remove_one_middle (k : Z) (l1 l2 : list Z) :
  Permutation (remove_one k (l1 ++ k :: l2)) (l1 ++ l2).
Proof.
  apply Permutation_cons_inv with (a := k).
  rewrite remove_one_present by (apply in_elt).
  symmetry. apply Permutation_middle.
Qed.

Lemma remove_one_perm (k : Z) (l l' : list Z) :
  Permutation l l' -> Permutation (remove_one k l) (remove_one k l').
Proof.
  intros P. destruct (in_dec Z.eq_dec k l) as [I|N].
  - apply Permutation_cons_inv with (a := k).
    rewrite !remove_one_present; auto.
    eapply Permutation_in; eauto.
  - rewrite !remove_one_absent; auto.
    intros I. apply N. eapply Permutation_in; [symmetry|]; eauto.
Qed.

Lemma remove_one_length (k : Z) (l : list Z) :
  In k l -> S (length (remove_one k l)) = length l.
Proof.
  intros I. apply remove_one_present in I.
  apply Permutation_length in I. exact I.
Qed.

End Ledger.


(* ------------------------------------------------------------------ *)
(** * Proofs: fields that are right everywhere

  What the walks and the splice of [remove] hand to the fix-up, and
  what is left to do once the fix-up is over. *)

Section Upkeep.

Context {K D : Type}.
Variable recompute : K -> node K D -> node K D -> D.

Local Abbreviation ok := (Aug.consistent recompute).
Local Abbreviation ctx_ok :=
  (Forall (fun f => Aug.consistent recompute (sibling f))).

Lemma consistent_descent (x z : node K D) path zpath :
  Shape.descent x path z zpath -> ok x -> ctx_ok path ->
  ok z /\ ctx_ok zpath.
Proof.
  induction 1 as [x path | k c d d' l r path z path' _ IH
                 | k c d d' l r path z path' _ IH]; intros Hx Hp.
  - auto.
  - simpl in Hx. apply IH; [tauto|]. constructor; simpl; tauto.
  - simpl in Hx. apply IH; [tauto|]. constructor; simpl; tauto.
Qed.

Lemma consistent_paint c (x y : node K D) :
  paint c x = Ok y -> ok x -> ok y.
Proof. destruct x, c; simpl; intros H; inv_ok; simpl; auto. Qed.

(** At the root [deleteFixup] has one thing to do: [x->color = BLACK]. *)
Lemma deleteFixup_root promote (x t : node K D) :
  RB.deleteFixup recompute promote x [] = Ok t -> paint BLACK x = Ok t.
Proof.
  unfold RB.deleteFixup. simpl. destruct (paint BLACK x); simpl; auto.
Qed.

Section Marked.

Variable mark : K -> bool.

Local Abbreviation cb := (Aug.consistent_but recompute mark).
Local Abbreviation ctx_cb := (Aug.ctx_consistent_but recompute mark).
Local Abbreviation marked := (Aug.marked mark).

Lemma consistent_cb (x : node K D) : ok x -> cb x.
Proof. induction x; simpl; tauto. Qed.

Lemma ctx_consistent_cb path : ctx_ok path -> ctx_cb path.
Proof.
  induction 1 as [|f up Hf _ IH]; simpl; [exact I|].
  split; [now apply consistent_cb | exact IH].
Qed.

Lemma unmarked (x : node K D) :
  (forall k, In k (elements x) -> mark k = false) -> marked x = false.
Proof.
  induction x as [|k c d l IHl r IHr]; intros H; simpl; [reflexivity|].
  simpl in H.
  rewrite IHl, IHr, (H k); auto; try intros k' Hk'; try apply H;
    rewrite in_app_iff; simpl; auto.
Qed.

(** Where no node is marked, nothing is excused. *)
Lemma cb_unmarked (x : node K D) : cb x -> marked x = false -> ok x.
Proof.
  induction x as [|k c d l IHl r IHr]; simpl; [auto|].
  intros (Hd & Hl & Hr) Hm.
  apply orb_false_iff in Hm. destruct Hm as [Hm Hmr].
  apply orb_false_iff in Hm. destruct Hm as [Hk Hml].
  rewrite Hk, Hml, Hmr in Hd. simpl in Hd.
  destruct Hd as [Hd|Hd]; [|discriminate]. auto.
Qed.

Lemma cb_unplug path : forall x : node K D,
  cb (plug x path) -> cb x /\ ctx_cb path.
Proof.
  induction path as [|f up IH]; intros x H; cbn [plug] in H.
  - split; [exact H | exact I].
  - destruct (IH _ H) as [Hf Hup]. simpl.
    destruct f; simpl in Hf; tauto.
Qed.

End Marked.

End Upkeep.

Section Siblings.

Context {K D : Type}.

Lemma sibling_in (path : list (frame K D)) f k :
  In f path -> In k (elements (sibling f)) ->
  In k (Shape.before path ++ Shape.after path).
Proof.
  induction path as [|g up IH]; intros H Hk; [contradiction|].
  destruct H as [->|H].
  - destruct f; simpl in *; repeat (rewrite in_app_iff; simpl); auto.
  - specialize (IH H Hk). apply in_app_or in IH.
    destruct g; simpl; repeat (rewrite in_app_iff; simpl); tauto.
Qed.

End Siblings.

Section Distinct.

Context {A B : Type}.

Lemma NoDup_map_other (f : A -> B) l1 k l2 k' :
  NoDup (map f (l1 ++ k :: l2)) -> In k' (l1 ++ l2) -> f k' <> f k.
Proof.
  rewrite map_app. simpl. intros N H E.
  apply NoDup_remove_2 in N. apply N. rewrite <- map_app, <- E.
  now apply in_map.
Qed.

Lemma NoDup_map_remove (f : A -> B) l1 k l2 :
  NoDup (map f (l1 ++ k :: l2)) -> NoDup (map f (l1 ++ l2)).
Proof.
  rewrite !map_app. simpl. apply NoDup_remove_1.
Qed.

End Distinct.


(* ------------------------------------------------------------------ *)
(** * Proofs: the order-statistic tree *)

Section OSTSizes.
Import OST OSTProps.

Lemma getSize_length (t : OSTNode) :
  sizes_ok t -> getSize t = Z.of_nat (length (elements t)).
Proof.
  induction t as [|k c s l IHl r IHr]; simpl; [reflexivity|].
  intros (-> & Hl & Hr). rewrite IHl, IHr by assumption.
  rewrite length_app. simpl. lia.
Qed.

Lemma sizes_plug path : forall x,
  sizes_ok (plug x path) <-> sizes_ok x /\ ctx_sizes (getSize x) path.
Proof.
  induction path as [|[k c s r|k c s l] up IH]; intros x; cbn [plug].
  - simpl. tauto.
  - rewrite IH. simpl. intuition.
  - rewrite IH. simpl. intuition.
Qed.

Lemma sizes_paint c (x y : OSTNode) :
  paint c x = Ok y -> getSize y = getSize x /\ (sizes_ok x -> sizes_ok y).
Proof. destruct x, c; simpl; intros; inv_ok; simpl; auto. Qed.

Lemma sizes_insertFixup_loop path : forall z t up,
  RB.insertFixup_loop recompute promote z path = Ok (t, up) ->
  sizes_ok z -> ctx_sizes (getSize z) path ->
  sizes_ok t /\ ctx_sizes (getSize t) up.
Proof.
  induction path as [| p | p g rest IH] using list_ind2;
    intros z t up H Hz Hp.
  - simpl in H. inv_ok. auto.
  - simpl in H. destruct (fcolor p); inv_ok. auto.
  - cbn [RB.insertFixup_loop] in H.
    destruct (fcolor p) eqn:Ep; [|inv_ok; auto].
    destruct g as [kg cg dg y|kg cg dg y];
      destruct (colorOf y) eqn:Ey.
    + destruct y; [discriminate|]. cbn [paint bind] in H.
      apply IH in H; [exact H| |];
        destruct p; cbn in *; intuition lia.
    + unfold recompute, promote in H. crunch H; cbn in *;
        intuition (try lia).
    + destruct y; [discriminate|]. cbn [paint bind] in H.
      apply IH in H; [exact H| |];
        destruct p; cbn in *; intuition lia.
    + unfold recompute, promote in H. crunch H; cbn in *;
        intuition (try lia).
Qed.

Lemma sizes_insertFixup z path t :
  insertFixup z path = Ok t ->
  sizes_ok z -> ctx_sizes (getSize z) path -> sizes_ok t.
Proof.
  unfold insertFixup, RB.insertFixup. intros H Hz Hp.
  apply bind_Ok in H. destruct H as [[t1 up] [H1 H]].
  apply sizes_paint in H. apply H.
  apply sizes_plug. eapply sizes_insertFixup_loop; eauto.
Qed.

Lemma sizes_deleteFixup_left x kp cp dp w rest x' path' :
  RB.deleteFixup_left recompute promote x kp cp dp w rest
  = Ok (x', path') ->
  sizes_ok x -> ctx_sizes (getSize x) (LeftOf kp cp dp w :: rest) ->
  sizes_ok x' /\ ctx_sizes (getSize x') path'.
Proof.
  unfold RB.deleteFixup_left, recompute, promote. intros H Hx Hp.
  crunch H; cbn in *; intuition (try lia).
  all: apply sizes_plug; cbn in *; intuition (try lia).
Qed.

Lemma sizes_deleteFixup_right x kp cp dp w rest x' path' :
  RB.deleteFixup_right recompute promote x kp cp dp w rest
  = Ok (x', path') ->
  sizes_ok x -> ctx_sizes (getSize x) (RightOf kp cp dp w :: rest) ->
  sizes_ok x' /\ ctx_sizes (getSize x') path'.
Proof.
  unfold RB.deleteFixup_right, recompute, promote. intros H Hx Hp.
  crunch H; cbn in *; intuition (try lia).
  all: apply sizes_plug; cbn in *; intuition (try lia).
Qed.

Lemma sizes_deleteFixup_loop fuel : forall x path x' path',
  RB.deleteFixup_loop recompute promote fuel x path = Ok (x', path') ->
  sizes_ok x -> ctx_sizes (getSize x) path ->
  sizes_ok x' /\ ctx_sizes (getSize x') path'.
Proof.
  induction fuel as [|fuel IH]; intros x path x' path' H Hx Hp;
    [discriminate|].
  cbn [RB.deleteFixup_loop] in H.
  destruct path as [|f rest]; [inv_ok; auto|].
  destruct (colorOf x); [inv_ok; auto|].
  apply bind_Ok in H. destruct H as [[x1 path1] [H1 H]].
  destruct f.
  - apply sizes_deleteFixup_left in H1; auto.
    destruct H1. eapply IH; eauto.
  - apply sizes_deleteFixup_right in H1; auto.
    destruct H1. eapply IH; eauto.
Qed.

Lemma sizes_deleteFixup x path t :
  deleteFixup x path = Ok t ->
  sizes_ok x -> ctx_sizes (getSize x) path -> sizes_ok t.
Proof.
  unfold deleteFixup, RB.deleteFixup. intros H Hx Hp.
  apply bind_Ok in H. destruct H as [[x1 path1] [H1 H]].
  apply bind_Ok in H. destruct H as [x2 [H2 H]]. inv_ok.
  apply sizes_deleteFixup_loop in H1; auto. destruct H1 as [H1 H1'].
  apply sizes_paint in H2. destruct H2 as [E H2].
  apply sizes_plug. rewrite E. auto.
Qed.

End OSTSizes.

Section OSTInsert.
Import OST OSTProps.

Lemma insert_walk_descent key (x : OSTNode) : forall path,
  Shape.descent x path nil (insert_walk key x path).
Proof.
  induction x as [|k c s l IHl r IHr]; intros path; simpl.
  - constructor.
  - destruct (key <? k).
    + eapply Shape.descent_left. apply IHl.
    + eapply Shape.descent_right. apply IHr.
Qed.

Lemma insert_walk_sizes key (x : OSTNode) : forall path,
  sizes_ok x -> ctx_sizes (getSize x + 1) path ->
  ctx_sizes 1 (insert_walk key x path).
Proof.
  induction x as [|k c s l IHl r IHr]; intros path Hx Hp; simpl in *.
  - exact Hp.
  - destruct Hx as (-> & Hl & Hr).
    destruct (key <? k); [apply IHl | apply IHr]; auto;
      simpl; repeat split; auto; lia.
Qed.

Lemma insert_walk_order key (x : OSTNode) : forall path,
  StronglySorted Z.le (elements x) ->
  Forall (fun a => a <= key) (Shape.before path) ->
  Forall (fun b => key < b) (Shape.after path) ->
  Forall (fun a => a <= key) (Shape.before (insert_walk key x path))
  /\ Forall (fun b => key < b) (Shape.after (insert_walk key x path)).
Proof.
  induction x as [|k c s l IHl r IHr]; intros path Hx Hb Ha; simpl in *.
  - auto.
  - apply sorted_app in Hx. destruct Hx as (Hl & Hr & Hlr).
    apply sorted_cons_iff in Hr. destruct Hr as [Hr Hkr].
    destruct (Z.ltb_spec key k).
    + apply IHl; auto. simpl. constructor; [assumption|].
      apply Forall_app. split; [|assumption].
      rewrite Forall_forall in *. intros b Hb'. specialize (Hkr b Hb'). lia.
    + apply IHr; auto. simpl. rewrite !Forall_app. repeat split; auto.
      rewrite Forall_forall. intros a Ha'.
      specialize (Hlr a k Ha' (or_introl eq_refl)). lia.
Qed.

(** [insert] on a sound tree succeeds, keeps it sound, and adds the
    key to its contents. *)
Lemma insert_spec key (t : OrderStatisticTree) :
  invariant t ->
  exists t', insert key t = Ok t' /\ invariant t'
             /\ Permutation (key :: elements t) (elements t').
Proof.
  intros (Hc & [h Hh] & Hs & Ho).
  pose proof (insert_walk_descent key t []) as Hd.
  pose proof (descent_fits _ _ _ _ Hd (fits_root t h Hc Hh)) as Hf.
  destruct Hf as (h0 & Hn & Hp & _). simpl in Hn. subst h0.
  destruct (insertFixup_rbt recompute promote
              (insert_walk key t []) (Node key RED 1 nil nil) 0%nat)
    as (t' & h' & E & Hr & Hb); [simpl; auto | reflexivity | exact Hp |].
  exists t'. unfold insert, insertFixup. split; [exact E|].
  apply descent_elements in Hd. destruct Hd as (l1 & l2 & El & Eb & Ea).
  simpl in El, Eb, Ea. rewrite app_nil_r in Ea.
  destruct (insert_walk_order key t [] Ho) as [Ob Oa];
    [constructor | constructor |].
  rewrite Eb in Ob. rewrite Ea in Oa.
  assert (Et : elements t' = l1 ++ key :: l2).
  { rewrite (elements_insertFixup _ _ _ _ _ E), elements_plug.
    now rewrite Eb, Ea. }
  split; [|rewrite Et, El; apply Permutation_middle].
  split; [exact Hb|]. split; [eauto|]. split.
  - eapply sizes_insertFixup; [exact E | simpl; auto |].
    apply insert_walk_sizes; simpl; auto.
  - rewrite Et. apply sorted_insert; auto. now rewrite <- El.
Qed.

End OSTInsert.

Section OSTRemove.
Import OST OSTProps.

Lemma search_descent key (x : OSTNode) : forall path z zpath,
  search x path key = (z, zpath) -> Shape.descent x path z zpath.
Proof.
  induction x as [|k c s l IHl r IHr]; intros path z zpath H; simpl in H.
  - inv_ok. constructor.
  - destruct (key =? k); [inv_ok; constructor|].
    destruct (key <? k).
    + eapply Shape.descent_left. apply IHl. exact H.
    + eapply Shape.descent_right. apply IHr. exact H.
Qed.

Lemma search_plug key (x : OSTNode) : forall path z zpath,
  search x path key = (z, zpath) -> plug z zpath = plug x path.
Proof.
  induction x as [|k c s l IHl r IHr]; intros path z zpath H; simpl in H.
  - inv_ok. reflexivity.
  - destruct (key =? k); [inv_ok; reflexivity|].
    destruct (key <? k); [apply IHl in H | apply IHr in H]; exact H.
Qed.

(** The node [search] returns holds the key. *)
Lemma search_key key (x : OSTNode) : forall path k c s l r zpath,
  search x path key = (Node k c s l r, zpath) -> k = key.
Proof.
  induction x as [|k0 c0 s0 l0 IHl r0 IHr]; intros path k c s l r zpath H;
    simpl in H.
  - inv_ok.
  - destruct (Z.eqb_spec key k0); [inv_ok; reflexivity|].
    destruct (key <? k0); [eapply IHl | eapply IHr]; eauto.
Qed.

(** In a sorted tree [search] finds every key that is there. *)
Lemma search_complete key (x : OSTNode) : forall path zpath,
  StronglySorted Z.le (elements x) ->
  In key (elements x) ->
  search x path key <> (nil, zpath).
Proof.
  induction x as [|k c s l IHl r IHr]; intros path zpath Hs Hi;
    simpl in *; [contradiction|].
  destruct (Z.eqb_spec key k); [discriminate|].
  apply sorted_app in Hs. destruct Hs as (Hl & Hr & Hlr).
  apply sorted_cons_iff in Hr. destruct Hr as [Hr Hkr].
  rewrite Forall_forall in Hkr.
  apply in_app_or in Hi. simpl in Hi.
  destruct (Z.ltb_spec key k).
  - apply IHl; auto. destruct Hi as [Hi|[Hi|Hi]]; auto; [congruence|].
    specialize (Hkr _ Hi). lia.
  - apply IHr; auto. destruct Hi as [Hi|[Hi|Hi]]; auto; [|congruence].
    specialize (Hlr key k Hi (or_introl eq_refl)). lia.
Qed.

Lemma search_absent key (x : OSTNode) path :
  ~ In key (elements x) -> fst (search x path key) = nil.
Proof.
  intros N. destruct (search x path key) as [[|k c s l r] zpath] eqn:E;
    [reflexivity|].
  exfalso. apply N.
  pose proof (search_key _ _ _ _ _ _ _ _ _ E). subst k.
  apply search_descent, descent_elements in E.
  destruct E as (l1 & l2 & -> & _). simpl.
  apply in_or_app. right. apply in_or_app. left.
  apply in_or_app. right. now left.
Qed.

Lemma decrement_same_frame (p : list (frame Z Z)) :
  Forall2 Shape.same_frame p (map decrement p).
Proof.
  induction p as [|[k c s r|k c s l] p IH]; constructor; simpl; auto.
Qed.

Lemma decrement_sizes (p : list (frame Z Z)) : forall s,
  ctx_sizes s p -> ctx_sizes (s - 1) (map decrement p).
Proof.
  induction p as [|[k c d r|k c d l] p IH]; intros s H; simpl in *; auto;
    destruct H as (-> & H1 & H2); repeat split; auto; lia.
Qed.

Lemma ctx_sizes_app (p q : list (frame Z Z)) : forall x,
  ctx_sizes (getSize x) (p ++ q) <->
  ctx_sizes (getSize x) p /\ ctx_sizes (getSize (plug x p)) q.
Proof.
  induction p as [|[k c d r|k c d l] p IH]; intros x; cbn [app plug].
  - simpl. tauto.
  - cbn [ctx_sizes]. rewrite (IH (Node k c d x r)). simpl. tauto.
  - cbn [ctx_sizes]. rewrite (IH (Node k c d l x)). simpl. tauto.
Qed.

Lemma decrement_plug (p : list (frame Z Z)) : forall x y,
  getSize x = getSize y - 1 ->
  getSize (plug x (map decrement p)) = getSize (plug y p) - 1.
Proof.
  induction p as [|[k c d r|k c d l] p IH]; intros x y E; cbn; auto.
Qed.

Lemma minimum_plug {K D : Type} (x : node K D) : forall path y ypath,
  minimum x path = (y, ypath) -> plug y ypath = plug x path.
Proof.
  induction x as [|k c d l IHl r _]; intros path y ypath H; simpl in H.
  - inv_ok. reflexivity.
  - destruct l; [inv_ok; reflexivity|]. apply IHl in H. exact H.
Qed.

Lemma sizes_remove_finish c (x : OSTNode) path t :
  remove_finish c x path = Ok t ->
  sizes_ok x -> ctx_sizes (getSize x) path -> sizes_ok t.
Proof.
  destruct c; simpl; intros H Hx Hp.
  - inv_ok. apply sizes_plug. auto.
  - eapply sizes_deleteFixup; eauto.
Qed.

(** The end of [remove], from the pointer the splice leaves. *)
Lemma remove_finish_spec c (x : OSTNode) path :
  Shape.spliced c x path ->
  sizes_ok x -> ctx_sizes (getSize x) path ->
  StronglySorted Z.le (elements (plug x path)) ->
  exists t, remove_finish c x path = Ok t /\ invariant t
            /\ elements t = elements (plug x path).
Proof.
  intros Hs Hx Hp Ho.
  destruct (remove_finish_rbt recompute promote c x path Hs)
    as (t & h & E & Hr & Hb & He).
  assert (E' : remove_finish c x path = Ok t) by (destruct c; exact E).
  exists t. split; [exact E'|]. split; [|exact He].
  split; [exact Hb|]. split; [eauto|]. split.
  - eapply sizes_remove_finish; eauto.
  - now rewrite He.
Qed.

Lemma map_decrement_match (p : list (frame Z Z)) :
  match p with [] => [] | _ :: _ => map decrement p end = map decrement p.
Proof. now destruct p. Qed.

(** [remove] on a sound tree succeeds, keeps it sound, and strikes one
    copy of the key from its contents, if there is one. *)
Lemma remove_spec key (t : OrderStatisticTree) :
  invariant t ->
  exists t', remove key t = Ok t' /\ invariant t'
             /\ Permutation (elements t') (remove_one key (elements t)).
Proof.
  intros Inv. pose proof Inv as (Hc & [h Hh] & Hs & Ho).
  unfold remove.
  destruct (search t [] key) as [z zpath] eqn:Es.
  destruct z as [|kz cz sz zl zr].
  - exists t. split; [reflexivity|]. split; [exact Inv|].
    rewrite remove_one_absent; [reflexivity|].
    intros I. eapply search_complete; eauto.
  - pose proof (search_key _ _ _ _ _ _ _ _ _ Es). subst kz.
    pose proof (search_plug _ _ _ _ _ Es) as Ep. cbn [plug] in Ep.
    pose proof (search_descent _ _ _ _ _ Es) as Hd.
    pose proof (descent_fits _ _ _ _ Hd (fits_root t h Hc Hh)) as Hf.
    apply descent_elements in Hd.
    destruct Hd as (l1 & l2 & El & Eb & Ea).
    simpl in El, Eb, Ea. rewrite app_nil_r in Ea. subst l1 l2.
    rewrite <- Ep in Hs. apply sizes_plug in Hs.
    destruct Hs as [(Esz & Hzl & Hzr) Hps]. cbn [getSize] in Hps.
    apply decrement_sizes in Hps.
    pose proof (decrement_same_frame zpath) as Hsf.
    assert (Target : forall t',
               invariant t' ->
               elements t' = Shape.before zpath ++ elements zl
                             ++ elements zr ++ Shape.after zpath ->
               invariant t'
               /\ Permutation (elements t')
                    (remove_one key (elements t))).
    { intros t' I' E'. split; [exact I'|]. rewrite E', El.
      symmetry. rewrite <- !app_assoc. rewrite (app_assoc _ (elements zl)).
      simpl. rewrite remove_one_middle. now rewrite <- app_assoc. }
    assert (Sorted' : StronglySorted Z.le
               (Shape.before zpath ++ elements zl
                ++ elements zr ++ Shape.after zpath)).
    { rewrite El in Ho. rewrite <- !app_assoc in Ho.
      rewrite (app_assoc _ (elements zl)) in Ho. simpl in Ho.
      apply sorted_delete in Ho. now rewrite <- app_assoc in Ho. }
    destruct (splice_child _ _ _ _ _ _ Hf) as [Sl Sr].
    destruct zl as [|lk lc ls ll lr].
    { (* x = z->right *)
      destruct (remove_finish_spec cz zr (map decrement zpath))
        as (t' & E & I' & Et); auto.
      - eapply same_frame_spliced; eauto.
      - simpl in Esz. replace (getSize zr) with (sz - 1) by lia. exact Hps.
      - rewrite elements_plug, <- (same_frame_before _ _ Hsf),
          <- (same_frame_after _ _ Hsf). exact Sorted'.
      - exists t'. split; [exact E|]. apply Target; auto.
        rewrite Et, elements_plug, <- (same_frame_before _ _ Hsf),
          <- (same_frame_after _ _ Hsf). reflexivity. }
    destruct zr as [|rk rc rs rl rr].
    { (* x = z->left *)
      destruct (remove_finish_spec cz (Node lk lc ls ll lr)
                  (map decrement zpath))
        as (t' & E & I' & Et); auto.
      - eapply same_frame_spliced; eauto.
      - simpl in Esz. cbn [getSize].
        replace ls with (sz - 1) by lia. exact Hps.
      - rewrite elements_plug, <- (same_frame_before _ _ Hsf),
          <- (same_frame_after _ _ Hsf).
        simpl in Sorted'. simpl. exact Sorted'.
      - exists t'. split; [exact E|]. apply Target; auto.
        rewrite Et, elements_plug, <- (same_frame_before _ _ Hsf),
          <- (same_frame_after _ _ Hsf). reflexivity. }
    (* two children: y = minimum(z->right) *)
    set (zl := Node lk lc ls ll lr) in *.
    set (zr := Node rk rc rs rl rr) in *.
    destruct (minimum zr []) as [y ypath] eqn:Em.
    destruct (minimum_leftmost _ _ _ _ Em) as [(ky & cy & sy & x & ->) _];
      [discriminate|].
    rewrite map_decrement_match.
    pose proof (minimum_plug _ _ _ _ Em) as Epy. cbn [plug] in Epy.
    rewrite <- Epy in Hzr. apply sizes_plug in Hzr.
    destruct Hzr as [(Esy & _ & Hx) Hpy]. cbn [getSize] in Hpy, Esy.
    apply decrement_sizes in Hpy.
    set (ysize := getSize zl + getSize (plug x (map decrement ypath)) + 1).
    assert (Eys : ysize = sz - 1).
    { unfold ysize.
      rewrite (decrement_plug ypath x (Node ky cy sy nil x))
        by (cbn [getSize]; lia).
      rewrite Epy. lia. }
    assert (Hsf' : Forall2 Shape.same_frame
              (ypath ++ RightOf ky cz ysize zl :: zpath)
              (map decrement ypath
               ++ RightOf ky cz ysize zl :: map decrement zpath)).
    { apply same_frame_app; [apply decrement_same_frame|].
      constructor; [simpl; auto | exact Hsf]. }
    destruct (remove_finish_spec cy x
                (map decrement ypath
                 ++ RightOf ky cz ysize zl :: map decrement zpath))
      as (t' & E & I' & Et); auto.
    + eapply same_frame_spliced; [exact Hsf'|].
      eapply splice_successor; eauto.
    + apply ctx_sizes_app. split.
      * replace (getSize x) with (sy - 1) by lia. exact Hpy.
      * cbn [ctx_sizes]. split; [unfold ysize; lia|].
        split; [exact Hzl|]. rewrite Eys. exact Hps.
    + rewrite elements_plug, <- (same_frame_before _ _ Hsf'),
        <- (same_frame_after _ _ Hsf'), <- elements_plug.
      rewrite (splice_successor_elements _ _ _ _ _ _ _ _ _ _ _ Em)
        by discriminate.
      exact Sorted'.
    + exists t'. split; [exact E|]. apply Target; auto.
      rewrite Et, elements_plug, <- (same_frame_before _ _ Hsf'),
        <- (same_frame_after _ _ Hsf'), <- elements_plug.
      apply (splice_successor_elements _ _ _ _ _ _ _ _ _ _ _ Em).
      discriminate.
Qed.

End OSTRemove.

Section OSTRun.
Import OST OSTProps.

Lemma empty_invariant : invariant empty_tree.
Proof.
  split; [reflexivity|]. split; [exists 0%nat; reflexivity|].
  split; [exact I | constructor].
Qed.

Lemma apply_spec o (t : OrderStatisticTree) l :
  invariant t -> Permutation (elements t) l ->
  exists t', apply o t = Ok t' /\ invariant t'
             /\ Permutation (elements t') (record l o).
Proof.
  intros I P. destruct o as [key|key]; simpl.
  - destruct (insert_spec key t I) as (t' & E & I' & P').
    exists t'. split; [exact E|]. split; [exact I'|].
    rewrite <- P'. now constructor.
  - destruct (remove_spec key t I) as (t' & E & I' & P').
    exists t'. split; [exact E|]. split; [exact I'|].
    rewrite P'. now apply remove_one_perm.
Qed.

Lemma run_spec ops : forall (t : OrderStatisticTree) l,
  invariant t -> Permutation (elements t) l ->
  exists t', run ops t = Ok t' /\ invariant t'
             /\ Permutation (elements t') (fold_left record ops l).
Proof.
  induction ops as [|o ops IH]; intros t l I P; simpl.
  - exists t. auto.
  - destruct (apply_spec o t l I P) as (t1 & E1 & I1 & P1).
    rewrite E1. simpl. apply IH; auto.
Qed.

(** Every sequence of calls runs to the end, on sound trees. *)
Lemma run_invariant ops :
  exists t, run ops empty_tree = Ok t /\ invariant t
            /\ Permutation (elements t) (live ops).
Proof. apply run_spec; [apply empty_invariant | reflexivity]. Qed.

End OSTRun.

Section OSTQueries.
Import OST OSTProps.

Lemma getSize_nonneg (t : OSTNode) : sizes_ok t -> 0 <= getSize t.
Proof. intros H. rewrite getSize_length by assumption. lia. Qed.

(** [selectNode] walks to the [k]-th key in order. *)
Lemma selectNode_nth (t : OSTNode) : forall k,
  sizes_ok t -> 1 <= k <= getSize t ->
  exists key c s l r,
    selectNode t k = Node key c s l r
    /\ nth_error (elements t) (Z.to_nat (k - 1)) = Some key.
Proof.
  induction t as [|key c s l IHl r IHr]; intros k Hs Hk; simpl in *;
    [lia|].
  destruct Hs as (-> & Hl & Hr).
  pose proof (getSize_nonneg l Hl). pose proof (getSize_nonneg r Hr).
  pose proof (getSize_length l Hl) as El.
  destruct (Z.eqb_spec k (getSize l + 1)) as [->|Hne].
  - exists key, c, (1 + getSize l + getSize r), l, r.
    split; [reflexivity|].
    rewrite nth_error_app2 by lia.
    replace (Z.to_nat (getSize l + 1 - 1) - length (elements l))%nat
      with 0%nat by lia.
    reflexivity.
  - destruct (Z.ltb_spec k (getSize l + 1)).
    + destruct (IHl k Hl) as (key' & c' & s' & l' & r' & E & N); [lia|].
      exists key', c', s', l', r'. split; [exact E|].
      rewrite nth_error_app1 by lia. exact N.
    + destruct (IHr (k - (getSize l + 1)) Hr)
        as (key' & c' & s' & l' & r' & E & N); [lia|].
      exists key', c', s', l', r'. split; [exact E|].
      rewrite nth_error_app2 by lia.
      replace (Z.to_nat (k - 1) - length (elements l))%nat
        with (S (Z.to_nat (k - (getSize l + 1) - 1))) by lia.
      exact N.
Qed.

Lemma selectNode_out (t : OSTNode) : forall k,
  sizes_ok t -> k < 1 \/ getSize t < k -> selectNode t k = nil.
Proof.
  induction t as [|key c s l IHl r IHr]; intros k Hs Hk; simpl in *;
    [reflexivity|].
  destruct Hs as (-> & Hl & Hr).
  pose proof (getSize_nonneg l Hl). pose proof (getSize_nonneg r Hr).
  destruct (Z.eqb_spec k (getSize l + 1)); [lia|].
  destruct (Z.ltb_spec k (getSize l + 1));
    [apply IHl | apply IHr]; auto; lia.
Qed.

(** The upward loop of [rank] adds what lies to the left of the
    pointer. *)
Lemma rank_walk_before (path : list (frame Z Z)) : forall s r,
  ctx_sizes s path ->
  rank_walk r path = r + Z.of_nat (length (Shape.before path)).
Proof.
  induction path as [|[k c d rt|k c d l] up IH]; intros s r H; simpl in *.
  - lia.
  - destruct H as (_ & _ & H). eapply IH; eauto.
  - destruct H as (_ & Hl & H). rewrite (IH _ _ H).
    rewrite !length_app. simpl. rewrite (getSize_length l Hl). lia.
Qed.

(** [rank] of a key of the tree is the position of one of its copies. *)
Lemma rank_spec key (t : OrderStatisticTree) :
  invariant t -> In key (elements t) ->
  exists i, rank key t = Z.of_nat i + 1
            /\ nth_error (elements t) i = Some key.
Proof.
  intros (Hc & [h Hh] & Hs & Ho) Hi. unfold rank.
  destruct (search t [] key) as [z zpath] eqn:Es.
  destruct z as [|kz cz sz zl zr];
    [exfalso; eapply search_complete; eauto|].
  pose proof (search_key _ _ _ _ _ _ _ _ _ Es). subst kz.
  pose proof (search_plug _ _ _ _ _ Es) as Ep. cbn [plug] in Ep.
  apply search_descent, descent_elements in Es.
  destruct Es as (l1 & l2 & El & Eb & Ea). simpl in El, Eb, Ea. subst l1.
  rewrite <- Ep in Hs. apply sizes_plug in Hs.
  destruct Hs as [(_ & Hzl & _) Hps].
  exists (length (Shape.before zpath ++ elements zl)). split.
  - rewrite (rank_walk_before _ _ _ Hps), length_app,
      (getSize_length zl Hzl). lia.
  - rewrite El. simpl. rewrite <- !app_assoc.
    rewrite (app_assoc _ (elements zl)).
    rewrite nth_error_app2 by lia. rewrite Nat.sub_diag. reflexivity.
Qed.

Lemma rank_absent key (t : OrderStatisticTree) :
  ~ In key (elements t) -> rank key t = -1.
Proof.
  intros N. unfold rank. pose proof (search_absent key t [] N) as E.
  destruct (search t [] key) as [z zpath]. simpl in E. now subst z.
Qed.

Lemma select_spec k (t : OrderStatisticTree) :
  invariant t ->
  (1 <= k <= size t ->
   exists key, select k t = (Ok key, t)
               /\ nth_error (elements t) (Z.to_nat (k - 1)) = Some key)
  /\ (k < 1 \/ size t < k -> select k t = (OutOfRange, t)).
Proof.
  intros (_ & _ & Hs & _). unfold select, size. split; intros Hk.
  - destruct (selectNode_nth t k Hs Hk) as (key & c & s & l & r & E & N).
    exists key. rewrite E. auto.
  - now rewrite (selectNode_out t k Hs Hk).
Qed.

End OSTQueries.


(* ------------------------------------------------------------------ *)
(** * Proofs: the interval tree *)

Section Erase.

Context {K D : Type}.

Lemma erase_elements (t : node K D) :
  elements (Shape.erase t) = elements t.
Proof. induction t; simpl; congruence. Qed.

Lemma erase_color (t : node K D) : colorOf (Shape.erase t) = colorOf t.
Proof. now destruct t. Qed.

Lemma erase_rbt (t : node K D) : forall h,
  Shape.rbt h (Shape.erase t) <-> Shape.rbt h t.
Proof.
  induction t as [|k c d l IHl r IHr]; intros h; simpl; [tauto|].
  destruct c.
  - rewrite !erase_color, IHl, IHr. tauto.
  - destruct h; [tauto|]. rewrite IHl, IHr. tauto.
Qed.

Lemma erase_plug_congr (x y : node K D) path :
  Shape.erase x = Shape.erase y ->
  Shape.erase (plug x path) = Shape.erase (plug y path).
Proof.
  revert x y. induction path as [|[k c d r|k c d l] up IH]; intros x y E;
    cbn [plug fill]; auto; apply IH; simpl; congruence.
Qed.

End Erase.

Section POMShape.
Import POM POMProps.

Lemma erase_update (x : POMNode) :
  Shape.erase (updateAugmentedData x) = Shape.erase x.
Proof. now destruct x. Qed.

Lemma erase_updateAncestors path : forall x,
  Shape.erase (updateAncestors x path) = Shape.erase (plug x path).
Proof.
  induction path as [|f up IH]; intros x; cbn [updateAncestors plug].
  - apply erase_update.
  - rewrite IH. apply erase_plug_congr.
    destruct f; simpl; now rewrite erase_update.
Qed.

Lemma locate_plug a (x : POMNode) : forall path z zpath,
  locate a x path = Some (z, zpath) -> plug z zpath = plug x path.
Proof.
  induction x as [|k c d l IHl r IHr]; intros path z zpath H; simpl in H;
    [discriminate|].
  destruct (Nat.eqb (addr k) a); [now inversion H|].
  destruct (locate a l _) as [[z1 p1]|] eqn:El.
  - inversion H; subst. apply (IHl _ _ _ El).
  - apply (IHr _ _ _ H).
Qed.

Lemma locate_found a (x : POMNode) : forall path,
  (exists k, In k (elements x) /\ addr k = a) ->
  exists z zpath, locate a x path = Some (z, zpath).
Proof.
  induction x as [|k c d l IHl r IHr]; intros path (k0 & Hi & Ha);
    simpl in *; [contradiction|].
  destruct (Nat.eqb_spec (addr k) a); [eauto|].
  destruct (locate a l _) as [[z1 p1]|] eqn:El; [eauto|].
  apply IHr. apply in_app_or in Hi. destruct Hi as [Hi|[Hi|Hi]].
  - destruct (IHl (LeftOf k c d r :: path)) as (z & zp & E); [eauto|].
    congruence.
  - subst k0. contradiction.
  - eauto.
Qed.

(** [updateAncestors] from a node of the tree rewrites augmented
    fields only. *)
Lemma updateAncestors_at_shape p (t : POMNode) :
  p = O \/ (exists k, In k (elements t) /\ addr k = p) ->
  exists t', updateAncestors_at p t = Ok t'
             /\ Shape.erase t' = Shape.erase t.
Proof.
  intros H. unfold updateAncestors_at. destruct p as [|p]; [eauto|].
  destruct H as [H|H]; [discriminate|].
  destruct (locate_found (S p) t [] H) as (z & zpath & E). rewrite E.
  eexists. split; [reflexivity|].
  rewrite erase_updateAncestors. now rewrite (locate_plug _ _ _ _ _ E).
Qed.

Lemma erase_invariant (r r' : POMNode) f f' :
  Shape.erase r' = Shape.erase r ->
  invariant {| root := r; fresh := f |} ->
  invariant {| root := r'; fresh := f' |}.
Proof.
  intros E (Hc & [h Hh] & Hs). unfold invariant. cbn [root] in *.
  rewrite <- (erase_color r'), <- (erase_elements r'), E,
    erase_color, erase_elements.
  split; [exact Hc|]. split; [|exact Hs].
  exists h. apply erase_rbt. rewrite E. now apply erase_rbt.
Qed.

End POMShape.

Section POMAug.
Import POM POMProps.

(** [updateAncestors] leaves every field right when the fields it does
    not touch are. *)
Lemma updateAncestors_consistent path : forall k c d (l r : POMNode),
  aug_ok l -> aug_ok r ->
  Forall (fun f => aug_ok (sibling f)) path ->
  aug_ok (updateAncestors (Node k c d l r) path).
Proof.
  unfold aug_ok.
  induction path as [|f up IH]; intros k c d l r Hl Hr Hp;
    cbn [updateAncestors updateAugmentedData].
  - simpl. auto.
  - inversion Hp as [|? ? Hf Hup]; subst.
    destruct f as [kf cf df s|kf cf df s]; cbn [fill sibling] in *;
      apply IH; simpl; auto.
Qed.

Lemma locate_addr a (x : POMNode) : forall path z zpath,
  locate a x path = Some (z, zpath) ->
  exists k c d l r, z = Node k c d l r /\ addr k = a.
Proof.
  induction x as [|k c d l IHl r IHr]; intros path z zpath H; simpl in H;
    [discriminate|].
  destruct (Nat.eqb (addr k) a) eqn:Ea.
  - inversion H; subst. apply Nat.eqb_eq in Ea. eauto 7.
  - destruct (locate a l _) as [[z1 p1]|] eqn:El.
    + inversion H; subst. apply (IHl _ _ _ El).
    + apply (IHr _ _ _ H).
Qed.

(** [updateAncestors(p)] after a fix-up that left every field right
    except on [p] and above: every field is right. *)
Lemma updateAncestors_at_consistent p (t t' : POMNode) :
  updateAncestors_at p t = Ok t' ->
  Aug.consistent_but augment (at_addr p) t ->
  NoDup (map addr (elements t)) ->
  Forall (fun k => (1 <= addr k)%nat) (elements t) ->
  aug_ok t'.
Proof.
  unfold updateAncestors_at, aug_ok. intros H Hcb Hn Hpos.
  destruct p as [|p].
  - inv_ok. apply (cb_unmarked _ _ _ Hcb). apply unmarked.
    intros k Hk. rewrite Forall_forall in Hpos. specialize (Hpos k Hk).
    unfold at_addr. apply Nat.eqb_neq. lia.
  - destruct (locate (S p) t []) as [[z zpath]|] eqn:E; [|discriminate].
    inv_ok.
    destruct (locate_addr _ _ _ _ _ E) as (k & c & d & l & r & -> & Ek).
    apply locate_plug in E. cbn [plug] in E. rewrite <- E in Hcb, Hn.
    apply cb_unplug in Hcb. destruct Hcb as [Hz Hp].
    rewrite elements_plug in Hn. simpl in Hn.
    rewrite <- app_assoc in Hn. simpl in Hn. rewrite app_assoc in Hn.
    assert (Other : forall k', In k' ((Shape.before zpath ++ elements l)
                                      ++ elements r ++ Shape.after zpath) ->
                               at_addr (S p) k' = false).
    { intros k' Hk'. unfold at_addr. apply Nat.eqb_neq. rewrite <- Ek.
      exact (NoDup_map_other addr _ _ _ _ Hn Hk'). }
    simpl in Hz. destruct Hz as (_ & Hl & Hr).
    apply updateAncestors_consistent.
    + apply (cb_unmarked _ _ _ Hl). apply unmarked. intros k' Hk'.
      apply Other. rewrite !in_app_iff. auto.
    + apply (cb_unmarked _ _ _ Hr). apply unmarked. intros k' Hk'.
      apply Other. rewrite !in_app_iff. auto.
    + apply Forall_forall. intros f Hf.
      assert (Hs : Aug.consistent_but augment (at_addr (S p)) (sibling f)).
      { clear - Hp Hf. induction zpath as [|g up IH]; [contradiction|].
        simpl in Hp. destruct Hf as [->|Hf]; tauto. }
      apply (cb_unmarked _ _ _ Hs). apply unmarked. intros k' Hk'.
      apply Other. pose proof (sibling_in _ _ _ Hf Hk') as Hin.
      rewrite !in_app_iff in *. tauto.
Qed.

End POMAug.

Section POMInsert.
Import POM POMProps.

Lemma frame_key_in {K D : Type} (path : list (frame K D)) f :
  In f path -> In (fkey f) (Shape.before path ++ Shape.after path).
Proof.
  induction path as [|g up IH]; intros H; [contradiction|].
  destruct H as [->|H].
  - destruct f; simpl; repeat (rewrite in_app_iff; simpl); auto.
  - specialize (IH H). apply in_app_or in IH.
    destruct g; simpl; repeat (rewrite in_app_iff; simpl); tauto.
Qed.

Lemma frame_key_plug {K D : Type} (x : node K D) path f :
  In f path -> In (fkey f) (elements (plug x path)).
Proof.
  intros H. apply frame_key_in in H. rewrite elements_plug.
  rewrite !in_app_iff in *. tauto.
Qed.

Lemma pom_insert_walk_descent iv (x : POMNode) : forall path,
  Shape.descent x path nil (insert_walk iv x path).
Proof.
  induction x as [|k c s l IHl r IHr]; intros path; simpl.
  - constructor.
  - destruct (lt iv (interval k)).
    + eapply Shape.descent_left. apply IHl.
    + eapply Shape.descent_right. apply IHr.
Qed.

Lemma pom_insert_walk_order iv (x : POMNode) : forall path,
  StronglySorted Z.le (map start_of (elements x)) ->
  Forall (fun a => a <= start iv) (map start_of (Shape.before path)) ->
  Forall (fun b => start iv < b) (map start_of (Shape.after path)) ->
  Forall (fun a => a <= start iv)
    (map start_of (Shape.before (insert_walk iv x path)))
  /\ Forall (fun b => start iv < b)
       (map start_of (Shape.after (insert_walk iv x path))).
Proof.
  induction x as [|k c s l IHl r IHr]; intros path Hx Hb Ha; simpl in *.
  - auto.
  - rewrite map_app in Hx. simpl in Hx.
    apply sorted_app in Hx. destruct Hx as (Hl & Hr & Hlr).
    apply sorted_cons_iff in Hr. destruct Hr as [Hr Hkr].
    unfold lt. fold (start_of k).
    destruct (Z.ltb_spec (start iv) (start_of k)).
    + apply IHl; auto. simpl. constructor; [assumption|].
      rewrite map_app. apply Forall_app. split; [|assumption].
      rewrite Forall_forall in *. intros b Hb'. specialize (Hkr b Hb'). lia.
    + apply IHr; auto. simpl. rewrite !map_app, !Forall_app.
      repeat split; auto.
      * rewrite Forall_forall. intros a Ha'.
        specialize (Hlr a (start_of k) Ha' (or_introl eq_refl)). lia.
      * simpl. constructor; [assumption | constructor].
Qed.

(** [insert] on a sound tree succeeds, keeps it sound, and adds the
    interval to its contents. *)
Lemma pom_insert_spec iv (t : POMTree) :
  invariant t ->
  exists t', insert iv t = Ok t' /\ invariant t'
             /\ Permutation (iv :: intervals t) (intervals t')
             /\ (aug_ok (root t) -> addrs_ok t ->
                 aug_ok (root t') /\ addrs_ok t')
             /\ (exists l1 l2,
                   elements (root t) = l1 ++ l2
                   /\ elements (root t')
                      = l1 ++ {| addr := fresh t; interval := iv |} :: l2
                   /\ Forall (fun a => a <= start iv) (map start_of l1)
                   /\ Forall (fun b => start iv < b) (map start_of l2)).
Proof.
  destruct t as [r f]. intros (Hc & [h Hh] & Ho). cbn [root] in *.
  unfold insert. cbn [root fresh].
  pose proof (pom_insert_walk_descent iv r []) as Hd.
  pose proof (descent_fits _ _ _ _ Hd (fits_root r h Hc Hh)) as Hf.
  destruct Hf as (h0 & Hn & Hp & _). simpl in Hn. subst h0.
  destruct (insertFixup_rbt augment promote
              (insert_walk iv r []) (new_node f iv) 0%nat)
    as (r1 & h' & E & Hr & Hb); [simpl; auto | reflexivity | exact Hp |].
  unfold insertFixup. rewrite E. cbn [bind].
  apply descent_elements in Hd. destruct Hd as (l1 & l2 & El & Eb & Ea).
  simpl in El, Eb, Ea. rewrite app_nil_r in Ea.
  destruct (pom_insert_walk_order iv r [] Ho) as [Ob Oa];
    [constructor | constructor |].
  rewrite Eb in Ob. rewrite Ea in Oa.
  assert (Et : elements r1
               = l1 ++ {| addr := f; interval := iv |} :: l2).
  { rewrite (elements_insertFixup _ _ _ _ _ E), elements_plug.
    now rewrite Eb, Ea. }
  destruct (updateAncestors_at_shape f r1) as (r2 & E2 & Er).
  { right. exists {| addr := f; interval := iv |}. split; [|reflexivity].
    rewrite Et. apply in_elt. }
  rewrite E2. cbn [bind]. eexists. split; [reflexivity|].
  split.
  - apply (erase_invariant r1 r2 f (S f) Er).
    split; [exact Hb|]. split; [eauto|]. cbn [root].
    rewrite Et, map_app. simpl. apply sorted_insert; auto.
    rewrite <- map_app, <- El. exact Ho.
  - assert (Et2 : elements r2
                  = l1 ++ {| addr := f; interval := iv |} :: l2).
    { now rewrite <- (erase_elements r2), Er, erase_elements. }
    split.
    { unfold intervals. cbn [root]. rewrite Et2, El.
      rewrite !map_app. simpl. apply Permutation_middle. }
    split; [|exists l1, l2; cbn [root fresh]; auto].
    intros Ha (Hf1 & Hn & Hlt). cbn [root fresh] in *.
    rewrite El in Hn, Hlt.
    assert (Hn1 : NoDup (map addr
                    (l1 ++ {| addr := f; interval := iv |} :: l2))).
    { rewrite map_app. simpl.
      apply (NoDup_Add (Add_app f (map addr l1) (map addr l2))).
      rewrite <- map_app. split; [exact Hn|].
      intros Hin. apply in_map_iff in Hin.
      destruct Hin as (k & Ek & Hk).
      rewrite Forall_forall in Hlt. specialize (Hlt k Hk). lia. }
    assert (Hlt1 : Forall (fun k => (1 <= addr k < S f)%nat)
                     (l1 ++ {| addr := f; interval := iv |} :: l2)).
    { apply Forall_app in Hlt. destruct Hlt as [H1 H2].
      apply Forall_app. split; [|constructor; [simpl; lia|]];
        eapply Forall_impl; try eassumption; simpl; intros; lia. }
    split.
    + apply (updateAncestors_at_consistent f r1 r2 E2).
      * unfold POM.promote in E.
        apply (stale_insertFixup augment (at_addr f) _ _ _ E).
        -- simpl. split; [|auto]. right. unfold at_addr. simpl.
           now rewrite Nat.eqb_refl.
        -- simpl. unfold at_addr. simpl. now rewrite Nat.eqb_refl.
        -- apply ctx_consistent_cb.
           apply (consistent_descent augment _ _ _ _
                    (pom_insert_walk_descent iv r []) Ha).
           constructor.
      * now rewrite Et.
      * rewrite Et. eapply Forall_impl; [|exact Hlt1].
        simpl. intros. lia.
    + split; [cbn [fresh]; lia|]. cbn [root fresh]. rewrite Et2. auto.
Qed.

End POMInsert.

Section POMRemove.
Import POM POMProps.

Lemma pom_search_descent iv (x : POMNode) : forall path z zpath,
  search x path iv = (z, zpath) -> Shape.descent x path z zpath.
Proof.
  induction x as [|k c s l IHl r IHr]; intros path z zpath H; simpl in H.
  - inv_ok. constructor.
  - destruct (_ && _); [inv_ok; constructor|].
    destruct (lt iv (interval k)).
    + eapply Shape.descent_left. apply IHl. exact H.
    + eapply Shape.descent_right. apply IHr. exact H.
Qed.

(** The node [search] returns has the [start] and [end] asked for. *)
Lemma pom_search_key iv (x : POMNode) : forall path k c s l r zpath,
  search x path iv = (Node k c s l r, zpath) -> matches iv k = true.
Proof.
  induction x as [|k0 c0 s0 l0 IHl r0 IHr]; intros path k c s l r zpath H;
    simpl in H.
  - inv_ok.
  - fold (matches iv k0) in H.
    destruct (matches iv k0) eqn:Em; [inv_ok; exact Em|].
    destruct (lt iv (interval k0)); [eapply IHl | eapply IHr]; eauto.
Qed.

Lemma pom_search_absent iv (x : POMNode) path :
  (forall k, In k (elements x) -> matches iv k = false) ->
  fst (search x path iv) = nil.
Proof.
  intros N. destruct (search x path iv) as [[|k c s l r] zpath] eqn:E;
    [reflexivity|].
  exfalso.
  pose proof (pom_search_key _ _ _ _ _ _ _ _ _ E) as Em.
  apply pom_search_descent, descent_elements in E.
  destruct E as (l1 & l2 & El & _). rewrite N in Em; [discriminate|].
  rewrite El. simpl.
  apply in_or_app. right. apply in_or_app. left.
  apply in_or_app. right. now left.
Qed.

(** The end of [remove], from the pointer the splice leaves. *)
Lemma pom_remove_finish_spec t c (x : POMNode) path updateStart :
  Shape.spliced c x path ->
  updateStart = O
  \/ (exists f, In f path /\ addr (fkey f) = updateStart) ->
  StronglySorted Z.le (map start_of (elements (plug x path))) ->
  exists t', remove_finish t c x path updateStart = Ok t'
             /\ invariant t'
             /\ elements (root t') = elements (plug x path)
             /\ fresh t' = fresh t
             /\ (updateStart = parent_addr path ->
                 aug_ok x ->
                 Forall (fun f => aug_ok (sibling f)) path ->
                 NoDup (map addr (elements (plug x path))) ->
                 Forall (fun k => (1 <= addr k)%nat)
                   (elements (plug x path)) ->
                 aug_ok (root t')).
Proof.
  intros Hs Hu Ho. unfold remove_finish.
  destruct (remove_finish_rbt augment promote c x path Hs)
    as (r1 & h & E & Hr & Hb & He).
  assert (E' : match c with
               | RED => Ok (plug x path)
               | BLACK => deleteFixup x path
               end = Ok r1) by (destruct c; exact E).
  rewrite E'. cbn [bind].
  destruct (updateAncestors_at_shape updateStart r1) as (r2 & E2 & Er).
  { destruct Hu as [Hu|(f & Hf & Hu)]; [now left|right].
    exists (fkey f). split; [|exact Hu].
    rewrite He. now apply frame_key_plug. }
  rewrite E2. cbn [bind]. eexists. split; [reflexivity|]. split.
  - apply (erase_invariant r1 r2 (fresh t) (fresh t) Er).
    split; [exact Hb|]. split; [eauto|]. cbn [root]. now rewrite He.
  - cbn [root fresh].
    split; [now rewrite <- (erase_elements r2), Er, erase_elements|].
    split; [reflexivity|].
    intros Eu Hx Hp Hn Hpos. rewrite <- He in Hn, Hpos.
    apply (updateAncestors_at_consistent updateStart r1 r2 E2);
      [|exact Hn|exact Hpos].
    destruct path as [|f up].
    + (* the node spliced out was the root *)
      apply consistent_cb. cbn [plug] in E.
      destruct c; [inv_ok; exact Hx|].
      apply deleteFixup_root in E.
      exact (consistent_paint augment _ _ _ E Hx).
    + assert (Hto : Aug.reaches (at_addr updateStart) x (f :: up)).
      { right. rewrite Eu. unfold at_addr. simpl. apply Nat.eqb_refl. }
      apply consistent_cb with (mark := at_addr updateStart) in Hx.
      apply ctx_consistent_cb with (mark := at_addr updateStart) in Hp.
      destruct c.
      * inv_ok.
        apply (stale_plug_reaches augment _ _ _ Hx Hto Hp).
        left. discriminate.
      * unfold POM.deleteFixup, POM.promote in E.
        apply (stale_deleteFixup augment _ _ _ _ E Hx Hp Hto).
        left. discriminate.
Qed.

(** [remove] on a sound tree succeeds and keeps it sound; it leaves
    the tree as it is, or takes out one interval with the [start] and
    [end] asked for. *)
Lemma pom_remove_spec iv (t : POMTree) :
  invariant t ->
  exists t', remove iv t = Ok t' /\ invariant t'
             /\ (t' = t /\ fst (search (root t) [] iv) = nil
                 \/ exists l1 k l2,
                      elements (root t) = l1 ++ k :: l2
                      /\ matches iv k = true
                      /\ elements (root t') = l1 ++ l2)
             /\ (aug_ok (root t) -> addrs_ok t ->
                 aug_ok (root t') /\ addrs_ok t').
Proof.
  intros Inv. pose proof Inv as (Hc & [h Hh] & Ho).
  unfold remove.
  destruct (search (root t) [] iv) as [z zpath] eqn:Es.
  destruct z as [|kz cz sz zl zr]; [exists t; auto 6|].
  pose proof (pom_search_key _ _ _ _ _ _ _ _ _ Es) as Em.
  pose proof (pom_search_descent _ _ _ _ _ Es) as Hd.
  pose proof (descent_fits _ _ _ _ Hd (fits_root _ h Hc Hh)) as Hf.
  pose proof (fun A => consistent_descent augment _ _ _ _ Hd A
                         (Forall_nil _)) as Hz.
  apply descent_elements in Hd.
  destruct Hd as (l1 & l2 & El & Eb & Ea).
  simpl in El, Eb, Ea. rewrite app_nil_r in Ea. subst l1 l2.
  set (rest := Shape.before zpath ++ elements zl
               ++ elements zr ++ Shape.after zpath).
  assert (Erest : elements (root t)
                  = (Shape.before zpath ++ elements zl)
                    ++ kz :: elements zr ++ Shape.after zpath
                  /\ rest = (Shape.before zpath ++ elements zl)
                            ++ elements zr ++ Shape.after zpath).
  { unfold rest. rewrite El, <- !app_assoc. simpl. auto. }
  destruct Erest as [El' Erest].
  assert (Sorted' : StronglySorted Z.le (map start_of rest)).
  { rewrite El', map_app in Ho. simpl in Ho.
    apply sorted_delete in Ho. now rewrite <- map_app, <- Erest in Ho. }
  assert (Finish : forall t',
             elements (root t') = rest ->
             fresh t' = fresh t ->
             (aug_ok (root t) -> addrs_ok t -> aug_ok (root t')) ->
             (t' = t /\ fst (Node kz cz sz zl zr, zpath) = nil
              \/ exists l1 k l2,
                   elements (root t) = l1 ++ k :: l2
                   /\ matches iv k = true
                   /\ elements (root t') = l1 ++ l2)
             /\ (aug_ok (root t) -> addrs_ok t ->
                 aug_ok (root t') /\ addrs_ok t')).
  { intros t' E' Ef Ha. split.
    - right. exists (Shape.before zpath ++ elements zl), kz,
        (elements zr ++ Shape.after zpath).
      rewrite E'. auto.
    - intros A0 Ad. split; [now apply Ha|].
      destruct Ad as (Hf1 & Hn & Hlt). unfold addrs_ok.
      rewrite Ef, E', Erest. rewrite El' in Hn, Hlt.
      split; [exact Hf1|]. split; [exact (NoDup_map_remove _ _ _ _ Hn)|].
      apply Forall_app in Hlt. destruct Hlt as [H1 H2].
      inversion H2; subst. apply Forall_app. auto. }
  assert (Addr' : addrs_ok t ->
             NoDup (map addr rest)
             /\ Forall (fun k => (1 <= addr k)%nat) rest).
  { intros (Hf1 & Hn & Hlt). rewrite Erest. rewrite El' in Hn, Hlt.
    split; [exact (NoDup_map_remove _ _ _ _ Hn)|].
    apply Forall_app in Hlt. destruct Hlt as [H1 H2].
    inversion H2; subst. apply Forall_app.
    split; eapply Forall_impl; try eassumption; simpl; intros; lia. }
  assert (Hpar : parent_addr zpath = O
                 \/ exists f, In f zpath
                              /\ addr (fkey f) = parent_addr zpath).
  { destruct zpath as [|f up]; [now left|right].
    exists f. simpl. auto. }
  destruct (splice_child _ _ _ _ _ _ Hf) as [Sl Sr].
  destruct zl as [|lk lc ls ll lr].
  { destruct (pom_remove_finish_spec t cz zr zpath (parent_addr zpath))
      as (t' & E & I' & Et & Ef & Ha); auto.
    - rewrite elements_plug. exact Sorted'.
    - exists t'. split; [exact E|]. split; [exact I'|].
      rewrite elements_plug in Et, Ha.
      apply Finish; [exact Et | exact Ef |].
      intros A0 Ad. destruct (Hz A0) as [(_ & Azl & Azr) Ap].
      destruct (Addr' Ad) as [Hn Hpos].
      apply Ha; auto. }
  destruct zr as [|rk rc rs rl rr].
  { destruct (pom_remove_finish_spec t cz (Node lk lc ls ll lr) zpath
                (parent_addr zpath))
      as (t' & E & I' & Et & Ef & Ha); auto.
    - rewrite elements_plug. simpl in Sorted'. exact Sorted'.
    - exists t'. split; [exact E|]. split; [exact I'|].
      rewrite elements_plug in Et, Ha.
      apply Finish; [exact Et | exact Ef |].
      intros A0 Ad. destruct (Hz A0) as [(_ & Azl & Azr) Ap].
      destruct (Addr' Ad) as [Hn Hpos].
      apply Ha; auto. }
  set (zl := Node lk lc ls ll lr) in *.
  set (zr := Node rk rc rs rl rr) in *.
  destruct (minimum zr []) as [y ypath] eqn:Ey.
  destruct (minimum_leftmost _ _ _ _ Ey) as [(ky & cy & dy & x & ->) _];
    [discriminate|].
  pose proof (splice_successor_elements zl zr zpath _ _ _ _ _ _ cz dy Ey)
    as Ee.
  pose proof (fun A => consistent_descent augment _ _ _ _
                         (minimum_descent _ _ _ _ Ey) A (Forall_nil _))
    as Hy.
  destruct (pom_remove_finish_spec t cy x
              (ypath ++ RightOf ky cz dy zl :: zpath)
              match ypath with
              | [] => addr ky
              | f :: _ => addr (fkey f)
              end)
    as (t' & E & I' & Et & Ef & Ha).
  - eapply splice_successor; eauto.
  - right. destruct ypath as [|f up].
    + exists (RightOf ky cz dy zl). simpl. auto.
    + exists f. simpl. auto.
  - rewrite Ee by discriminate. exact Sorted'.
  - exists t'. split; [exact E|]. split; [exact I'|].
    rewrite Ee in Et, Ha by discriminate.
    apply Finish; [exact Et | exact Ef |].
    intros A0 Ad. destruct (Hz A0) as [(_ & Azl & Azr) Ap].
    destruct (Addr' Ad) as [Hn Hpos].
    destruct (Hy Azr) as [(_ & _ & Ax) Ayp].
    apply Ha; auto.
    + now destruct ypath.
    + apply Forall_app. split; [exact Ayp|]. constructor; auto.
Qed.

Lemma pom_empty_invariant : invariant empty_tree.
Proof.
  split; [reflexivity|]. split; [exists 0%nat; reflexivity|]. constructor.
Qed.

Lemma pom_apply_spec o (t : POMTree) :
  invariant t -> exists t', apply o t = Ok t' /\ invariant t'.
Proof.
  intros I. destruct o as [iv|iv]; simpl.
  - destruct (pom_insert_spec iv t I) as (t' & E & I' & _). eauto.
  - destruct (pom_remove_spec iv t I) as (t' & E & I' & _). eauto.
Qed.

Lemma pom_run_invariant ops : forall t,
  invariant t -> exists t', run ops t = Ok t' /\ invariant t'.
Proof.
  induction ops as [|o ops IH]; intros t I; simpl; [eauto|].
  destruct (pom_apply_spec o t I) as (t1 & E1 & I1).
  rewrite E1. simpl. now apply IH.
Qed.

End POMRemove.


(* ------------------------------------------------------------------ *)
(** * Proofs: what the augmented data of the interval tree says *)

Section PrefixSums.
Import POM POMProps.

Lemma leftmost_max_fold b l : leftmost_max b l = fold_left pick l b.
Proof. revert b. induction l as [|p l IH]; intros b; simpl; auto. Qed.

Lemma pick_assoc b p m : pick (pick b p) m = pick b (pick p m).
Proof.
  unfold pick.
  destruct (Z.gtb_spec (fst p) (fst b)), (Z.gtb_spec (fst m) (fst p));
    simpl;
    repeat match goal with
           | |- context [?x >? ?y] => destruct (Z.gtb_spec x y)
           end; simpl; auto; lia.
Qed.

(** The best of [b] and a non-empty list is the better of [b] and the
    best of the list. *)
Lemma leftmost_max_cons b p l :
  leftmost_max b (p :: l) = pick b (leftmost_max p l).
Proof.
  rewrite !leftmost_max_fold. simpl. revert b p.
  induction l as [|q l IH]; intros b p; simpl; [reflexivity|].
  rewrite IH, (IH p q). apply pick_assoc.
Qed.

Lemma leftmost_max_app b l1 l2 :
  leftmost_max b (l1 ++ l2) = leftmost_max (leftmost_max b l1) l2.
Proof. rewrite !leftmost_max_fold. apply fold_left_app. Qed.

Lemma prefix_sums_shift a l : forall b,
  prefix_sums (a + b) l = map (shift a) (prefix_sums b l).
Proof.
  induction l as [|iv l IH]; intros b; simpl; [reflexivity|].
  rewrite <- IH. unfold shift at 1. simpl.
  now rewrite Z.add_assoc.
Qed.

Lemma pick_shift a b m : pick (shift a b) (shift a m) = shift a (pick b m).
Proof.
  unfold pick, shift. simpl.
  destruct (Z.gtb_spec (fst m) (fst b)), (Z.gtb_spec (a + fst m) (a + fst b));
    auto; lia.
Qed.

Lemma leftmost_max_shift a l : forall b,
  leftmost_max (shift a b) (map (shift a) l) = shift a (leftmost_max b l).
Proof.
  induction l as [|p l IH]; intros b; cbn [leftmost_max map];
    [reflexivity|].
  fold (pick b p). fold (pick (shift a b) (shift a p)).
  now rewrite pick_shift, IH.
Qed.

Lemma sum_values_cons iv l : sum_values (iv :: l) = value iv + sum_values l.
Proof. reflexivity. Qed.

Lemma sum_values_app l1 l2 :
  sum_values (l1 ++ l2) = sum_values l1 + sum_values l2.
Proof.
  induction l1 as [|iv l1 IH]; simpl; [reflexivity|].
  rewrite !sum_values_cons, IH. lia.
Qed.

Lemma prefix_sums_app l1 l2 : forall a,
  prefix_sums a (l1 ++ l2)
  = prefix_sums a l1 ++ prefix_sums (a + sum_values l1) l2.
Proof.
  induction l1 as [|iv l1 IH]; intros a; simpl.
  - now rewrite Z.add_0_r.
  - rewrite IH, sum_values_cons, Z.add_assoc. reflexivity.
Qed.

(** The running sums from a node on: the node, then its right
    subtree. *)
Lemma leftmost_max_node n R :
  leftmost_max n (prefix_sums (fst n) R)
  = match best_prefix R with
    | None => n
    | Some b => pick n (shift (fst n) b)
    end.
Proof.
  unfold best_prefix.
  rewrite <- (Z.add_0_r (fst n)) at 1. rewrite prefix_sums_shift.
  destruct (prefix_sums 0 R) as [|q qs]; [reflexivity|].
  cbn [map]. now rewrite leftmost_max_cons, leftmost_max_shift.
Qed.

(** The greatest running sum of [L ++ iv :: R], from those of [L] and
    of [R]. *)
Lemma best_prefix_app_cons L iv R :
  best_prefix (L ++ iv :: R)
  = let n := (sum_values L + value iv, start iv) in
    let m := match best_prefix R with
             | None => n
             | Some b => pick n (shift (fst n) b)
             end in
    Some match best_prefix L with
         | None => m
         | Some b => pick b m
         end.
Proof.
  cbv zeta. rewrite <- leftmost_max_node.
  unfold best_prefix. rewrite prefix_sums_app. cbn [prefix_sums fst].
  rewrite Z.add_0_l.
  destruct (prefix_sums 0 L) as [|q qs]; cbn [app]; [reflexivity|].
  now rewrite leftmost_max_app, leftmost_max_cons.
Qed.

Lemma best_prefix_cons iv l : best_prefix (iv :: l) <> None.
Proof. unfold best_prefix. simpl. discriminate. Qed.

Lemma sum_summary l : sum (summary l) = sum_values l.
Proof.
  unfold summary. destruct l as [|iv l]; [reflexivity|].
  destruct (best_prefix (iv :: l)) as [[mp am]|] eqn:E; [reflexivity|].
  now apply best_prefix_cons in E.
Qed.

Lemma best_summary l mp am :
  best_prefix l = Some (mp, am) ->
  maxpref (summary l) = mp /\ argmax (summary l) = am.
Proof. unfold summary. intros ->. auto. Qed.

(** [leftmost_max] returns the first of the greatest entries. *)
Lemma leftmost_max_spec ps : forall b,
  exists i,
    nth_error (b :: ps) i = Some (leftmost_max b ps)
    /\ (forall j p, nth_error (b :: ps) j = Some p ->
                    fst p <= fst (leftmost_max b ps))
    /\ (forall j p, (j < i)%nat -> nth_error (b :: ps) j = Some p ->
                    fst p < fst (leftmost_max b ps)).
Proof.
  induction ps as [|p ps IH]; intros b.
  - exists 0%nat. simpl. split; [reflexivity|]. split.
    + intros [|[|j]] q H; simpl in H; inversion H; subst; lia.
    + intros j q H. lia.
  - rewrite leftmost_max_cons.
    destruct (IH p) as (i & Hi & Hle & Hlt).
    set (r := leftmost_max p ps) in *. unfold pick.
    destruct (Z.gtb_spec (fst r) (fst b)) as [Hgt|Hge].
    + exists (S i). split; [exact Hi|]. split.
      * intros [|j] q H; simpl in H; [inversion H; subst; lia|].
        eapply Hle; eauto.
      * intros [|j] q Hj H; simpl in H; [inversion H; subst; lia|].
        eapply Hlt; eauto. lia.
    + exists 0%nat. split; [reflexivity|]. split.
      * intros [|j] q H; simpl in H; [inversion H; subst; lia|].
        specialize (Hle j q H). lia.
      * intros j q Hj. lia.
Qed.

Lemma running_sum_cons iv l j :
  running_sum (iv :: l) (S j) = value iv + running_sum l j.
Proof. reflexivity. Qed.

Lemma prefix_sums_nth l : forall a j,
  nth_error (prefix_sums a l) j
  = option_map (fun iv => (a + running_sum l j, start iv)) (nth_error l j).
Proof.
  induction l as [|iv l IH]; intros a j.
  - now destruct j.
  - destruct j as [|j]; cbn [prefix_sums nth_error option_map].
    + unfold running_sum. cbn [firstn]. rewrite sum_values_cons.
      unfold sum_values at 1. simpl. do 2 f_equal. lia.
    + rewrite IH, running_sum_cons. destruct (nth_error l j); simpl;
        [|reflexivity]. do 2 f_equal. lia.
Qed.

(** [best_prefix] is the greatest running sum, with the [start] of the
    leftmost interval that reaches it. *)
Lemma best_prefix_spec l mp am :
  best_prefix l = Some (mp, am) -> leftmost_greatest l mp am.
Proof.
  unfold best_prefix. destruct (prefix_sums 0 l) as [|p ps] eqn:E;
    [discriminate|].
  intros H. inversion H as [Hr]. clear H.
  destruct (leftmost_max_spec ps p) as (i & Hi & Hle & Hlt).
  rewrite Hr, <- E in *. rewrite prefix_sums_nth in Hi.
  destruct (nth_error l i) as [iv|] eqn:Ei; [|discriminate].
  simpl in Hi. inversion Hi; subst.
  exists i, iv. split; [exact Ei|]. split; [lia|]. split; [reflexivity|].
  split.
  - intros j Hj. destruct (nth_error l j) as [jv|] eqn:Ej.
    + specialize (Hle j (0 + running_sum l j, start jv)).
      rewrite prefix_sums_nth, Ej in Hle. specialize (Hle eq_refl).
      simpl in Hle. lia.
    + apply nth_error_None in Ej. lia.
  - intros j Hj.
    assert (Hjl : (j < length l)%nat).
    { apply Nat.lt_trans with i; [exact Hj|].
      apply nth_error_Some. now rewrite Ei. }
    destruct (nth_error l j) as [jv|] eqn:Ej.
    + specialize (Hlt j (0 + running_sum l j, start jv) Hj).
      rewrite prefix_sums_nth, Ej in Hlt. specialize (Hlt eq_refl).
      simpl in Hlt. lia.
    + apply nth_error_None in Ej. lia.
Qed.

End PrefixSums.

Section POMSummary.
Import POM POMProps.

Lemma best_prefix_node k (l r : POMNode) :
  exists b,
    best_prefix (map interval (elements l ++ k :: elements r)) = Some b.
Proof.
  rewrite map_app. cbn [map]. rewrite best_prefix_app_cons. eauto.
Qed.

Ltac compare_all :=
  repeat (cbn [fst snd sum maxpref argmax] in *;
          match goal with
          | |- context [?x >? ?y] => destruct (Z.gtb_spec x y)
          | H : context [?x >? ?y] |- _ => destruct (Z.gtb_spec x y)
          end).

(** [updateAugmentedData] on a node whose children carry the summaries
    of their subtrees stores the summary of the node's subtree. *)
Lemma augment_summary k (l r : POMNode) :
  summaries_ok l -> summaries_ok r -> above_min (interval k) ->
  augment k l r = summary (map interval (elements l ++ k :: elements r)).
Proof.
  intros Hl Hr Hk. unfold above_min, LLONG_MIN in Hk.
  rewrite map_app. cbn [map]. unfold summary at 1.
  rewrite best_prefix_app_cons, sum_values_app, sum_values_cons.
  cbv zeta.
  destruct l as [|kl cl dl ll lr], r as [|kr cr dr rl rr].
  - unfold augment, pick, shift, LLONG_MIN. simpl. compare_all;
      try lia; f_equal; unfold sum_values; simpl; lia.
  - destruct Hr as (-> & _).
    destruct (best_prefix_node kr rl rr) as [[mpR amR] ER].
    unfold augment, summary, LLONG_MIN. cbn [elements]. rewrite !ER.
    unfold pick, shift. simpl. compare_all;
      try lia; f_equal; unfold sum_values in *; simpl in *; lia.
  - destruct Hl as (-> & _).
    destruct (best_prefix_node kl ll lr) as [[mpL amL] EL].
    unfold augment, summary, LLONG_MIN. cbn [elements]. rewrite !EL.
    unfold pick, shift. simpl. compare_all;
      try lia; f_equal; unfold sum_values in *; simpl in *; lia.
  - destruct Hl as (-> & _). destruct Hr as (-> & _).
    destruct (best_prefix_node kl ll lr) as [[mpL amL] EL].
    destruct (best_prefix_node kr rl rr) as [[mpR amR] ER].
    unfold augment, summary. cbn [elements]. rewrite !EL, !ER.
    unfold pick, shift. simpl. compare_all;
      try lia; f_equal; unfold sum_values in *; simpl in *; lia.
Qed.

(** Fields that are right node by node are the summaries of the
    subtrees. *)
Lemma consistent_summaries (x : POMNode) :
  aug_ok x -> Forall above_min (map interval (elements x)) ->
  summaries_ok x.
Proof.
  unfold aug_ok. induction x as [|k c d l IHl r IHr]; simpl; [auto|].
  intros (-> & Hl & Hr) Ha. rewrite map_app in Ha.
  apply Forall_app in Ha. destruct Ha as [Hal Har].
  cbn [map] in Har. inversion Har as [|? ? Hk Har']; subst.
  specialize (IHl Hl Hal). specialize (IHr Hr Har').
  split; [|auto]. now apply augment_summary.
Qed.

Lemma root_summary (t : POMTree) :
  summaries_ok (root t) ->
  findPOM t = summary (intervals t)
  /\ getSum t = sum_values (intervals t).
Proof.
  unfold findPOM, getSum, intervals.
  destruct (root t) as [|k c d l r]; [auto|].
  intros (-> & _). split; [reflexivity|]. apply sum_summary.
Qed.

Lemma int_above_min iv : - 2 ^ 31 <= value iv -> above_min iv.
Proof. unfold above_min, LLONG_MIN. lia. Qed.

Lemma pom_apply_sound o (t : POMTree) :
  invariant t -> aug_ok (root t) -> addrs_ok t ->
  Forall above_min (intervals t) -> int_valued o ->
  exists t', apply o t = Ok t' /\ invariant t' /\ aug_ok (root t')
             /\ addrs_ok t' /\ Forall above_min (intervals t').
Proof.
  intros I Ha Hd Hv Ho. destruct o as [iv|iv]; simpl in *.
  - destruct (pom_insert_spec iv t I) as (t' & E & I' & P & A & _).
    destruct (A Ha Hd) as [Ha' Hd'].
    exists t'. repeat (split; [assumption|]).
    apply (Permutation_Forall P). constructor; [|exact Hv].
    apply int_above_min. tauto.
  - destruct (pom_remove_spec iv t I) as (t' & E & I' & C & A).
    destruct (A Ha Hd) as [Ha' Hd'].
    exists t'. repeat (split; [assumption|]).
    destruct C as [[-> _]|(l1 & k & l2 & E1 & _ & E2)]; [exact Hv|].
    unfold intervals in *. rewrite E1 in Hv. rewrite E2.
    rewrite map_app in *. apply Forall_app in Hv. destruct Hv as [H1 H2].
    inversion H2; subst. apply Forall_app. auto.
Qed.

Lemma pom_run_sound ops : forall t,
  invariant t -> aug_ok (root t) -> addrs_ok t ->
  Forall above_min (intervals t) -> Forall int_valued ops ->
  exists t', run ops t = Ok t' /\ invariant t' /\ aug_ok (root t')
             /\ addrs_ok t' /\ Forall above_min (intervals t').
Proof.
  induction ops as [|o ops IH]; intros t I Ha Hd Hv Ho; simpl;
    [eauto 6|].
  inversion Ho as [|? ? Ho1 Ho2]; subst.
  destruct (pom_apply_sound o t I Ha Hd Hv Ho1)
    as (t1 & E1 & I1 & Ha1 & Hd1 & Hv1).
  rewrite E1. simpl. now apply IH.
Qed.

Lemma pom_empty_sound :
  aug_ok (root empty_tree) /\ addrs_ok empty_tree
  /\ Forall above_min (intervals empty_tree).
Proof.
  split; [exact I|]. split; [|constructor].
  split; [simpl; lia|]. split; constructor.
Qed.

End POMSummary.

Section POMLedger.
Import POM POMProps.

(** What the summary at the root says of the tree. *)
Lemma summaries_root (t : POMTree) :
  summaries_ok (root t) ->
  getSum t = sum_values (intervals t)
  /\ sum (findPOM t) = getSum t
  /\ (intervals t = [] -> findPOM t = no_data)
  /\ (intervals t <> [] ->
      leftmost_greatest (intervals t)
        (maxpref (findPOM t)) (argmax (findPOM t))).
Proof.
  intros Hs. destruct (root_summary t Hs) as [Ef Eg].
  split; [exact Eg|]. split; [now rewrite Ef, sum_summary|]. split.
  - intros En. now rewrite Ef, En.
  - intros Hne. rewrite Ef.
    destruct (intervals t) as [|iv l] eqn:El; [contradiction|].
    destruct (best_prefix (iv :: l)) as [[mp am]|] eqn:Eb.
    + destruct (best_summary _ _ _ Eb) as [-> ->].
      now apply best_prefix_spec.
    + now apply best_prefix_cons in Eb.
Qed.

Lemma pom_run_summaries ops :
  Forall int_valued ops ->
  exists t, run ops empty_tree = Ok t /\ invariant t
            /\ summaries_ok (root t).
Proof.
  intros Hops. destruct pom_empty_sound as (Ha0 & Hd0 & Hv0).
  destruct (pom_run_sound ops empty_tree pom_empty_invariant
              Ha0 Hd0 Hv0 Hops) as (t & E & I & Ha & _ & Hv).
  exists t. split; [exact E|]. split; [exact I|].
  exact (consistent_summaries _ Ha Hv).
Qed.

Lemma sum_values_perm l l' :
  Permutation l l' -> sum_values l = sum_values l'.
Proof.
  induction 1; rewrite ?sum_values_cons; lia.
Qed.

Lemma sorted_strict (l : list Z) :
  StronglySorted Z.le l -> NoDup l -> StronglySorted Z.lt l.
Proof.
  induction 1 as [|a l Hs IH Hle]; intros Hn; constructor;
    inversion Hn as [|? ? Hna Hn']; subst; auto.
  rewrite Forall_forall in *. intros b Hb. specialize (Hle b Hb).
  assert (a <> b) by (intros ->; contradiction). lia.
Qed.

Lemma strict_sorted_app (l1 l2 : list Z) :
  StronglySorted Z.lt (l1 ++ l2) ->
  StronglySorted Z.lt l1 /\ StronglySorted Z.lt l2
  /\ (forall a b, In a l1 -> In b l2 -> a < b).
Proof.
  induction l1 as [|x l1 IH]; simpl; intros H.
  - repeat split; [constructor | exact H | contradiction].
  - apply StronglySorted_inv in H. destruct H as [H Hx].
    destruct (IH H) as (H1 & H2 & H3).
    rewrite Forall_forall in Hx. repeat split; auto.
    + constructor; [exact H1|]. rewrite Forall_forall. intros b Hb.
      apply Hx. rewrite in_app_iff. auto.
    + intros a b [<-|Ha] Hb; [|auto]. apply Hx. rewrite in_app_iff. auto.
Qed.

(** With no two intervals of the same [start] in the tree, [search]
    finds the interval asked for whenever it is there. *)
Lemma pom_search_complete iv (x : POMNode) : forall path k,
  StronglySorted Z.lt (map start_of (elements x)) ->
  In k (elements x) -> matches iv k = true ->
  fst (search x path iv) <> nil.
Proof.
  induction x as [|k0 c0 d0 l IHl r IHr]; intros path k Hs Hk Hm;
    [contradiction|].
  cbn [search]. fold (matches iv k0).
  destruct (matches iv k0) eqn:E0; [discriminate|].
  cbn [elements] in Hs, Hk. rewrite map_app in Hs. cbn [map] in Hs.
  apply strict_sorted_app in Hs. destruct Hs as (Hl & Hr & Hlr).
  pose proof Hr as Hr'. apply StronglySorted_inv in Hr'.
  destruct Hr' as [Hrr Hk0]. rewrite Forall_forall in Hk0.
  assert (Es : start iv = start_of k).
  { unfold matches in Hm. apply andb_true_iff in Hm.
    destruct Hm as [Hm _]. now apply Z.eqb_eq in Hm. }
  apply in_app_or in Hk. unfold lt. fold (start_of k0).
  destruct (Z.ltb_spec (start iv) (start_of k0)) as [Hlt|Hge].
  - destruct Hk as [Hk|[<-|Hk]].
    + eapply IHl; eauto.
    + congruence.
    + specialize (Hk0 (start_of k) (in_map _ _ _ Hk)). lia.
  - destruct Hk as [Hk|[<-|Hk]].
    + specialize (Hlr (start_of k) (start_of k0) (in_map _ _ _ Hk)
                      (or_introl eq_refl)). lia.
    + congruence.
    + eapply IHr; eauto.
Qed.

Lemma strike_absent iv l :
  (forall a, In a l -> same_span iv a = false) -> strike iv l = l.
Proof.
  induction l as [|b l IH]; simpl; intros H; [reflexivity|].
  rewrite (H b) by auto. f_equal. auto.
Qed.

Lemma same_span_start iv a : same_span iv a = true -> start a = start iv.
Proof.
  unfold same_span. intros H. apply andb_true_iff in H.
  destruct H as [H _]. apply Z.eqb_eq in H. auto.
Qed.

(** With distinct [start]s the ledger loses the very interval the tree
    loses. *)
Lemma strike_present iv a l :
  NoDup (map start l) -> In a l -> same_span iv a = true ->
  Permutation l (a :: strike iv l).
Proof.
  induction l as [|b l IH]; simpl; intros Hn Ha Hm; [contradiction|].
  inversion Hn as [|? ? Hnb Hn']; subst.
  destruct (same_span iv b) eqn:Eb.
  - destruct Ha as [->|Ha]; [reflexivity|]. exfalso. apply Hnb.
    rewrite (same_span_start _ _ Eb), <- (same_span_start _ _ Hm).
    now apply in_map.
  - destruct Ha as [->|Ha]; [congruence|].
    rewrite perm_swap. constructor. auto.
Qed.

Lemma strike_incl iv l a : In a (strike iv l) -> In a l.
Proof.
  induction l as [|b l IH]; simpl; [auto|].
  destruct (same_span iv b); [auto|]. intros [->|H]; auto.
Qed.

Lemma strike_NoDup iv l :
  NoDup (map start l) -> NoDup (map start (strike iv l)).
Proof.
  induction l as [|b l IH]; simpl; intros Hn; [constructor|].
  inversion Hn as [|? ? Hnb Hn']; subst.
  destruct (same_span iv b); [exact Hn'|]. simpl. constructor; [|auto].
  intros Hin. apply Hnb. apply in_map_iff in Hin.
  destruct Hin as (a & Ea & Ha). rewrite <- Ea.
  apply in_map. eapply strike_incl; eauto.
Qed.

Lemma pom_apply_ledger o (t : POMTree) kept :
  invariant t -> Permutation (intervals t) kept ->
  NoDup (map start kept) ->
  match o with
  | Insert iv => ~ In (start iv) (map start kept)
  | Remove _ => True
  end ->
  exists t', apply o t = Ok t' /\ invariant t'
             /\ Permutation (intervals t') (record kept o)
             /\ NoDup (map start (record kept o)).
Proof.
  intros I P Hn Ho. destruct o as [iv|iv]; simpl in *.
  - destruct (pom_insert_spec iv t I) as (t' & E & I' & P' & _).
    exists t'. split; [exact E|]. split; [exact I'|]. split.
    + rewrite <- P'. now constructor.
    + now constructor.
  - destruct (pom_remove_spec iv t I) as (t' & E & I' & C & _).
    exists t'. split; [exact E|]. split; [exact I'|].
    split; [|now apply strike_NoDup].
    assert (Hs : StronglySorted Z.lt (map start_of (elements (root t)))).
    { destruct I as (_ & _ & Hs). apply sorted_strict; [exact Hs|].
      unfold start_of. rewrite <- map_map. fold (intervals t).
      eapply Permutation_NoDup; [|exact Hn].
      apply Permutation_map. now symmetry. }
    destruct C as [[-> En]|(l1 & k & l2 & E1 & Em & E2)].
    + rewrite strike_absent; [exact P|]. intros a Ha.
      destruct (same_span iv a) eqn:Ea; [exfalso|reflexivity].
      apply (Permutation_in _ (Permutation_sym P)) in Ha.
      unfold intervals in Ha. apply in_map_iff in Ha.
      destruct Ha as (k & <- & Hk).
      exact (pom_search_complete iv (root t) [] k Hs Hk Ea En).
    + apply Permutation_cons_inv with (a := interval k).
      rewrite <- strike_present; auto.
      * rewrite <- P. unfold intervals. rewrite E1, E2, !map_app.
        simpl. apply Permutation_middle.
      * apply (Permutation_in _ P). unfold intervals. rewrite E1.
        apply in_map, in_elt.
Qed.

Lemma pom_run_ledger ops : forall t kept,
  invariant t -> Permutation (intervals t) kept ->
  NoDup (map start kept) -> fresh_starts kept ops ->
  exists t', run ops t = Ok t' /\ invariant t'
             /\ Permutation (intervals t') (fold_left record ops kept)
             /\ NoDup (map start (fold_left record ops kept)).
Proof.
  induction ops as [|o ops IH]; intros t kept I P Hn Hf; simpl.
  - eauto.
  - destruct Hf as [Ho Hf].
    destruct (pom_apply_ledger o t kept I P Hn Ho)
      as (t1 & E1 & I1 & P1 & Hn1).
    rewrite E1. simpl. now apply IH.
Qed.

End POMLedger.

Section POMRoundTrip.
Import POM POMProps.

(** [search] finds an interval that stands behind every other interval
    of its [start]: the place where [insert] puts one. *)
Lemma pom_search_last iv (x : POMNode) : forall path l1 k l2,
  StronglySorted Z.le (map start_of (elements x)) ->
  elements x = l1 ++ k :: l2 -> matches iv k = true ->
  Forall (fun b => start iv < b) (map start_of l2) ->
  fst (search x path iv) <> nil.
Proof.
  induction x as [|k0 c0 d0 l IHl r IHr]; intros path l1 k l2 Hs El Hm Hgt.
  - destruct l1; discriminate.
  - cbn [search]. fold (matches iv k0).
    destruct (matches iv k0) eqn:E0; [discriminate|].
    cbn [elements] in Hs, El. rewrite map_app in Hs. cbn [map] in Hs.
    apply sorted_app in Hs. destruct Hs as (Hl & Hr & _).
    apply sorted_cons_iff in Hr. destruct Hr as [Hr Hk0].
    rewrite Forall_forall in Hk0, Hgt.
    assert (Es : start iv = start_of k).
    { unfold matches in Hm. apply andb_true_iff in Hm.
      destruct Hm as [Hm _]. now apply Z.eqb_eq in Hm. }
    unfold lt. fold (start_of k0).
    apply app_eq_app in El. destruct El as (mid & [[E1 E2]|[E1 E2]]).
    + destruct mid as [|a mid]; simpl in E2; injection E2 as Ea E2;
        [congruence|].
      subst a l2.
      assert (Hlt : start iv < start_of k0).
      { apply Hgt. rewrite map_app. apply in_or_app. right. now left. }
      destruct (Z.ltb_spec (start iv) (start_of k0)); [|lia].
      apply (IHl _ l1 k mid Hl E1 Hm).
      rewrite Forall_forall. intros b Hb. apply Hgt.
      rewrite map_app. apply in_or_app. now left.
    + destruct mid as [|a mid]; simpl in E2; injection E2 as Ea E2;
        [congruence|].
      subst a l1.
      assert (Hge : start_of k0 <= start_of k).
      { apply Hk0. rewrite E2, map_app. apply in_or_app. right. now left. }
      destruct (Z.ltb_spec (start iv) (start_of k0)); [lia|].
      apply (IHr _ mid k l2 Hr E2 Hm).
      now rewrite Forall_forall.
Qed.

Lemma matches_self a iv : matches iv {| addr := a; interval := iv |} = true.
Proof. unfold matches. simpl. now rewrite !Z.eqb_refl. Qed.

(** [insert] and then [remove] of an interval whose [start] and [end]
    no interval of the tree has leave the intervals of the tree as
    they were, with every field right. *)
Lemma pom_round_trip iv (t : POMTree) :
  invariant t -> aug_ok (root t) -> addrs_ok t ->
  (forall k, In k (elements (root t)) -> matches iv k = false) ->
  exists t1 t2,
    insert iv t = Ok t1 /\ remove iv t1 = Ok t2
    /\ invariant t2 /\ aug_ok (root t2)
    /\ elements (root t2) = elements (root t).
Proof.
  intros I Ha Hd Hno.
  destruct (pom_insert_spec iv t I)
    as (t1 & E1 & I1 & _ & A1 & l1 & l2 & El & El1 & _ & Hgt).
  destruct (A1 Ha Hd) as [Ha1 Hd1].
  destruct (pom_remove_spec iv t1 I1) as (t2 & E2 & I2 & C & A2).
  destruct (A2 Ha1 Hd1) as [Ha2 _].
  exists t1, t2. split; [exact E1|]. split; [exact E2|].
  split; [exact I2|]. split; [exact Ha2|].
  destruct C as [[_ En]|(l1' & k' & l2' & E1' & Em & E2')].
  - exfalso. destruct I1 as (_ & _ & Hs).
    exact (pom_search_last iv (root t1) [] l1 _ l2 Hs El1
             (matches_self _ _) Hgt En).
  - rewrite El1 in E1'.
    assert (Hnot : Forall (fun a => matches iv a <> true) (l1 ++ l2)).
    { rewrite Forall_forall. intros a Hin. rewrite <- El in Hin.
      rewrite (Hno a Hin). discriminate. }
    apply Forall_app in Hnot. destruct Hnot as [N1 N2].
    destruct (split_unique (fun a => matches iv a = true)
                _ _ _ _ _ _ E1' Em N1 N2) as (<- & _ & <-).
    now rewrite E2', El.
Qed.

End POMRoundTrip.


(* ------------------------------------------------------------------ *)
(** * Proofs: the Josephus generator on the order-statistic tree *)

Section JosephusOST.
Import OST OSTProps Josephus.

Lemma int_wrap_small z : - 2 ^ 31 <= z < 2 ^ 31 -> int_wrap z = z.
Proof.
  intros H. unfold int_wrap. rewrite Z.mod_small; lia.
Qed.

Lemma empty_iff (t : OrderStatisticTree) :
  invariant t -> (empty t = true <-> size t = 0).
Proof.
  intros (_ & _ & Hs & _). unfold size.
  destruct t as [|k c s l r]; simpl; [tauto|].
  destruct Hs as (-> & Hl & Hr).
  pose proof (getSize_nonneg l Hl). pose proof (getSize_nonneg r Hr).
  split; [discriminate | lia].
Qed.

Lemma size_length (t : OrderStatisticTree) :
  invariant t -> size t = Z.of_nat (length (elements t)).
Proof. intros (_ & _ & Hs & _). now apply getSize_length. Qed.

(** The filling loop inserts [a, a+1, ..., a+count-1]. *)
Lemma initialize_spec count : forall a t,
  invariant t ->
  exists t', initialize (Z.of_nat a) count t = Ok t' /\ invariant t'
             /\ Permutation (elements t')
                  (map Z.of_nat (seq a count) ++ elements t).
Proof.
  induction count as [|count IH]; intros a t I; simpl.
  - exists t. auto.
  - destruct (insert_spec (Z.of_nat a) t I) as (t1 & E1 & I1 & P1).
    rewrite E1. simpl.
    replace (Z.of_nat a + 1) with (Z.of_nat (S a)) by lia.
    destruct (IH (S a) t1 I1) as (t2 & E2 & I2 & P2).
    exists t2. split; [exact E2|]. split; [exact I2|].
    rewrite P2, <- P1. symmetry. apply Permutation_middle.
Qed.

(** The elimination loop empties the tree, key by key. *)
Lemma generateOST_loop_spec m fuel : forall ost current acc,
  1 <= m ->
  invariant ost ->
  size ost = Z.of_nat fuel ->
  size ost + m <= 2 ^ 31 ->
  0 <= current <= Z.max 0 (size ost - 1) ->
  exists l, generateOST_loop fuel m ost current acc = Ok (acc ++ l)
            /\ Permutation l (elements ost).
Proof.
  induction fuel as [|fuel IH]; intros ost current acc Hm I Hf Hb Hc.
  - apply (empty_iff ost I) in Hf. simpl. rewrite Hf.
    exists []. rewrite app_nil_r. split; [reflexivity|].
    destruct ost; [constructor | discriminate].
  - cbn [generateOST_loop].
    destruct (empty ost) eqn:Ee;
      [apply (empty_iff ost I) in Ee; lia|].
    rewrite (int_wrap_small (current + m)) by lia.
    rewrite (int_wrap_small (current + m - 1)) by lia.
    set (c1 := Z.rem (current + m - 1) (size ost)).
    assert (Hc1 : 0 <= c1 < size ost)
      by (apply Z.rem_bound_pos; lia).
    destruct (proj1 (select_spec (c1 + 1) ost I))
      as (key & Es & Hn); [lia|].
    rewrite Es. cbn [bind].
    assert (Hi : In key (elements ost)) by (eapply nth_error_In; eauto).
    destruct (remove_spec key ost I) as (ost' & Er & I' & P').
    rewrite Er. cbn [bind].
    assert (Hs' : size ost' = Z.of_nat fuel).
    { rewrite (size_length ost' I'), (Permutation_length P').
      pose proof (remove_one_length key _ Hi).
      rewrite (size_length ost I) in Hf. lia. }
    destruct (IH ost'
                (if empty ost' then c1 else Z.rem c1 (size ost'))
                (acc ++ [key])) as (l & El & Pl); auto; try lia.
    + destruct (empty ost') eqn:Ee'.
      * apply (empty_iff ost' I') in Ee'. lia.
      * assert (0 < size ost').
        { destruct (Z.eq_dec (size ost') 0) as [Z0|]; [|lia].
          apply (empty_iff ost' I') in Z0. congruence. }
        pose proof (Z.rem_bound_pos c1 (size ost')). lia.
    + exists (key :: l). rewrite El, <- app_assoc. split; [reflexivity|].
      rewrite Pl, P'. now apply remove_one_present.
Qed.

Lemma positions_length n :
  length (JosephusProps.positions n) = Z.to_nat n.
Proof.
  unfold JosephusProps.positions. now rewrite length_map, length_seq.
Qed.

Lemma generateOST_spec n m :
  1 <= n -> 1 <= m -> n + m <= 2 ^ 31 ->
  exists l, generateOST n m = Ok l
            /\ length l = Z.to_nat n
            /\ Permutation l (JosephusProps.positions n).
Proof.
  intros Hn Hm Hb. unfold generateOST.
  destruct (initialize_spec (Z.to_nat n) 0 empty_tree empty_invariant)
    as (t0 & E0 & I0 & P0).
  change (Z.of_nat 0) with 0 in E0. rewrite E0. cbn [bind].
  simpl in P0. rewrite app_nil_r in P0.
  fold (JosephusProps.positions n) in P0.
  assert (Hs : size t0 = n).
  { rewrite (size_length t0 I0), (Permutation_length P0),
      positions_length. lia. }
  destruct (generateOST_loop_spec m (Z.to_nat (size t0)) t0 0 [])
    as (l & El & Pl); auto; try lia.
  exists l. split; [exact El|].
  assert (P : Permutation l (JosephusProps.positions n))
    by (now rewrite Pl).
  split; [|exact P].
  now rewrite (Permutation_length P), positions_length.
Qed.

End JosephusOST.


(* ------------------------------------------------------------------ *)
(** * Proofs: both Josephus generators walk the same circle *)

Section Rotation.
Import JosephusProps.

Lemma rotn_S k l : rotn (S k) l = rot1 (rotn k l).
Proof. reflexivity. Qed.

Lemma rotn_rot1 k l : rotn k (rot1 l) = rotn (S k) l.
Proof. unfold rotn. now rewrite Nat.iter_succ_r. Qed.

Lemma rotn_add a b l : rotn (a + b) l = rotn a (rotn b l).
Proof. apply Nat.iter_add. Qed.

Lemma rot1_length l : length (rot1 l) = length l.
Proof.
  destruct l as [|x l]; simpl; [reflexivity|].
  rewrite length_app. simpl. lia.
Qed.

Lemma rotn_length k l : length (rotn k l) = length l.
Proof.
  induction k as [|k IH]; [reflexivity|].
  now rewrite rotn_S, rot1_length.
Qed.

Lemma skipn_cons_nth (l : list Z) j x :
  nth_error l j = Some x ->
  skipn j l = x :: skipn (S j) l /\ firstn (S j) l = firstn j l ++ [x].
Proof.
  revert j. induction l as [|a l IH]; intros [|j] H; simpl in H;
    try discriminate.
  - inversion H; subst. auto.
  - destruct (IH j H) as [E1 E2]. split; [exact E1|].
    change (firstn (S (S j)) (a :: l)) with (a :: firstn (S j) l).
    now rewrite E2.
Qed.

(** [k] steps on in a circle of [s] are [k mod s] steps on. *)
Lemma rotn_split k (l : list Z) :
  l <> [] ->
  rotn k l = skipn (k mod length l) l ++ firstn (k mod length l) l.
Proof.
  intros Hne.
  assert (Hs : (0 < length l)%nat) by (destruct l; simpl; [congruence|lia]).
  induction k as [|k IH].
  - rewrite Nat.Div0.mod_0_l. simpl. now rewrite app_nil_r.
  - rewrite rotn_S, IH.
    pose proof (Nat.mod_upper_bound k (length l)) as Hj.
    set (j := (k mod length l)%nat) in *.
    assert (Hj' : (j < length l)%nat) by lia.
    destruct (nth_error l j) as [x|] eqn:Ex;
      [|apply nth_error_None in Ex; lia].
    destruct (skipn_cons_nth l j x Ex) as [E1 E2].
    rewrite E1. cbn [rot1 app]. rewrite <- app_assoc, <- E2.
    replace (S k) with (k + 1)%nat by lia.
    rewrite <- Nat.Div0.add_mod_idemp_l. fold j.
    destruct (Nat.eq_dec (S j) (length l)) as [Ee|Ne].
    + replace (j + 1)%nat with (length l) by lia.
      rewrite Nat.Div0.mod_same, Ee, skipn_all, firstn_all. simpl.
      now rewrite app_nil_r.
    + rewrite Nat.mod_small by lia.
      now replace (j + 1)%nat with (S j) by lia.
Qed.

End Rotation.

Section CircleOST.
Import OST OSTProps Josephus JosephusProps.

(** [remove] of the key at place [j] leaves the keys around it. *)
Lemma remove_nth (t : OrderStatisticTree) j key :
  invariant t -> nth_error (elements t) j = Some key ->
  exists t', remove key t = Ok t' /\ invariant t'
             /\ elements t'
                = firstn j (elements t) ++ skipn (S j) (elements t).
Proof.
  intros I Hn. destruct (remove_spec key t I) as (t' & E & I' & P).
  exists t'. split; [exact E|]. split; [exact I'|].
  pose proof (firstn_skipn_middle _ _ Hn) as Em.
  apply sorted_perm_eq.
  - now destruct I' as (_ & _ & _ & Hs).
  - destruct I as (_ & _ & _ & Hs). rewrite <- Em in Hs.
    now apply sorted_delete in Hs.
  - rewrite P. rewrite <- Em at 1. apply remove_one_middle.
Qed.

(** After the one at place [j] has left, the count starts again at the
    one that stood behind it. *)
Lemma rotn_after (circle : list Z) j :
  (S j < length circle)%nat ->
  rotn j (firstn j circle ++ skipn (S j) circle)
  = skipn (S j) circle ++ firstn j circle.
Proof.
  intros Hj.
  assert (Hl : length (firstn j circle) = j)
    by (rewrite length_firstn; lia).
  rewrite rotn_split.
  - rewrite length_app, Hl, length_skipn.
    rewrite Nat.mod_small by lia.
    rewrite skipn_app, firstn_app, Hl, Nat.sub_diag.
    rewrite (skipn_all2 (firstn j circle)) by lia.
    rewrite (firstn_all2 (firstn j circle)) by lia.
    simpl. now rewrite app_nil_r.
  - intros E. apply (f_equal (@length Z)) in E.
    rewrite length_app, Hl, length_skipn in E. simpl in E. lia.
Qed.

(** The elimination loop on the tree follows the circle. *)
Lemma generateOST_loop_eliminate m fuel : forall ost current acc,
  1 <= m ->
  invariant ost ->
  size ost = Z.of_nat fuel ->
  size ost + m <= 2 ^ 31 ->
  0 <= current <= Z.max 0 (size ost - 1) ->
  generateOST_loop fuel m ost current acc
  = Ok (acc ++ eliminate fuel (Z.to_nat (m - 1))
                 (rotn (Z.to_nat current) (elements ost))).
Proof.
  induction fuel as [|fuel IH]; intros ost current acc Hm I Hf Hb Hc.
  - apply (empty_iff ost I) in Hf. simpl. rewrite Hf.
    now rewrite app_nil_r.
  - cbn [generateOST_loop].
    destruct (empty ost) eqn:Ee;
      [apply (empty_iff ost I) in Ee; lia|].
    rewrite (int_wrap_small (current + m)) by lia.
    rewrite (int_wrap_small (current + m - 1)) by lia.
    set (c1 := Z.rem (current + m - 1) (size ost)).
    assert (Hc1 : 0 <= c1 < size ost)
      by (apply Z.rem_bound_pos; lia).
    destruct (proj1 (select_spec (c1 + 1) ost I))
      as (key & Es & Hn); [lia|].
    rewrite Es. cbn [bind].
    replace (c1 + 1 - 1) with c1 in Hn by lia.
    destruct (remove_nth ost (Z.to_nat c1) key I Hn)
      as (ost' & Er & I' & El).
    rewrite Er. cbn [bind].
    pose proof (size_length ost I) as Hlen.
    set (circle := elements ost) in *.
    assert (Hs' : size ost' = Z.of_nat fuel).
    { rewrite (size_length ost' I'), El, length_app, length_firstn,
        length_skipn. lia. }
    rewrite IH; auto; try lia.
    + rewrite <- app_assoc. do 2 f_equal. cbn [app eliminate].
      assert (Hne : circle <> [])
        by (intros E0; rewrite E0 in Hlen; simpl in Hlen; lia).
      rewrite <- rotn_add, (rotn_split _ circle Hne).
      assert (Ej : ((Z.to_nat (m - 1) + Z.to_nat current)
                    mod length circle)%nat = Z.to_nat c1).
      { unfold c1. rewrite Z.rem_mod_nonneg by lia.
        rewrite Z2Nat.inj_mod by lia.
        rewrite Hlen, Nat2Z.id. f_equal.
        clear - Hm Hc. lia. }
      rewrite Ej.
      destruct (skipn_cons_nth circle _ _ Hn) as [E1 _].
      rewrite E1. cbn [app]. f_equal.
      destruct fuel as [|fuel]; [reflexivity|].
      f_equal. rewrite El.
      destruct (empty ost') eqn:Ee';
        [apply (empty_iff ost' I') in Ee'; lia|].
      destruct (Z.eq_dec c1 (size ost')) as [Elast|Nlast].
      * (* the last one left: the count starts again at the first *)
        rewrite Elast, Z.rem_same by lia. cbn [Z.to_nat rotn Nat.iter].
        rewrite skipn_all2 by lia. now rewrite app_nil_r.
      * rewrite Z.rem_small by lia. apply rotn_after. lia.
    + destruct (empty ost') eqn:Ee'.
      * apply (empty_iff ost' I') in Ee'. lia.
      * assert (0 < size ost').
        { destruct (Z.eq_dec (size ost') 0) as [Z0|]; [|lia].
          apply (empty_iff ost' I') in Z0. congruence. }
        pose proof (Z.rem_bound_pos c1 (size ost')). lia.
Qed.

Lemma positions_sorted n : StronglySorted Z.le (positions n).
Proof.
  unfold positions. generalize 0%nat.
  induction (Z.to_nat n) as [|c IH]; intros a; simpl; constructor; auto.
  rewrite Forall_forall. intros x Hx. apply in_map_iff in Hx.
  destruct Hx as (i & <- & Hi). apply in_seq in Hi. lia.
Qed.

(** [generateOST] returns the Josephus order. *)
Lemma generateOST_josephus n m :
  1 <= n -> 1 <= m -> n + m <= 2 ^ 31 ->
  generateOST n m = Ok (josephus n m).
Proof.
  intros Hn Hm Hb. unfold generateOST.
  destruct (initialize_spec (Z.to_nat n) 0 empty_tree empty_invariant)
    as (t0 & E0 & I0 & P0).
  change (Z.of_nat 0) with 0 in E0. rewrite E0. cbn [bind].
  simpl in P0. rewrite app_nil_r in P0.
  fold (positions n) in P0.
  assert (Et : elements t0 = positions n).
  { apply sorted_perm_eq; [|apply positions_sorted|exact P0].
    now destruct I0 as (_ & _ & _ & Hs). }
  assert (Hs : size t0 = n).
  { rewrite (size_length t0 I0), Et, positions_length. lia. }
  rewrite generateOST_loop_eliminate; auto; try lia.
  rewrite Et, Hs. reflexivity.
Qed.

End CircleOST.

Section CircleNaive.
Import Josephus JosephusProps.

Variable n : Z.
Hypothesis n_pos : 0 < n.

Lemma circ_length q : length (circ n q) = Z.to_nat n.
Proof. unfold circ. now rewrite length_map, length_seq. Qed.

Lemma circ_range q x : In x (circ n q) -> 0 <= x < n.
Proof.
  unfold circ. intros H. apply in_map_iff in H.
  destruct H as (i & <- & _). apply Z.mod_pos_bound. exact n_pos.
Qed.

(** The circle from [q] starts at [q]. *)
Lemma circ_head q :
  0 <= q < n -> exists rest, circ n q = q :: rest /\ ~ In q rest.
Proof.
  intros Hq. unfold circ.
  destruct (Z.to_nat n) as [|c] eqn:En; [lia|].
  cbn [seq map]. exists (map (fun i => (q + Z.of_nat i) mod n) (seq 1 c)).
  split.
  - f_equal. rewrite Z.add_0_r. apply Z.mod_small. exact Hq.
  - intros Hin. apply in_map_iff in Hin. destruct Hin as (i & Ei & Hi).
    apply in_seq in Hi.
    destruct (Z_lt_ge_dec (q + Z.of_nat i) n) as [Hlt|Hge].
    + rewrite Z.mod_small in Ei by lia. lia.
    + replace (q + Z.of_nat i) with (q + Z.of_nat i - n + 1 * n) in Ei
        by lia.
      rewrite Z.mod_add, Z.mod_small in Ei by lia. lia.
Qed.

(** One position on, the circle is one step on. *)
Lemma circ_next q :
  0 <= q < n -> circ n (Z.rem (q + 1) n) = rot1 (circ n q).
Proof.
  intros Hq. rewrite Z.rem_mod_nonneg by lia. unfold circ.
  destruct (Z.to_nat n) as [|c] eqn:En; [lia|].
  rewrite seq_S at 1. cbn [seq map rot1]. rewrite map_app. cbn [map].
  f_equal.
  - rewrite <- seq_shift, map_map. apply map_ext. intros i.
    rewrite Zplus_mod_idemp_l. f_equal. lia.
  - f_equal. rewrite Zplus_mod_idemp_l.
    replace (q + 1 + Z.of_nat (0 + c)) with (q + 1 * n) by lia.
    change (Z.of_nat 0) with 0. rewrite Z.add_0_r.
    rewrite Z.mod_add by lia. reflexivity.
Qed.

Variable alive : list bool.

Lemma ring_alive q :
  0 <= q < n -> at_ alive q = true ->
  exists rest, circ n q = q :: rest /\ ~ In q rest
               /\ ring alive n q = q :: filter (at_ alive) rest
               /\ ring alive n (Z.rem (q + 1) n)
                  = rot1 (ring alive n q).
Proof.
  intros Hq Ha. destruct (circ_head q Hq) as (rest & E & Hn).
  exists rest. split; [exact E|]. split; [exact Hn|].
  unfold ring. rewrite (circ_next q Hq), E. cbn [rot1 filter].
  rewrite filter_app. cbn [filter]. rewrite Ha. auto.
Qed.

Lemma ring_dead q :
  0 <= q < n -> at_ alive q = false ->
  ring alive n (Z.rem (q + 1) n) = ring alive n q.
Proof.
  intros Hq Ha. destruct (circ_head q Hq) as (rest & E & Hn).
  unfold ring. rewrite (circ_next q Hq), E. cbn [rot1 filter].
  rewrite filter_app. cbn [filter]. rewrite Ha. apply app_nil_r.
Qed.

Lemma filter_nonempty (l : list Z) :
  filter (at_ alive) l <> [] -> exists x, In x l /\ at_ alive x = true.
Proof.
  induction l as [|a l IH]; simpl; [congruence|].
  destruct (at_ alive a) eqn:Ea; [eauto|].
  intros H. destruct (IH H) as (x & Hx & Hax). eauto.
Qed.

Lemma lead_app (l l' : list Z) :
  (exists x, In x l /\ at_ alive x = true) ->
  lead alive (l ++ l') = lead alive l.
Proof.
  induction l as [|a l IH]; intros (x & Hx & Hax); [contradiction|].
  simpl. destruct (at_ alive a) eqn:Ea; [reflexivity|]. f_equal.
  apply IH. destruct Hx as [->|Hx]; [congruence|eauto].
Qed.

Lemma lead_lt (l : list Z) :
  (exists x, In x l /\ at_ alive x = true) ->
  (lead alive l < length l)%nat.
Proof.
  induction l as [|a l IH]; intros (x & Hx & Hax); [contradiction|].
  simpl. destruct (at_ alive a) eqn:Ea; [lia|].
  apply -> Nat.succ_lt_mono.
  apply IH. destruct Hx as [->|Hx]; [congruence|eauto].
Qed.

(** Past a position that has left, the next one standing is one
    position nearer. *)
Lemma lead_dead q :
  0 <= q < n -> at_ alive q = false -> ring alive n q <> [] ->
  lead alive (circ n q) = S (lead alive (circ n (Z.rem (q + 1) n))).
Proof.
  intros Hq Ha Hne. destruct (circ_head q Hq) as (rest & E & Hn).
  rewrite (circ_next q Hq), E. cbn [rot1 lead]. rewrite Ha. f_equal.
  symmetry. apply lead_app. apply filter_nonempty.
  unfold ring in Hne. rewrite E in Hne. cbn [filter] in Hne.
  now rewrite Ha in Hne.
Qed.

Lemma lead_bound q :
  ring alive n q <> [] -> Z.of_nat (lead alive (circ n q)) < n.
Proof.
  intros Hne. apply filter_nonempty in Hne. apply lead_lt in Hne.
  rewrite circ_length in Hne. lia.
Qed.

End CircleNaive.

Section NaiveLoops.
Import Josephus JosephusProps.

Variables n m : Z.
Hypothesis n_pos : 0 < n.

(** The counting loop stops at the [m]-th position still standing,
    the one it starts at included. *)
Lemma count_loop_spec alive fuel : forall count q,
  0 <= q < n -> 0 <= count < m -> ring alive n q <> [] ->
  (m - 1 - count) * n + Z.of_nat (lead alive (circ n q)) + 1
  <= Z.of_nat fuel ->
  exists e,
    count_loop fuel n m alive count q = Ok e
    /\ 0 <= e < n /\ at_ alive e = true
    /\ ring alive n e
       = rotn (Z.to_nat (m - 1 - count)) (ring alive n q).
Proof.
  induction fuel as [|fuel IH]; intros count q Hq Hc Hne Hfuel.
  - exfalso.
    assert (0 <= (m - 1 - count) * n) by (apply Z.mul_nonneg_nonneg; lia).
    lia.
  - cbn [count_loop].
    destruct (Z.ltb_spec count m) as [_|]; [|lia].
    assert (Hq' : 0 <= Z.rem (q + 1) n < n)
      by (apply Z.rem_bound_pos; lia).
    destruct (at_ alive q) eqn:Ea.
    + destruct (ring_alive n n_pos alive q Hq Ea)
        as (rest & Ec & _ & Er & En).
      destruct (Z.eqb_spec (count + 1) m) as [Em|Nm].
      * exists q. split; [reflexivity|]. split; [exact Hq|].
        split; [exact Ea|].
        now replace (m - 1 - count) with 0 by lia.
      * assert (Hne' : ring alive n (Z.rem (q + 1) n) <> []).
        { rewrite En, Er. simpl. now destruct (filter _ _). }
        pose proof (lead_bound n n_pos alive _ Hne') as Hl.
        destruct (IH (count + 1) (Z.rem (q + 1) n)) as (e & E & He & Hae & Hr);
          auto; try lia.
        exists e. split; [exact E|]. split; [exact He|].
        split; [exact Hae|].
        rewrite Hr, En, rotn_rot1. f_equal. lia.
    + pose proof (lead_dead n n_pos alive q Hq Ea Hne) as Hl.
      pose proof (ring_dead n n_pos alive q Hq Ea) as Er.
      destruct (IH count (Z.rem (q + 1) n)) as (e & E & He & Hae & Hr);
        auto; try lia.
      { now rewrite Er. }
      exists e. split; [exact E|]. split; [exact He|].
      split; [exact Hae|]. now rewrite Hr, Er.
Qed.

(** The loop that looks for the next one standing finds it. *)
Lemma skip_dead_spec alive fuel : forall q,
  0 <= q < n -> ring alive n q <> [] ->
  (lead alive (circ n q) <= fuel)%nat ->
  exists e,
    skip_dead fuel n alive q = Ok e
    /\ 0 <= e < n /\ at_ alive e = true
    /\ ring alive n e = ring alive n q.
Proof.
  induction fuel as [|fuel IH]; intros q Hq Hne Hfuel;
    cbn [skip_dead]; destruct (at_ alive q) eqn:Ea; eauto.
  - pose proof (lead_dead n n_pos alive q Hq Ea Hne). lia.
  - pose proof (lead_dead n n_pos alive q Hq Ea Hne) as Hl.
    pose proof (ring_dead n n_pos alive q Hq Ea) as Er.
    destruct (IH (Z.rem (q + 1) n)) as (e & E & He & Hae & Hr).
    + apply Z.rem_bound_pos; lia.
    + now rewrite Er.
    + lia.
    + exists e. rewrite Hr, Er. auto.
Qed.

Lemma clear_nth alive : forall i j,
  nth j (clear alive i) false
  = if Nat.eqb j i then false else nth j alive false.
Proof.
  induction alive as [|b alive IH]; intros i j.
  - simpl. destruct j, (Nat.eqb _ _); reflexivity.
  - destruct i as [|i], j as [|j]; simpl; auto.
Qed.

Lemma at_clear alive e x :
  0 <= e -> 0 <= x ->
  at_ (clear alive (Z.to_nat e)) x
  = if x =? e then false else at_ alive x.
Proof.
  intros He Hx. unfold at_. rewrite clear_nth.
  destruct (Z.eqb_spec x e) as [->|Ne].
  - now rewrite Nat.eqb_refl.
  - destruct (Nat.eqb_spec (Z.to_nat x) (Z.to_nat e)); [lia|reflexivity].
Qed.

(** Once the one at [e] has left, those standing from the next
    position on are those that stood behind [e]. *)
Lemma ring_clear alive e :
  0 <= e < n -> at_ alive e = true ->
  exists rest,
    ring alive n e = e :: rest
    /\ ring (clear alive (Z.to_nat e)) n (Z.rem (e + 1) n) = rest.
Proof.
  intros He Ha.
  destruct (ring_alive n n_pos alive e He Ha) as (tl & Ec & Hn & Er & _).
  exists (filter (at_ alive) tl). split; [exact Er|].
  unfold ring. rewrite (circ_next n n_pos e He), Ec. cbn [rot1].
  rewrite filter_app. cbn [filter].
  rewrite (at_clear alive e e) by lia. rewrite Z.eqb_refl, app_nil_r.
  apply filter_ext_in. intros x Hx.
  assert (Hr : 0 <= x < n).
  { apply (circ_range n n_pos e). rewrite Ec. now right. }
  rewrite at_clear by lia.
  destruct (Z.eqb_spec x e) as [->|]; [contradiction|reflexivity].
Qed.

Hypothesis m_pos : 1 <= m.

(** The simulation on the array follows the circle. *)
Lemma generateNaive_loop_eliminate fuel : forall alive current acc,
  (fuel <> O ->
   0 <= current < n /\ length (ring alive n current) = fuel) ->
  generateNaive_loop fuel n m alive current (Z.of_nat fuel) acc
  = Ok (acc ++ eliminate fuel (Z.to_nat (m - 1)) (ring alive n current)).
Proof.
  induction fuel as [|fuel IH]; intros alive current acc Hinv.
  - simpl. now rewrite app_nil_r.
  - cbn [generateNaive_loop].
    destruct (Z.ltb_spec 0 (Z.of_nat (S fuel))) as [_|]; [|lia].
    destruct Hinv as [Hc Hlen]; [discriminate|].
    assert (Hne : ring alive n current <> [])
      by (intros E; rewrite E in Hlen; discriminate).
    pose proof (lead_bound n n_pos alive _ Hne) as Hl.
    destruct (count_loop_spec alive (Z.to_nat (n * m)) 0 current)
      as (e & E & He & Hae & Hr); auto; try lia.
    rewrite E. cbn [bind].
    replace (m - 1 - 0) with (m - 1) in Hr by lia.
    destruct (ring_clear alive e He Hae) as (rest & Ee & Erest).
    cbn [eliminate]. rewrite <- Hr, Ee.
    replace (Z.of_nat (S fuel) - 1) with (Z.of_nat fuel) by lia.
    assert (Hrest : length rest = fuel).
    { apply (f_equal (@length Z)) in Hr.
      rewrite rotn_length, Ee, Hlen in Hr. simpl in Hr. lia. }
    destruct fuel as [|fuel].
    + change (Z.of_nat 0) with 0. reflexivity.
    + destruct (Z.ltb_spec 0 (Z.of_nat (S fuel))) as [_|]; [|lia].
      assert (Hq : 0 <= Z.rem (e + 1) n < n)
        by (apply Z.rem_bound_pos; lia).
      set (alive' := clear alive (Z.to_nat e)) in *.
      assert (Hne' : ring alive' n (Z.rem (e + 1) n) <> [])
        by (rewrite Erest; intros E0; rewrite E0 in Hrest; discriminate).
      pose proof (lead_bound n n_pos alive' _ Hne') as Hl'.
      destruct (skip_dead_spec alive' (Z.to_nat n) (Z.rem (e + 1) n))
        as (e2 & E2 & He2 & Hae2 & Hr2); auto; try lia.
      rewrite E2. cbn [bind].
      rewrite IH.
      * rewrite Hr2, Erest, <- app_assoc. reflexivity.
      * intros _. split; [exact He2|]. now rewrite Hr2, Erest.
Qed.

End NaiveLoops.

Section NaiveJosephus.
Import Josephus JosephusProps.

Lemma nth_repeat_true N : forall j,
  (j < N)%nat -> nth j (repeat true N) false = true.
Proof.
  induction N as [|N IH]; intros j Hj; [lia|].
  destruct j as [|j]; simpl; [reflexivity|]. apply IH. lia.
Qed.

Lemma filter_all {A : Type} (f : A -> bool) (l : list A) :
  (forall x, In x l -> f x = true) -> filter f l = l.
Proof.
  induction l as [|a l IH]; intros H; simpl; [reflexivity|].
  rewrite (H a) by now left. f_equal. apply IH. intros x Hx.
  apply H. now right.
Qed.

(** At the start everyone stands, and the circle starts at 0. *)
Lemma ring_start n :
  0 < n -> ring (repeat true (Z.to_nat n)) n 0 = positions n.
Proof.
  intros Hn. unfold ring. rewrite filter_all.
  - unfold circ, positions. apply map_ext_in. intros i Hi.
    apply in_seq in Hi. rewrite Z.add_0_l. apply Z.mod_small. lia.
  - intros x Hx. apply (circ_range n Hn) in Hx. unfold at_.
    apply nth_repeat_true. lia.
Qed.

(** [generateNaive] returns the Josephus order. *)
Lemma generateNaive_josephus n m :
  1 <= n -> 1 <= m -> generateNaive n m = Ok (josephus n m).
Proof.
  intros Hn Hm. unfold generateNaive, josephus.
  assert (Hp : 0 < n) by lia.
  destruct (Z.ltb_spec n 0) as [Hneg|_]; [lia|].
  pose proof (generateNaive_loop_eliminate n m Hp Hm (Z.to_nat n)
                (repeat true (Z.to_nat n)) 0 []) as H.
  rewrite Z2Nat.id, (ring_start n Hp) in H by lia.
  apply H. intros _. split; [lia|]. apply positions_length.
Qed.

End NaiveJosephus.


(* ------------------------------------------------------------------ *)
(** * Proofs: order and counting *)

Section Counting.
Import OST OSTProps.

Lemma filter_length_perm {A : Type} (f : A -> bool) (l l' : list A) :
  Permutation l l' -> length (filter f l) = length (filter f l').
Proof.
  induction 1 as [|a l l' _ IH|a b l|l l' l'' _ IH1 _ IH2]; simpl.
  - reflexivity.
  - destruct (f a); simpl; congruence.
  - destruct (f a), (f b); reflexivity.
  - congruence.
Qed.

Lemma count_lt_perm key l l' :
  Permutation l l' -> count_lt key l = count_lt key l'.
Proof. intros P. unfold count_lt. now rewrite (filter_length_perm _ _ _ P). Qed.

Lemma count_le_perm key l l' :
  Permutation l l' -> count_le key l = count_le key l'.
Proof. intros P. unfold count_le. now rewrite (filter_length_perm _ _ _ P). Qed.

Lemma filter_none {A : Type} (f : A -> bool) (l : list A) :
  Forall (fun a => f a = false) l -> filter f l = [].
Proof.
  induction 1 as [|a l Ha _ IH]; simpl; [reflexivity|]. now rewrite Ha.
Qed.

Lemma filter_all_true {A : Type} (f : A -> bool) (l : list A) :
  Forall (fun a => f a = true) l -> filter f l = l.
Proof.
  induction 1 as [|a l Ha _ IH]; simpl; [reflexivity|].
  rewrite Ha. now f_equal.
Qed.

(** In a sorted list, what stands at a place bounds what stands before
    and behind it. *)
Lemma sorted_split (l1 l2 : list Z) key :
  StronglySorted Z.le (l1 ++ key :: l2) ->
  Forall (fun a => a <= key) l1 /\ Forall (fun b => key <= b) l2.
Proof.
  intros H. apply sorted_app in H. destruct H as (_ & H2 & H12).
  apply sorted_cons_iff in H2. destruct H2 as [_ H2]. split; [|exact H2].
  rewrite Forall_forall. intros a Ha. apply H12; [exact Ha|now left].
Qed.

(** The place of a key in a sorted list, counted from 1, is above the
    number of smaller keys and not above the number of keys not
    greater. *)
Lemma sorted_place l i key :
  StronglySorted Z.le l -> nth_error l i = Some key ->
  count_lt key l < Z.of_nat i + 1 <= count_le key l.
Proof.
  intros Hs Hn. destruct (nth_error_split l i Hn) as (l1 & l2 & -> & Hl).
  destruct (sorted_split l1 l2 key Hs) as [H1 H2].
  unfold count_lt, count_le. rewrite !filter_app. cbn [filter].
  rewrite Z.ltb_irrefl, Z.leb_refl.
  rewrite (filter_none (fun a => a <? key) l2).
  2:{ eapply Forall_impl; [|exact H2]. simpl. intros b Hb.
      apply Z.ltb_ge. exact Hb. }
  rewrite (filter_all_true (fun a => a <=? key) l1).
  2:{ eapply Forall_impl; [|exact H1]. simpl. intros b Hb.
      apply Z.leb_le. exact Hb. }
  rewrite app_nil_r, !length_app. cbn [length].
  pose proof (filter_length_le (fun a => a <? key) l1). lia.
Qed.

Lemma count_le_occ key l :
  count_le key l = count_lt key l + Z.of_nat (count_occ Z.eq_dec l key).
Proof.
  unfold count_le, count_lt.
  induction l as [|a l IH]; [reflexivity|]. cbn [filter count_occ].
  destruct (Z.eq_dec a key) as [->|Ne].
  - rewrite Z.leb_refl, Z.ltb_irrefl. cbn [length]. lia.
  - destruct (Z.leb_spec a key), (Z.ltb_spec a key); cbn [length]; lia.
Qed.

Lemma count_occ_perm key (l l' : list Z) :
  Permutation l l' -> count_occ Z.eq_dec l key = count_occ Z.eq_dec l' key.
Proof.
  induction 1 as [|a l l' _ IH|a b l|l l' l'' _ IH1 _ IH2]; simpl.
  - reflexivity.
  - destruct (Z.eq_dec a key); congruence.
  - destruct (Z.eq_dec a key), (Z.eq_dec b key); reflexivity.
  - congruence.
Qed.

Lemma sorted_nth_le (l : list Z) : forall i j a b,
  StronglySorted Z.le l -> (i <= j)%nat ->
  nth_error l i = Some a -> nth_error l j = Some b -> a <= b.
Proof.
  induction l as [|x l IH]; intros i j a b Hs Hij Ha Hb;
    [destruct i; discriminate|].
  apply sorted_cons_iff in Hs. destruct Hs as [Hs Hx].
  destruct i as [|i], j as [|j]; simpl in Ha, Hb.
  - inversion Ha; inversion Hb; subst. lia.
  - inversion Ha; subst. rewrite Forall_forall in Hx. apply Hx.
    eapply nth_error_In; eauto.
  - lia.
  - eapply (IH i j); eauto. lia.
Qed.

(** Two lists strictly sorted by a key that hold the same elements are
    the same list. *)
Lemma strict_sorted_perm_eq {A : Type} (f : A -> Z) (l : list A) :
  forall l',
  StronglySorted Z.lt (map f l) -> StronglySorted Z.lt (map f l') ->
  Permutation l l' -> l = l'.
Proof.
  induction l as [|a l IH]; intros l' Hs Hs' P.
  - apply Permutation_nil in P. auto.
  - destruct l' as [|b l'];
      [apply Permutation_sym, Permutation_nil in P; discriminate|].
    simpl in Hs, Hs'. apply StronglySorted_inv in Hs, Hs'.
    destruct Hs as [Hs Ha], Hs' as [Hs' Hb].
    rewrite Forall_forall in Ha, Hb.
    assert (Eab : a = b).
    { assert (Hia : In a (b :: l'))
        by (eapply Permutation_in; [exact P|now left]).
      assert (Hib : In b (a :: l))
        by (eapply Permutation_in; [symmetry; exact P|now left]).
      simpl in Hia, Hib.
      destruct Hia as [Hia|Hia]; [auto|].
      destruct Hib as [Hib|Hib]; [auto|].
      specialize (Ha _ (in_map f _ _ Hib)).
      specialize (Hb _ (in_map f _ _ Hia)). lia. }
    subst b. f_equal. apply IH; auto.
    eapply Permutation_cons_inv; eauto.
Qed.

End Counting.

Section POMMore.
Import POM POMProps.

(** [search] reads the [start] and the [end] of the interval it is
    given, and nothing else. *)
Lemma pom_search_span iv iv' (x : POMNode) : forall path,
  start iv = start iv' -> end_ iv = end_ iv' ->
  search x path iv = search x path iv'.
Proof.
  intros path Es Ee. revert path.
  induction x as [|k c d l IHl r IHr]; intros path; cbn [search];
    [reflexivity|].
  unfold lt. rewrite <- Es, <- Ee.
  destruct (_ && _); [reflexivity|].
  destruct (start iv <? start (interval k)); auto.
Qed.

Lemma pom_remove_span iv iv' (t : POMTree) :
  start iv = start iv' -> end_ iv = end_ iv' ->
  remove iv t = remove iv' t.
Proof.
  intros Es Ee. unfold remove.
  now rewrite (pom_search_span iv iv' (root t) [] Es Ee).
Qed.

(** [place] on a list in order. *)
Lemma place_split iv (l1 l2 : list Interval) :
  Forall (fun a => start a <= start iv) l1 ->
  Forall (fun b => start iv < start b) l2 ->
  place iv (l1 ++ l2) = l1 ++ iv :: l2.
Proof.
  intros H1 H2. induction H1 as [|a l1 Ha _ IH]; simpl.
  - destruct H2 as [|b l2 Hb _]; simpl; [reflexivity|].
    unfold lt. destruct (Z.ltb_spec (start iv) (start b)); [reflexivity|lia].
  - unfold lt. destruct (Z.ltb_spec (start iv) (start a)); [lia|].
    now rewrite IH.
Qed.

(** What one [insert] and one [remove] do to the intervals of a sound
    tree and to its sum. *)
Lemma pom_insert_sum iv (t : POMTree) :
  invariant t -> aug_ok (root t) -> addrs_ok t ->
  Forall above_min (intervals t) ->
  exists t1,
    insert iv t = Ok t1
    /\ intervals t1 = place iv (intervals t)
    /\ (above_min iv -> getSum t1 = getSum t + value iv).
Proof.
  intros I Ha Hd Hv.
  destruct (pom_insert_spec iv t I)
    as (t1 & E1 & I1 & P & A1 & l1 & l2 & El & El1 & Hle & Hgt).
  destruct (A1 Ha Hd) as [Ha1 _].
  exists t1. split; [exact E1|].
  assert (Ei : intervals t1 = place iv (intervals t)).
  { unfold intervals. rewrite El, El1, !map_app. cbn [map interval].
    symmetry. apply place_split.
    - rewrite Forall_map in *. exact Hle.
    - rewrite Forall_map in *. exact Hgt. }
  split; [exact Ei|].
  intros Hiv.
  assert (Hv1 : Forall above_min (intervals t1)).
  { apply (Permutation_Forall P). now constructor. }
  destruct (root_summary t (consistent_summaries _ Ha Hv)) as [_ Eg].
  destruct (root_summary t1 (consistent_summaries _ Ha1 Hv1)) as [_ Eg1].
  rewrite Eg1, Eg, <- (sum_values_perm _ _ P), sum_values_cons. lia.
Qed.

Lemma pom_remove_sum iv (t : POMTree) :
  invariant t -> aug_ok (root t) -> addrs_ok t ->
  Forall above_min (intervals t) ->
  exists t2,
    remove iv t = Ok t2
    /\ (t2 = t
        \/ exists l1 k l2,
             intervals t = l1 ++ k :: l2
             /\ same_span iv k = true
             /\ intervals t2 = l1 ++ l2
             /\ getSum t2 = getSum t - value k).
Proof.
  intros I Ha Hd Hv.
  destruct (pom_remove_spec iv t I) as (t2 & E2 & I2 & C & A2).
  destruct (A2 Ha Hd) as [Ha2 _].
  exists t2. split; [exact E2|].
  destruct C as [[-> _]|(l1 & k & l2 & E1 & Em & E3)]; [now left|right].
  exists (map interval l1), (interval k), (map interval l2).
  assert (Ei : intervals t = map interval l1 ++ interval k :: map interval l2)
    by (unfold intervals; now rewrite E1, map_app).
  assert (Ei2 : intervals t2 = map interval l1 ++ map interval l2)
    by (unfold intervals; now rewrite E3, map_app).
  split; [exact Ei|]. split; [exact Em|]. split; [exact Ei2|].
  assert (Hv2 : Forall above_min (intervals t2)).
  { rewrite Ei2. rewrite Ei in Hv. apply Forall_app in Hv.
    destruct Hv as [H1 H2]. inversion H2; subst. apply Forall_app. auto. }
  destruct (root_summary t (consistent_summaries _ Ha Hv)) as [_ Eg].
  destruct (root_summary t2 (consistent_summaries _ Ha2 Hv2)) as [_ Eg2].
  rewrite Eg2, Eg, Ei, Ei2, !sum_values_app, sum_values_cons. lia.
Qed.

End POMMore.

Section Leftmost.

Context {K D : Type}.

(** [minimum(x)] is the first node of the subtree in order, and has no
    left child. *)
Lemma minimum_first (x : node K D) path :
  x <> nil ->
  exists k c d r ypath,
    minimum x path = (Node k c d nil r, ypath)
    /\ plug (Node k c d nil r) ypath = plug x path
    /\ exists rest, elements x = k :: rest.
Proof.
  intros Hx. destruct (minimum x path) as [y ypath] eqn:E.
  destruct (minimum_leftmost _ _ _ _ E Hx)
    as [(k & c & d & r & ->) (p & -> & Hb & _)].
  exists k, c, d, r, (p ++ path). split; [reflexivity|].
  split; [exact (minimum_plug _ _ _ _ E)|].
  apply minimum_descent, descent_elements in E.
  destruct E as (l1 & l2 & El & Eb & _).
  rewrite before_app, Hb in Eb.
  assert (l1 = []).
  { apply (f_equal (@length K)) in Eb. rewrite !length_app in Eb.
    simpl in Eb. destruct l1; [reflexivity|simpl in Eb; lia]. }
  subst l1. simpl in El. eauto.
Qed.

End Leftmost.

Section JosephusMore.
Import OST OSTProps Josephus JosephusProps.

(** The filling loop leaves the positions [0 .. n-1] in the tree. *)
Lemma initialize_positions n :
  exists t, initialize 0 (Z.to_nat n) empty_tree = Ok t
            /\ invariant t /\ elements t = positions n.
Proof.
  destruct (initialize_spec (Z.to_nat n) 0 empty_tree empty_invariant)
    as (t0 & E0 & I0 & P0).
  change (Z.of_nat 0) with 0 in E0. exists t0.
  split; [exact E0|]. split; [exact I0|].
  simpl in P0. rewrite app_nil_r in P0. fold (positions n) in P0.
  apply sorted_perm_eq; [|apply positions_sorted|exact P0].
  now destruct I0 as (_ & _ & _ & Hs).
Qed.

Lemma positions_nth n j :
  nth_error (positions n) j
  = if (j <? Z.to_nat n)%nat then Some (Z.of_nat j) else None.
Proof.
  unfold positions. rewrite nth_error_map, nth_error_seq.
  now destruct (j <? Z.to_nat n)%nat.
Qed.

(** With nobody to pass, the one the count starts at leaves. *)
Lemma eliminate_zero fuel : forall l,
  eliminate fuel 0 l = firstn fuel l.
Proof.
  induction fuel as [|fuel IH]; intros l; [reflexivity|].
  change (eliminate (S fuel) 0 l)
    with (match l with [] => [] | e :: rest => e :: eliminate fuel 0 rest end).
  destruct l as [|e l]; [reflexivity|].
  cbn [firstn]. now rewrite IH.
Qed.

Lemma josephus_first n m :
  m <= 1 -> josephus n m = positions n.
Proof.
  intros Hm. unfold josephus.
  replace (Z.to_nat (m - 1)) with 0%nat by lia.
  rewrite eliminate_zero. apply firstn_all2. now rewrite positions_length.
Qed.




End JosephusMore.

Section Recurrence.
Import Josephus JosephusProps.

Lemma rot1_map (f : Z -> Z) l : rot1 (map f l) = map f (rot1 l).
Proof.
  destruct l as [|x l]; [reflexivity|]. simpl. now rewrite map_app.
Qed.

Lemma rotn_map (f : Z -> Z) k : forall l,
  rotn k (map f l) = map f (rotn k l).
Proof.
  induction k as [|k IH]; intros l; [reflexivity|].
  now rewrite !rotn_S, IH, rot1_map.
Qed.

(** Renaming the positions renames the order in which they leave. *)
Lemma eliminate_map (f : Z -> Z) k fuel : forall l,
  eliminate fuel k (map f l) = map f (eliminate fuel k l).
Proof.
  induction fuel as [|fuel IH]; intros l; [reflexivity|].
  cbn [eliminate]. rewrite rotn_map.
  destruct (rotn k l) as [|e rest]; [reflexivity|].
  cbn [map]. now rewrite IH.
Qed.

Lemma firstn_seq_0 j N : (j <= N)%nat -> firstn j (seq 0 N) = seq 0 j.
Proof.
  intros H. replace N with (j + (N - j))%nat by lia.
  rewrite seq_app, firstn_app, length_seq, Nat.sub_diag.
  rewrite firstn_all2 by (rewrite length_seq; lia).
  simpl. apply app_nil_r.
Qed.

Lemma seq_add a len :
  seq a len = map (fun i => (a + i)%nat) (seq 0 len).
Proof.
  induction a as [|a IH].
  - simpl. symmetry. apply map_id.
  - rewrite <- seq_shift, IH, map_map. reflexivity.
Qed.

Lemma step_mod n m i :
  0 < n -> (i + m) mod n = (i + 1 + (m - 1) mod n) mod n.
Proof.
  intros Hn. rewrite Zplus_mod_idemp_r. f_equal. lia.
Qed.

(** The circle once the first one has left, from the next one on, is
    the circle of one fewer, renamed. *)
Lemma circle_after n m :
  2 <= n -> 1 <= m ->
  rotn (Z.to_nat (m - 1)) (positions n)
  = (m - 1) mod n
    :: map (fun i => (i + m) mod n) (positions (n - 1)).
Proof.
  intros Hn Hm.
  assert (Hne : positions n <> []).
  { intros E. apply (f_equal (@length Z)) in E.
    rewrite positions_length in E. simpl in E. lia. }
  rewrite (rotn_split _ _ Hne), positions_length.
  set (N := Z.to_nat n).
  set (j := (Z.to_nat (m - 1) mod N)%nat).
  assert (HN : (2 <= N)%nat) by lia.
  assert (Hj : (j < N)%nat) by (apply Nat.mod_upper_bound; lia).
  assert (EJ : Z.of_nat j = (m - 1) mod n).
  { unfold j, N. rewrite <- Z2Nat.inj_mod by lia.
    rewrite Z2Nat.id; [reflexivity|]. apply Z.mod_pos_bound. lia. }
  assert (En : n = Z.of_nat N) by lia.
  unfold positions. fold N.
  replace (Z.to_nat (n - 1)) with (N - 1)%nat by lia.
  rewrite skipn_map, firstn_map, skipn_seq, firstn_seq_0 by lia.
  replace (N - j)%nat with (S (N - 1 - j)) by lia.
  cbn [seq map app]. rewrite Nat.add_0_l, EJ. f_equal.
  rewrite map_map.
  replace (N - 1)%nat with ((N - 1 - j) + j)%nat at 2 by lia.
  rewrite seq_app, map_app. f_equal.
  - rewrite (seq_add (S j)), map_map. apply map_ext_in. intros i Hi.
    apply in_seq in Hi. rewrite step_mod, <- EJ by lia.
    rewrite Z.mod_small by lia. lia.
  - rewrite Nat.add_0_l, (seq_add (N - 1 - j)), map_map.
    apply map_ext_in. intros i Hi. apply in_seq in Hi.
    rewrite step_mod, <- EJ by lia.
    replace (Z.of_nat (N - 1 - j + i) + 1 + Z.of_nat j)
      with (Z.of_nat i + 1 * n) by lia.
    rewrite Z.mod_add, Z.mod_small by lia. reflexivity.
Qed.

(** The Josephus order of [n], from that of [n - 1]. *)
Lemma josephus_step n m :
  2 <= n -> 1 <= m ->
  josephus n m
  = (m - 1) mod n
    :: map (fun i => (i + m) mod n) (josephus (n - 1) m).
Proof.
  intros Hn Hm. unfold josephus.
  replace (Z.to_nat n) with (S (Z.to_nat (n - 1))) by lia.
  cbn [eliminate]. rewrite (circle_after n m Hn Hm).
  now rewrite eliminate_map.
Qed.

Lemma josephus_one m : josephus 1 m = [0].
Proof.
  unfold josephus. change (Z.to_nat 1) with 1%nat.
  change (positions 1) with [0]. cbn [eliminate].
  assert (E : rotn (Z.to_nat (m - 1)) [0] = [0]).
  { generalize (Z.to_nat (m - 1)). intros k.
    induction k as [|k IH]; [reflexivity|]. now rewrite rotn_S, IH. }
  now rewrite E.
Qed.

Lemma josephus_length n m : length (josephus n m) = Z.to_nat n.
Proof.
  unfold josephus.
  assert (H : forall fuel l, length l = fuel ->
                length (eliminate fuel (Z.to_nat (m - 1)) l) = fuel).
  { induction fuel as [|fuel IH]; intros l Hl; [reflexivity|].
    cbn [eliminate].
    pose proof (rotn_length (Z.to_nat (m - 1)) l) as Hr.
    destruct (rotn _ l) as [|e rest]; simpl in *; [lia|].
    rewrite IH; lia. }
  apply H. apply positions_length.
Qed.

Lemma last_map_cons (f : Z -> Z) a d d' (l : list Z) :
  l <> [] -> last (a :: map f l) d = f (last l d').
Proof.
  intros Hne. revert a. induction l as [|b l IH]; intros a; [congruence|].
  destruct l as [|c l]; [reflexivity|].
  change (last (a :: map f (b :: c :: l)) d)
    with (last (f b :: map f (c :: l)) d).
  rewrite IH by discriminate. reflexivity.
Qed.

End Recurrence.

(* ------------------------------------------------------------------ *)
(** * Proofs: where [insert] hangs the new node *)

(** The walk of [insert] ends at a leaf position that has every key not
    greater than the new one before it and every greater key behind it:
    a key equal to one passed on the way went to the right of it. The
    fix-up leaves the new key at that place of the order. *)
Section Routing.

Lemma insert_place key (t : OST.OrderStatisticTree) :
  OSTProps.invariant t ->
  Forall (fun a => a <= key) (Shape.before (OST.insert_walk key t []))
  /\ Forall (fun b => key < b) (Shape.after (OST.insert_walk key t []))
  /\ elements t = Shape.before (OST.insert_walk key t [])
                  ++ Shape.after (OST.insert_walk key t [])
  /\ exists t', OST.insert key t = Ok t'
                /\ elements t'
                   = Shape.before (OST.insert_walk key t [])
                     ++ key :: Shape.after (OST.insert_walk key t []).
Proof.
  intros I. destruct (insert_spec key t I) as (t' & E & _ & _).
  destruct I as (_ & _ & _ & Ho).
  destruct (insert_walk_order key t [] Ho) as [Ob Oa];
    [constructor | constructor |].
  split; [exact Ob|]. split; [exact Oa|].
  pose proof (insert_walk_descent key t []) as Hd.
  apply descent_elements in Hd. destruct Hd as (l1 & l2 & El & Eb & Ea).
  simpl in El, Eb, Ea. rewrite app_nil_r in Ea.
  split; [now rewrite Eb, Ea|].
  exists t'. split; [exact E|].
  unfold OST.insert, OST.insertFixup in E.
  rewrite (elements_insertFixup _ _ _ _ _ E), elements_plug. reflexivity.
Qed.

Lemma pom_insert_place iv (t : POM.POMTree) :
  POMProps.invariant t ->
  Forall (fun a => POMProps.start_of a <= POM.start iv)
    (Shape.before (POM.insert_walk iv (POM.root t) []))
  /\ Forall (fun b => POM.start iv < POMProps.start_of b)
       (Shape.after (POM.insert_walk iv (POM.root t) []))
  /\ elements (POM.root t)
     = Shape.before (POM.insert_walk iv (POM.root t) [])
       ++ Shape.after (POM.insert_walk iv (POM.root t) [])
  /\ exists t', POM.insert iv t = Ok t'
                /\ elements (POM.root t')
                   = Shape.before (POM.insert_walk iv (POM.root t) [])
                     ++ {| POM.addr := POM.fresh t; POM.interval := iv |}
                        :: Shape.after (POM.insert_walk iv (POM.root t) []).
Proof.
  intros I. destruct (pom_insert_spec iv t I) as (t' & E & _).
  destruct I as (_ & _ & Ho).
  destruct (pom_insert_walk_order iv (POM.root t) [] Ho) as [Ob Oa];
    [constructor | constructor |].
  rewrite Forall_map in Ob, Oa.
  split; [exact Ob|]. split; [exact Oa|].
  pose proof (pom_insert_walk_descent iv (POM.root t) []) as Hd.
  apply descent_elements in Hd. destruct Hd as (l1 & l2 & El & Eb & Ea).
  simpl in El, Eb, Ea. rewrite app_nil_r in Ea.
  split; [now rewrite Eb, Ea|].
  exists t'. split; [exact E|].
  unfold POM.insert in E.
  apply bind_Ok in E. destruct E as (r1 & E1 & E).
  apply bind_Ok in E. destruct E as (r2 & E2 & E).
  injection E as <-. cbn [POM.root].
  unfold POM.insertFixup in E1.
  pose proof (elements_insertFixup _ _ _ _ _ E1) as Et.
  rewrite elements_plug in Et. cbn [elements POM.new_node app] in Et.
  destruct (updateAncestors_at_shape (POM.fresh t) r1) as (r2' & E2' & Er).
  { right. exists {| POM.addr := POM.fresh t; POM.interval := iv |}.
    split; [|reflexivity]. rewrite Et. apply in_elt. }
  rewrite E2 in E2'. injection E2' as <-.
  now rewrite <- (erase_elements r2), Er, erase_elements.
Qed.

End Routing.


(* ------------------------------------------------------------------ *)
(** * The properties of the specification *)

Section OrderLemmas.

Context {K D : Type} (proj : K -> Z).

Lemma sorted_bst (t : node K D) :
  Shape.inorder_sorted proj t -> Shape.bst proj t.
Proof.
  unfold Shape.inorder_sorted.
  induction t as [|k c d l IHl r IHr]; simpl; [auto|].
  rewrite map_app. simpl. intros H.
  apply sorted_app in H. destruct H as (Hl & Hr & Hlr).
  apply sorted_cons_iff in Hr. destruct Hr as [Hr Hkr].
  repeat split; auto.
  - rewrite Forall_forall. intros a Ha. apply Hlr; [now apply in_map|].
    now left.
  - rewrite Forall_forall in *. intros b Hb. apply Hkr. now apply in_map.
Qed.

End OrderLemmas.

(** C1 (as stated, refuted): for [n = 7], [m = 3] both generators return
  [2,5,1,6,4,0,3]; the sequence [2,5,1,6,3,0,4] of the specification is returned
  by neither. *)
Lemma C1_golden_sequence_differs :
Josephus.generateOST 7 3 = Ok [2; 5; 1; 6; 4; 0; 3]
/\ Josephus.generateNaive 7 3 = Ok [2; 5; 1; 6; 4; 0; 3]
/\ [2; 5; 1; 6; 4; 0; 3] <> [2; 5; 1; 6; 3; 0; 4].
Proof. repeat split; [vm_compute; reflexivity ..|discriminate]. Qed.

(** C1 (amended): for every [n] in {7, 10, 12, 15} and [m] in
  {2, 3, 4, 5}, [generateOST(n, m)] and [generateNaive(n, m)] return the
  same elimination sequence, so that [verify(n, m)] is [true]; for
  [n = 7], [m = 3] that sequence is [2,5,1,6,4,0,3]. *)
Theorem C1_generators_agree :
(forall n m,
    In n JosephusProps.tested_n -> In m JosephusProps.tested_m ->
    (exists l, Josephus.generateOST n m = Ok l
               /\ Josephus.generateNaive n m = Ok l)
    /\ Josephus.verify n m = Ok true)
/\ Josephus.generateOST 7 3 = Ok [2; 5; 1; 6; 4; 0; 3]
/\ Josephus.generateNaive 7 3 = Ok [2; 5; 1; 6; 4; 0; 3].
Proof.
split; [|split; vm_compute; reflexivity].
intros n m Hn Hm. simpl in Hn, Hm.
repeat match goal with
       | H : _ \/ _ |- _ => destruct H as [H|H]
       | H : False |- _ => contradiction H
       end; subst n m;
  (split; [eexists; split; vm_compute; reflexivity
          | vm_compute; reflexivity]).
Qed.

Lemma C1_generators_agree_witness :
(exists l, Josephus.generateOST 10 4 = Ok l
           /\ Josephus.generateNaive 10 4 = Ok l)
/\ Josephus.verify 10 4 = Ok true.
Proof.
apply (proj1 C1_generators_agree 10 4); simpl; auto.
Defined.

(** C2: inserting [0,5) with value 10, [5,10) with -5, [10,15) with 8 and
  [15,20) with -3, in that order, into an empty interval tree gives
  [getSum() == 10] and a [findPOM()] with [maxpref == 13] and
  [argmax == 10]: the greatest of the running sums 10, 5, 13, 10 of the
  values in order, and the start of the interval where it is reached. *)
Theorem C2_interval_example :
exists t,
  POM.run POMProps.example_intervals POM.empty_tree = Ok t
  /\ POM.getSum t = 10
  /\ POM.findPOM t
     = {| POM.sum := 10; POM.maxpref := 13; POM.argmax := 10 |}
  /\ map POM.value (POMProps.intervals t) = [10; -5; 8; -3]
  /\ map fst (POMProps.prefix_sums 0 (POMProps.intervals t))
     = [10; 5; 13; 10]
  /\ POMProps.best_prefix (POMProps.intervals t) = Some (13, 10).
Proof. eexists. repeat split; vm_compute; reflexivity. Qed.

(** C3 (the code at the failing input): after [5,6), [5,7) and [5,8) are
  inserted, the rotation of the third insertion leaves [5,6) in the left
  subtree of [5,7); [search] for [5,6) goes right at the root, so
  [remove] finds nothing and [getSum()] stays 7, while the values of the
  intervals inserted and not removed add up to 6. *)
Theorem C3_remove_misses_equal_start :
exists t,
  POM.run POMProps.equal_starts POM.empty_tree = Ok t
  /\ POM.getSum t = 7
  /\ POMProps.sum_values (POMProps.live POMProps.equal_starts) = 6
  /\ map POM.end_ (POMProps.intervals t) = [6; 7; 8].
Proof. eexists. repeat split; vm_compute; reflexivity. Qed.

(** C4 (as stated, refuted): after [insert(5); insert(5)] the tree holds
  two keys, [select(2)] is 5 and [rank(5)] is 1, not 2. *)
Lemma C4_rank_of_select_duplicate :
exists t,
  OST.run [OST.Insert 5; OST.Insert 5] OST.empty_tree = Ok t
  /\ OST.size t = 2
  /\ fst (OST.select 2 t) = Ok 5
  /\ OST.rank 5 t = 1.
Proof. eexists. repeat split; vm_compute; reflexivity. Qed.

(** C4 (amended): for every order-statistics tree reached by a sequence
  of inserts and removes, [select(rank(key)) == key] for every key
  present, and, when no key is present twice, [rank(select(k)) == k]
  for every [k] in [1, size()]. *)
Theorem C4_select_rank_inverse :
forall ops,
exists t,
  OST.run ops OST.empty_tree = Ok t
  /\ (forall key, In key (OSTProps.live ops) ->
        fst (OST.select (OST.rank key t) t) = Ok key)
  /\ (NoDup (OSTProps.live ops) ->
      forall k, 1 <= k <= OST.size t ->
        exists key, fst (OST.select k t) = Ok key /\ OST.rank key t = k).
Proof.
intros ops. destruct (run_invariant ops) as (t & E & Inv & P).
exists t. split; [exact E|]. split.
- intros key Hk.
  assert (Hi : In key (elements t))
    by (eapply Permutation_in; [symmetry|]; eauto).
  destruct (rank_spec key t Inv Hi) as (i & Er & Hn).
  pose proof Inv as (_ & _ & Hs & _).
  assert (Hlt : (i < length (elements t))%nat)
    by (apply nth_error_Some; congruence).
  destruct (proj1 (select_spec (OST.rank key t) t Inv))
    as (key' & Es & Hn').
  { unfold OST.size. rewrite (getSize_length t Hs). lia. }
  rewrite Es. simpl. rewrite Er in Hn'.
  replace (Z.to_nat (Z.of_nat i + 1 - 1)) with i in Hn' by lia. congruence.
- intros Hnd k Hk.
  destruct (proj1 (select_spec k t Inv) Hk) as (key & Es & Hn).
  exists key. rewrite Es. split; [reflexivity|].
  assert (Hi : In key (elements t)) by (eapply nth_error_In; eauto).
  destruct (rank_spec key t Inv Hi) as (i & Er & Hn').
  assert (Hnd' : NoDup (elements t))
    by (eapply Permutation_NoDup; [symmetry|]; eauto).
  assert (i = Z.to_nat (k - 1)).
  { eapply (proj1 (NoDup_nth_error (elements t)) Hnd').
    - apply nth_error_Some. congruence.
    - congruence. }
  lia.
Qed.

Lemma C4_select_rank_inverse_witness :
fst (OST.select (OST.rank 3 (Node 3 BLACK 1 nil nil)) (Node 3 BLACK 1 nil nil))
= Ok 3
/\ exists key, fst (OST.select 1 (Node 3 BLACK 1 nil nil)) = Ok key
               /\ OST.rank key (Node 3 BLACK 1 nil nil) = 1.
Proof.
destruct (C4_select_rank_inverse [OST.Insert 3]) as (t & E & H1 & H2).
injection E as <-. split.
- apply H1. simpl. auto.
- apply H2.
  + repeat constructor. simpl. tauto.
  + unfold OST.size. simpl. lia.
Defined.

(** C5: for every order-statistics tree reached by a sequence of inserts
  and removes, every node's [size] is 1 + size(left) + size(right), the
  sentinel counting 0, and [size()] is the number of keys inserted and
  not removed, each counted as often as it is there. *)
Theorem C5_sizes :
forall ops,
exists t,
  OST.run ops OST.empty_tree = Ok t
  /\ OSTProps.sizes_ok t
  /\ OST.size t = Z.of_nat (length (OSTProps.live ops)).
Proof.
intros ops. destruct (run_invariant ops) as (t & E & Inv & P).
exists t. split; [exact E|].
pose proof Inv as (_ & _ & Hs & _). split; [exact Hs|].
unfold OST.size. rewrite (getSize_length t Hs).
now rewrite (Permutation_length P).
Qed.

(** C6: for both trees, after every sequence of inserts and removes the
  root is black, no red node has a red child, and every path from the
  root to a leaf holds the same number of black nodes. *)
Theorem C6_red_black :
(forall ops,
  exists t, OST.run ops OST.empty_tree = Ok t /\ Shape.red_black t)
/\ (forall ops,
     exists t, POM.run ops POM.empty_tree = Ok t
               /\ Shape.red_black (POM.root t)).
Proof.
split; intros ops.
- destruct (run_invariant ops) as (t & E & (Hc & [h Hh] & _) & _).
  exists t. split; [exact E|]. eapply rbt_red_black; eauto.
- destruct (pom_run_invariant ops POM.empty_tree pom_empty_invariant)
    as (t & E & (Hc & [h Hh] & _)).
  exists t. split; [exact E|]. eapply rbt_red_black; eauto.
Qed.

(** C7 (as stated, refuted): after [insert(5); insert(5)] the second 5
  is the right child of the first, so the root's key is not less than
  every key of its right subtree. *)
Lemma C7_duplicate_not_strictly_less :
exists t,
  OST.run [OST.Insert 5; OST.Insert 5] OST.empty_tree = Ok t
  /\ elements (rightOf t) = [5]
  /\ ~ Shape.bst_strict (fun k => k) t.
Proof.
eexists. split; [vm_compute; reflexivity|]. split; [reflexivity|].
simpl. intros (_ & H & _). inversion H; subst. lia.
Qed.

(** C7 (amended): for both trees, after every sequence of inserts and
  removes every node's key is not greater than any key of its right
  subtree and not less than any key of its left subtree (intervals
  compared by their start), and the in-order traversal is
  non-decreasing. On insertion equal keys are routed to the right: the
  walk of [insert] goes left only at a strictly greater key, so the
  place where the new node is hung has every key not greater than the
  new one before it in order and only strictly greater keys behind it,
  and the new key stands there in the traversal of the tree [insert]
  returns. *)
Theorem C7_search_tree_order :
(forall ops,
  exists t, OST.run ops OST.empty_tree = Ok t
            /\ Shape.bst (fun k => k) t
            /\ Shape.inorder_sorted (fun k => k) t
            /\ forall key,
                 Forall (fun a => a <= key)
                   (Shape.before (OST.insert_walk key t []))
                 /\ Forall (fun b => key < b)
                      (Shape.after (OST.insert_walk key t []))
                 /\ elements t
                    = Shape.before (OST.insert_walk key t [])
                      ++ Shape.after (OST.insert_walk key t [])
                 /\ exists t',
                      OST.insert key t = Ok t'
                      /\ elements t'
                         = Shape.before (OST.insert_walk key t [])
                           ++ key :: Shape.after (OST.insert_walk key t []))
/\ (forall ops,
     exists t, POM.run ops POM.empty_tree = Ok t
               /\ Shape.bst POMProps.start_of (POM.root t)
               /\ Shape.inorder_sorted POMProps.start_of (POM.root t)
               /\ forall iv,
                    Forall (fun a => POMProps.start_of a <= POM.start iv)
                      (Shape.before (POM.insert_walk iv (POM.root t) []))
                    /\ Forall (fun b => POM.start iv < POMProps.start_of b)
                         (Shape.after (POM.insert_walk iv (POM.root t) []))
                    /\ elements (POM.root t)
                       = Shape.before (POM.insert_walk iv (POM.root t) [])
                         ++ Shape.after (POM.insert_walk iv (POM.root t) [])
                    /\ exists t',
                         POM.insert iv t = Ok t'
                         /\ elements (POM.root t')
                            = Shape.before
                                (POM.insert_walk iv (POM.root t) [])
                              ++ {| POM.addr := POM.fresh t;
                                    POM.interval := iv |}
                                 :: Shape.after
                                      (POM.insert_walk iv (POM.root t) [])
                         /\ POMProps.intervals t'
                            = POMProps.place iv (POMProps.intervals t)).
Proof.
split; intros ops.
- destruct (run_invariant ops) as (t & E & Inv & _).
  pose proof Inv as (_ & _ & _ & Ho).
  assert (S : Shape.inorder_sorted (fun k => k) t)
    by (unfold Shape.inorder_sorted; now rewrite map_id).
  exists t. split; [exact E|]. split; [now apply sorted_bst|].
  split; [exact S|]. intros key. now apply insert_place.
- destruct (pom_run_invariant ops POM.empty_tree pom_empty_invariant)
    as (t & E & Inv).
  pose proof Inv as (_ & _ & Ho).
  exists t. split; [exact E|]. split; [now apply sorted_bst|].
  split; [exact Ho|]. intros iv.
  destruct (pom_insert_place iv t Inv) as (Ob & Oa & El & t' & E' & El').
  split; [exact Ob|]. split; [exact Oa|]. split; [exact El|].
  exists t'. split; [exact E'|]. split; [exact El'|].
  unfold POMProps.intervals. rewrite El, El', !map_app. cbn [map POM.interval].
  symmetry. apply place_split; rewrite Forall_map;
    [exact Ob | exact Oa].
Qed.

(** C8: for every order-statistics tree and every [k] below 1 or above
  [size()], also on the empty tree, [select(k)] throws
  [std::out_of_range] and leaves the tree as it was; for every [k] in
  [1, size()] it returns a key. *)
Theorem C8_select_range :
forall ops k,
exists t,
  OST.run ops OST.empty_tree = Ok t
  /\ (k < 1 \/ OST.size t < k -> OST.select k t = (OutOfRange, t))
  /\ (1 <= k <= OST.size t -> exists key, OST.select k t = (Ok key, t)).
Proof.
intros ops k. destruct (run_invariant ops) as (t & E & Inv & _).
exists t. split; [exact E|].
destruct (select_spec k t Inv) as [Hin Hout]. split; [exact Hout|].
intros Hk. destruct (Hin Hk) as (key & Es & _). eauto.
Qed.

Lemma C8_select_range_witness :
OST.select 0 OST.empty_tree = (OutOfRange, OST.empty_tree)
/\ OST.select 2 (Node 3 BLACK 1 nil nil)
   = (OutOfRange, Node 3 BLACK 1 nil nil)
/\ exists key, OST.select 1 (Node 3 BLACK 1 nil nil)
               = (Ok key, Node 3 BLACK 1 nil nil).
Proof.
split; [|split].
- destruct (C8_select_range [] 0) as (t & E & H1 & _).
  injection E as <-. apply H1. lia.
- destruct (C8_select_range [OST.Insert 3] 2) as (t & E & H1 & _).
  injection E as <-. apply H1. unfold OST.size. simpl. lia.
- destruct (C8_select_range [OST.Insert 3] 1) as (t & E & _ & H2).
  injection E as <-. apply H2. unfold OST.size. simpl. lia.
Defined.

(** C9: for both trees, [remove] of a key, or of an interval whose start
  and end no stored interval has, raises nothing and returns the tree
  as it was: structure, colours and augmented fields. *)
Theorem C9_remove_absent :
(forall (t : OST.OrderStatisticTree) key,
    ~ In key (elements t) -> OST.remove key t = Ok t)
/\ (forall (t : POM.POMTree) iv,
      (forall k, In k (elements (POM.root t)) ->
                 POMProps.matches iv k = false) ->
      POM.remove iv t = Ok t).
Proof.
split.
- intros t key N. unfold OST.remove.
  pose proof (search_absent key t [] N) as E.
  destruct (OST.search t [] key) as [z zpath]. simpl in E. now subst z.
- intros t iv N. unfold POM.remove.
  pose proof (pom_search_absent iv (POM.root t) [] N) as E.
  destruct (POM.search (POM.root t) [] iv) as [z zpath].
  simpl in E. now subst z.
Qed.

Lemma C9_remove_absent_witness :
OST.remove 4 (Node 3 BLACK 1 nil nil) = Ok (Node 3 BLACK 1 nil nil)
/\ POM.remove {| POM.start := 1; POM.end_ := 2; POM.value := 0 |}
     POM.empty_tree
   = Ok POM.empty_tree.
Proof.
split.
- apply (proj1 C9_remove_absent). simpl. intros [H|[]]. discriminate H.
- apply (proj2 C9_remove_absent). simpl. intros k [].
Defined.

(** C10 (as stated, refuted): [generateOST(4, 2147483647)] eliminates
  position 2 and then computes [current + m - 1] beyond the range of
  [int]; the wrapped value is negative, and [select] throws. *)
Lemma C10_step_overflow :
Josephus.generateOST 4 2147483647 = OutOfRange.
Proof. vm_compute. reflexivity. Qed.

(** C10 (amended): for every [n >= 1] and [m >= 1] with [n + m <= 2^31]
  (so that [current + m - 1] stays an [int]), [generateOST(n, m)]
  returns, without an exception, a sequence of length [n] that is a
  permutation of the positions [0 .. n-1]. *)
Theorem C10_generateOST_permutation :
forall n m,
  1 <= n -> 1 <= m -> n + m <= 2 ^ 31 ->
  exists l,
    Josephus.generateOST n m = Ok l
    /\ length l = Z.to_nat n
    /\ Permutation l (JosephusProps.positions n).
Proof. exact generateOST_spec. Qed.

Lemma C10_generateOST_permutation_witness :
exists l,
  Josephus.generateOST 7 3 = Ok l
  /\ length l = Z.to_nat 7
  /\ Permutation l (JosephusProps.positions 7).
Proof. apply C10_generateOST_permutation; lia. Defined.

(* ------------------------------------------------------------------ *)
(** * Further properties *)

(** X1: every sequence of [insert]s of [int]-valued intervals and of
  [remove]s on an empty interval tree runs to its end, and in the tree
  reached every node's [data] is the summary of the intervals below it;
  [getSum()] is the sum of the values of the intervals in the tree;
  [findPOM()] is [AugmentedData()] on the empty tree, and otherwise
  [findPOM().maxpref] is the greatest running sum of the values taken
  in order and [findPOM().argmax] the start of the leftmost interval at
  which it is reached. *)
Theorem X1_augmented_data (ops : list POM.op) :
Forall POMProps.int_valued ops ->
exists t,
  POM.run ops POM.empty_tree = Ok t
  /\ POMProps.summaries_ok (POM.root t)
  /\ POM.getSum t = POMProps.sum_values (POMProps.intervals t)
  /\ POM.sum (POM.findPOM t) = POM.getSum t
  /\ (POMProps.intervals t = [] -> POM.findPOM t = POM.no_data)
  /\ (POMProps.intervals t <> [] ->
      POMProps.leftmost_greatest (POMProps.intervals t)
        (POM.maxpref (POM.findPOM t)) (POM.argmax (POM.findPOM t))).
Proof.
intros Hops. destruct (pom_run_summaries ops Hops) as (t & E & _ & Hs).
exists t. split; [exact E|]. split; [exact Hs|].
now apply summaries_root.
Qed.

Lemma X1_augmented_data_witness :
exists t,
  POM.run POMProps.example_intervals POM.empty_tree = Ok t
  /\ POMProps.summaries_ok (POM.root t)
  /\ POM.getSum t = POMProps.sum_values (POMProps.intervals t)
  /\ POM.sum (POM.findPOM t) = POM.getSum t
  /\ (POMProps.intervals t = [] -> POM.findPOM t = POM.no_data)
  /\ (POMProps.intervals t <> [] ->
      POMProps.leftmost_greatest (POMProps.intervals t)
        (POM.maxpref (POM.findPOM t)) (POM.argmax (POM.findPOM t))).
Proof.
apply X1_augmented_data.
unfold POMProps.example_intervals. repeat constructor; simpl; lia.
Defined.

(** X2: when every [insert] brings an interval whose [start] no interval
  inserted and not removed has, [remove] finds every interval it is
  asked for: after every such sequence of [int]-valued [insert]s and of
  [remove]s on an empty interval tree, the tree holds the intervals
  inserted and not removed, by strictly ascending [start]; [getSum()]
  is the sum of their values; and, when there is one, [findPOM()] gives
  the greatest running sum of their values and the start of the
  leftmost interval at which it is reached. *)
Theorem X2_distinct_starts (ops : list POM.op) :
POMProps.fresh_starts [] ops ->
Forall POMProps.int_valued ops ->
exists t,
  POM.run ops POM.empty_tree = Ok t
  /\ Permutation (POMProps.intervals t) (POMProps.live ops)
  /\ StronglySorted Z.lt (map POM.start (POMProps.intervals t))
  /\ POM.getSum t = POMProps.sum_values (POMProps.live ops)
  /\ (POMProps.live ops <> [] ->
      POMProps.leftmost_greatest (POMProps.intervals t)
        (POM.maxpref (POM.findPOM t)) (POM.argmax (POM.findPOM t))).
Proof.
intros Hf Hops. destruct (pom_run_summaries ops Hops) as (t & E & I & Hs).
destruct (pom_run_ledger ops POM.empty_tree [] pom_empty_invariant
            (perm_nil _) (NoDup_nil _) Hf) as (t' & E' & _ & P & Hn).
rewrite E in E'. inversion E'; subst t'. fold (POMProps.live ops) in P, Hn.
destruct (summaries_root t Hs) as (Eg & _ & _ & Hg).
exists t. split; [exact E|]. split; [exact P|]. split.
- apply sorted_strict.
  + destruct I as (_ & _ & Ho). unfold POMProps.intervals.
    rewrite map_map. exact Ho.
  + eapply Permutation_NoDup; [|exact Hn].
    apply Permutation_map. now symmetry.
- split; [rewrite Eg; now apply sum_values_perm|].
  intros Hne. apply Hg. intros En. rewrite En in P.
  apply Permutation_nil in P. contradiction.
Qed.

Lemma X2_distinct_starts_witness :
exists t,
  POM.run (POMProps.example_intervals
           ++ [POM.Remove
                 {| POM.start := 5; POM.end_ := 10; POM.value := 0 |}])
    POM.empty_tree = Ok t
  /\ Permutation (POMProps.intervals t)
       (POMProps.live
          (POMProps.example_intervals
           ++ [POM.Remove
                 {| POM.start := 5; POM.end_ := 10; POM.value := 0 |}]))
  /\ StronglySorted Z.lt (map POM.start (POMProps.intervals t))
  /\ POM.getSum t
     = POMProps.sum_values
         (POMProps.live
            (POMProps.example_intervals
             ++ [POM.Remove
                   {| POM.start := 5; POM.end_ := 10; POM.value := 0 |}]))
  /\ (POMProps.live
        (POMProps.example_intervals
         ++ [POM.Remove
               {| POM.start := 5; POM.end_ := 10; POM.value := 0 |}])
      <> [] ->
      POMProps.leftmost_greatest (POMProps.intervals t)
        (POM.maxpref (POM.findPOM t)) (POM.argmax (POM.findPOM t))).
Proof.
apply X2_distinct_starts.
- simpl. repeat split; lia.
- unfold POMProps.example_intervals. simpl.
  repeat constructor; simpl; lia.
Defined.

(** X3: after every sequence of inserts and removes on an empty
  order-statistics tree, the keys in the tree, in order, are the keys
  inserted and not removed (each as often as it is there), sorted; and
  [select(k)], for [k] in [1, size()], returns the [k]-th of them and
  leaves the tree as it is. *)
Theorem X3_select_kth_smallest :
forall ops k,
exists t,
  OST.run ops OST.empty_tree = Ok t
  /\ Permutation (elements t) (OSTProps.live ops)
  /\ StronglySorted Z.le (elements t)
  /\ (1 <= k <= OST.size t ->
      exists key,
        OST.select k t = (Ok key, t)
        /\ nth_error (elements t) (Z.to_nat (k - 1)) = Some key).
Proof.
intros ops k. destruct (run_invariant ops) as (t & E & Inv & P).
exists t. split; [exact E|]. split; [exact P|].
split; [now destruct Inv as (_ & _ & _ & Hs)|].
exact (proj1 (select_spec k t Inv)).
Qed.

(** X4: after every sequence of inserts and removes on an empty
  order-statistics tree, [rank(key)] of a key inserted and not removed
  is a position (counted from 1) at which that key stands among the
  keys in order, and [rank(key)] of any other key is -1. *)
Theorem X4_rank_position :
forall ops key,
exists t,
  OST.run ops OST.empty_tree = Ok t
  /\ (In key (OSTProps.live ops) ->
      exists i, OST.rank key t = Z.of_nat i + 1
                /\ nth_error (elements t) i = Some key)
  /\ (~ In key (OSTProps.live ops) -> OST.rank key t = -1).
Proof.
intros ops key. destruct (run_invariant ops) as (t & E & Inv & P).
exists t. split; [exact E|]. split.
- intros Hk. apply rank_spec; [exact Inv|].
  eapply Permutation_in; [symmetry|]; eauto.
- intros Hk. apply rank_absent. intros Hin. apply Hk.
  eapply Permutation_in; eauto.
Qed.

(** X5: for every [n >= 1] and [m >= 1] with [n + m <= 2^31],
  [generateOST(n, m)] and [generateNaive(n, m)] return the same
  sequence, the Josephus order of the circle [0 .. n-1] (the count
  goes [m - 1] steps on from where it starts, the one reached leaves
  the circle and the count starts again at the next one), so that
  [verify(n, m)] is [true]. *)
Theorem X5_generators_agree_always (n m : Z) :
1 <= n -> 1 <= m -> n + m <= 2 ^ 31 ->
Josephus.generateOST n m = Ok (JosephusProps.josephus n m)
/\ Josephus.generateNaive n m = Ok (JosephusProps.josephus n m)
/\ Josephus.verify n m = Ok true.
Proof.
intros Hn Hm Hb.
pose proof (generateOST_josephus n m Hn Hm Hb) as Eo.
pose proof (generateNaive_josephus n m Hn Hm) as En.
split; [exact Eo|]. split; [exact En|].
unfold Josephus.verify. rewrite Eo, En. cbn [bind].
now destruct (list_eq_dec Z.eq_dec _ _).
Qed.

Lemma X5_generators_agree_always_witness :
Josephus.generateOST 7 3 = Ok (JosephusProps.josephus 7 3)
/\ Josephus.generateNaive 7 3 = Ok (JosephusProps.josephus 7 3)
/\ Josephus.verify 7 3 = Ok true.
Proof. apply X5_generators_agree_always; lia. Defined.

(** X6: for both trees, after every sequence of inserts and removes no
  way down from the root to a leaf passes more than [2 log2 (n + 1)]
  nodes, [n] being the number of keys (of intervals) in the tree: the
  bound on the walks of [search], [insert], [selectNode], [rank],
  [updateAncestors] and of the fix-ups. *)
Theorem X6_logarithmic_height :
(forall ops,
  exists t,
    OST.run ops OST.empty_tree = Ok t
    /\ (Shape.height t
        <= 2 * Nat.log2 (S (length (OSTProps.live ops))))%nat)
/\ (forall ops,
     exists t,
       POM.run ops POM.empty_tree = Ok t
       /\ (Shape.height (POM.root t)
           <= 2 * Nat.log2 (S (length (POMProps.intervals t))))%nat).
Proof.
split; intros ops.
- destruct (run_invariant ops) as (t & E & (Hc & [h Hh] & _) & P).
  exists t. split; [exact E|].
  rewrite <- (Permutation_length P). eapply rbt_logarithmic; eauto.
- destruct (pom_run_invariant ops POM.empty_tree pom_empty_invariant)
    as (t & E & (Hc & [h Hh] & _)).
  exists t. split; [exact E|].
  unfold POMProps.intervals. rewrite length_map.
  eapply rbt_logarithmic; eauto.
Qed.

(** X7: on every order-statistics tree reached by a sequence of inserts
  and removes, [insert(key)] followed by [remove(key)] gives a tree with
  the keys, in order, that it had before, the same [size()], every
  node's [size] right and the red-black properties. *)
Theorem X7_insert_remove_round_trip :
forall ops key,
exists t t1 t2,
  OST.run ops OST.empty_tree = Ok t
  /\ OST.insert key t = Ok t1
  /\ OST.remove key t1 = Ok t2
  /\ elements t2 = elements t
  /\ OST.size t2 = OST.size t
  /\ OSTProps.sizes_ok t2
  /\ Shape.red_black t2.
Proof.
intros ops key. destruct (run_invariant ops) as (t & E & I & _).
destruct (insert_spec key t I) as (t1 & E1 & I1 & P1).
destruct (remove_spec key t1 I1) as (t2 & E2 & I2 & P2).
exists t, t1, t2. split; [exact E|]. split; [exact E1|].
split; [exact E2|].
assert (Ee : elements t2 = elements t).
{ apply sorted_perm_eq.
  - now destruct I2 as (_ & _ & _ & Hs).
  - now destruct I as (_ & _ & _ & Hs).
  - rewrite P2, <- (remove_one_perm key _ _ P1). simpl.
    now rewrite Z.eqb_refl. }
split; [exact Ee|]. split.
- rewrite (size_length t2 I2), (size_length t I). now rewrite Ee.
- destruct I2 as (Hc & [h Hh] & Hs & _). split; [exact Hs|].
  eapply rbt_red_black; eauto.
Qed.

(** X8: on every interval tree reached by a sequence of [int]-valued
  [insert]s and of [remove]s, [insert] of an interval whose [start] and
  [end] no interval of the tree has, followed by [remove] of that
  interval, gives a tree with the intervals, in order, that it had
  before, and with the [getSum()] and the [findPOM()] that it had
  before. *)
Theorem X8_interval_round_trip (ops : list POM.op) (iv : POM.Interval) :
Forall POMProps.int_valued ops ->
(forall t, POM.run ops POM.empty_tree = Ok t ->
           forall k, In k (elements (POM.root t)) ->
                     POMProps.matches iv k = false) ->
exists t t1 t2,
  POM.run ops POM.empty_tree = Ok t
  /\ POM.insert iv t = Ok t1
  /\ POM.remove iv t1 = Ok t2
  /\ POMProps.intervals t2 = POMProps.intervals t
  /\ POM.getSum t2 = POM.getSum t
  /\ POM.findPOM t2 = POM.findPOM t.
Proof.
intros Hops Hno.
destruct pom_empty_sound as (Ha0 & Hd0 & Hv0).
destruct (pom_run_sound ops POM.empty_tree pom_empty_invariant
            Ha0 Hd0 Hv0 Hops) as (t & E & I & Ha & Hd & Hv).
destruct (pom_round_trip iv t I Ha Hd (Hno t E))
  as (t1 & t2 & E1 & E2 & I2 & Ha2 & Ee).
exists t, t1, t2. split; [exact E|]. split; [exact E1|].
split; [exact E2|].
assert (Ei : POMProps.intervals t2 = POMProps.intervals t)
  by (unfold POMProps.intervals; now rewrite Ee).
split; [exact Ei|].
assert (Hv2 : Forall POMProps.above_min (POMProps.intervals t2))
  by now rewrite Ei.
destruct (root_summary t (consistent_summaries _ Ha Hv)) as [Ef Eg].
destruct (root_summary t2 (consistent_summaries _ Ha2 Hv2)) as [Ef2 Eg2].
split; [now rewrite Eg2, Eg, Ei | now rewrite Ef2, Ef, Ei].
Qed.

Lemma X8_interval_round_trip_witness :
exists t t1 t2,
  POM.run POMProps.example_intervals POM.empty_tree = Ok t
  /\ POM.insert {| POM.start := 5; POM.end_ := 7; POM.value := 3 |} t
     = Ok t1
  /\ POM.remove {| POM.start := 5; POM.end_ := 7; POM.value := 3 |} t1
     = Ok t2
  /\ POMProps.intervals t2 = POMProps.intervals t
  /\ POM.getSum t2 = POM.getSum t
  /\ POM.findPOM t2 = POM.findPOM t.
Proof.
apply X8_interval_round_trip.
- unfold POMProps.example_intervals. repeat constructor; simpl; lia.
- intros t E. vm_compute in E. inversion E; subst t. clear E.
  simpl. intros k H.
  repeat (destruct H as [<-|H]; [reflexivity|]). contradiction.
Defined.

(** X9: after every sequence of inserts and removes on an empty
  order-statistics tree, [search(root, key)] returns a node that holds
  [key] when [key] was inserted and not removed, and the sentinel
  otherwise. *)
Theorem X9_search_membership :
forall ops key,
exists t,
  OST.run ops OST.empty_tree = Ok t
  /\ (In key (OSTProps.live ops) ->
      exists c s l r path,
        OST.search t [] key = (Node key c s l r, path))
  /\ (~ In key (OSTProps.live ops) ->
      fst (OST.search t [] key) = nil).
Proof.
intros ops key. destruct (run_invariant ops) as (t & E & Inv & P).
exists t. split; [exact E|]. split.
- intros Hk.
  assert (Hi : In key (elements t))
    by (eapply Permutation_in; [symmetry|]; eauto).
  destruct Inv as (_ & _ & _ & Hs).
  destruct (OST.search t [] key) as [[|k c s l r] path] eqn:Es.
  + exfalso. exact (search_complete key t [] path Hs Hi Es).
  + rewrite (search_key _ _ _ _ _ _ _ _ _ Es). eauto 6.
- intros Hk. apply search_absent. intros Hin. apply Hk.
  eapply Permutation_in; eauto.
Qed.

(** X10: for both trees, after every sequence of inserts and removes
  [empty()] tells whether no key (no interval) is in the tree; on the
  order-statistics tree that is when [size()] is 0, and on an empty
  interval tree [getSum()] is 0. *)
Theorem X10_empty :
(forall ops,
  exists t,
    OST.run ops OST.empty_tree = Ok t
    /\ (OST.empty t = true <-> OSTProps.live ops = [])
    /\ (OST.empty t = true <-> OST.size t = 0))
/\ (forall ops,
     exists t,
       POM.run ops POM.empty_tree = Ok t
       /\ (POM.empty t = true <-> POMProps.intervals t = [])
       /\ (POM.empty t = true -> POM.getSum t = 0)).
Proof.
split; intros ops.
- destruct (run_invariant ops) as (t & E & Inv & P).
  exists t. split; [exact E|]. split; [|now apply empty_iff].
  destruct t as [|k c s l r]; simpl in *.
  + split; [intros _|reflexivity]. now apply Permutation_nil.
  + split; [discriminate|]. intros En. rewrite En in P.
    apply Permutation_sym, Permutation_nil in P.
    now destruct (elements l).
- destruct (pom_run_invariant ops POM.empty_tree pom_empty_invariant)
    as (t & E & _).
  exists t. split; [exact E|].
  unfold POM.empty, POM.getSum, POMProps.intervals.
  destruct (POM.root t) as [|k c d l r]; simpl.
  + repeat split; reflexivity.
  + split; [|discriminate]. split; [discriminate|].
    rewrite map_app. now destruct (map _ (elements l)).
Qed.

(** X11: [leftRotate] and [rightRotate], on a node with the child they
  lift, keep the keys in order; in the order-statistics tree they keep
  right sizes right and the size of the subtree, and each undoes the
  other; in the interval tree they leave every field of the subtree
  right as soon as the fields below the two nodes they move are, and
  each undoes the other on a subtree whose fields are right. *)
Theorem X11_rotations :
(forall kx cx sx a ky cy sy b c,
  exists y,
    OST.leftRotate (Node kx cx sx a (Node ky cy sy b c)) = Ok y
    /\ elements y = elements (Node kx cx sx a (Node ky cy sy b c))
    /\ (OSTProps.sizes_ok (Node kx cx sx a (Node ky cy sy b c)) ->
        OSTProps.sizes_ok y
        /\ OST.getSize y = sx
        /\ OST.rightRotate y = Ok (Node kx cx sx a (Node ky cy sy b c))))
/\ (forall ky cy sy kx cx sx a b c,
     exists x,
       OST.rightRotate (Node ky cy sy (Node kx cx sx a b) c) = Ok x
       /\ elements x = elements (Node ky cy sy (Node kx cx sx a b) c)
       /\ (OSTProps.sizes_ok (Node ky cy sy (Node kx cx sx a b) c) ->
           OSTProps.sizes_ok x
           /\ OST.getSize x = sy
           /\ OST.leftRotate x
              = Ok (Node ky cy sy (Node kx cx sx a b) c)))
/\ (forall kx cx dx a ky cy dy b c,
     exists y,
       POM.leftRotate (Node kx cx dx a (Node ky cy dy b c)) = Ok y
       /\ elements y = elements (Node kx cx dx a (Node ky cy dy b c))
       /\ (POMProps.aug_ok a -> POMProps.aug_ok b -> POMProps.aug_ok c ->
           POMProps.aug_ok y)
       /\ (POMProps.aug_ok (Node kx cx dx a (Node ky cy dy b c)) ->
           POM.rightRotate y
           = Ok (Node kx cx dx a (Node ky cy dy b c))))
/\ (forall ky cy dy kx cx dx a b c,
     exists x,
       POM.rightRotate (Node ky cy dy (Node kx cx dx a b) c) = Ok x
       /\ elements x = elements (Node ky cy dy (Node kx cx dx a b) c)
       /\ (POMProps.aug_ok a -> POMProps.aug_ok b -> POMProps.aug_ok c ->
           POMProps.aug_ok x)
       /\ (POMProps.aug_ok (Node ky cy dy (Node kx cx dx a b) c) ->
           POM.leftRotate x
           = Ok (Node ky cy dy (Node kx cx dx a b) c))).
Proof.
repeat split; intros.
- eexists. split; [reflexivity|]. split.
  + simpl. now rewrite <- app_assoc.
  + simpl. unfold OST.recompute, OST.promote.
    intros (-> & Ha & -> & Hb & Hc). simpl.
    repeat split; auto; try lia. do 3 f_equal; lia.
- eexists. split; [reflexivity|]. split.
  + simpl. now rewrite <- app_assoc.
  + simpl. unfold OST.recompute, OST.promote.
    intros (-> & (-> & Ha & Hb) & Hc). simpl.
    repeat split; auto; try lia. do 3 f_equal; lia.
- eexists. split; [reflexivity|]. split; [|split].
  + simpl. now rewrite <- app_assoc.
  + unfold POMProps.aug_ok, POM.promote. simpl. auto.
  + unfold POMProps.aug_ok, POM.promote. simpl.
    intros (-> & Ha & -> & Hb & Hc). reflexivity.
- eexists. split; [reflexivity|]. split; [|split].
  + simpl. now rewrite <- app_assoc.
  + unfold POMProps.aug_ok, POM.promote. simpl. auto.
  + unfold POMProps.aug_ok, POM.promote. simpl.
    intros (-> & (-> & Ha & Hb) & Hc). reflexivity.
Qed.

(** X12: after every sequence of inserts and removes on an empty
  order-statistics tree, [rank(key)] of a key inserted and not removed
  is above the number of smaller keys inserted and not removed and not
  above the number of those not greater; for a key that is there once
  it is one more than the number of smaller keys. *)
Theorem X12_rank_bounds :
forall ops key,
exists t,
  OST.run ops OST.empty_tree = Ok t
  /\ (In key (OSTProps.live ops) ->
      OSTProps.count_lt key (OSTProps.live ops) < OST.rank key t
      /\ OST.rank key t <= OSTProps.count_le key (OSTProps.live ops))
  /\ (count_occ Z.eq_dec (OSTProps.live ops) key = 1%nat ->
      OST.rank key t = OSTProps.count_lt key (OSTProps.live ops) + 1).
Proof.
intros ops key. destruct (run_invariant ops) as (t & E & Inv & P).
exists t. split; [exact E|].
assert (Hb : In key (OSTProps.live ops) ->
             OSTProps.count_lt key (OSTProps.live ops) < OST.rank key t
             /\ OST.rank key t
                <= OSTProps.count_le key (OSTProps.live ops)).
{ intros Hk.
  assert (Hi : In key (elements t))
    by (eapply Permutation_in; [symmetry|]; eauto).
  destruct (rank_spec key t Inv Hi) as (i & Er & Hn).
  destruct Inv as (_ & _ & _ & Hs).
  pose proof (sorted_place _ _ _ Hs Hn) as Hp.
  rewrite <- (count_lt_perm key _ _ P), <- (count_le_perm key _ _ P).
  rewrite Er. lia. }
split; [exact Hb|].
intros Ho. pose proof (count_le_occ key (OSTProps.live ops)) as Hc.
rewrite Ho in Hc.
assert (Hk : In key (OSTProps.live ops)).
{ apply (count_occ_In Z.eq_dec). lia. }
specialize (Hb Hk). lia.
Qed.

(** X13: after every sequence of inserts and removes on an empty
  order-statistics tree, [select] does not decrease: for
  [1 <= k1 <= k2 <= size()], [select(k1) <= select(k2)]; and every key
  inserted and not removed lies between [select(1)] and
  [select(size())]. *)
Theorem X13_select_monotone :
forall ops k1 k2,
exists t,
  OST.run ops OST.empty_tree = Ok t
  /\ (1 <= k1 -> k1 <= k2 -> k2 <= OST.size t ->
      exists a b,
        OST.select k1 t = (Ok a, t) /\ OST.select k2 t = (Ok b, t)
        /\ a <= b)
  /\ (forall key, In key (OSTProps.live ops) ->
      exists lo hi,
        OST.select 1 t = (Ok lo, t)
        /\ OST.select (OST.size t) t = (Ok hi, t)
        /\ lo <= key <= hi).
Proof.
intros ops k1 k2. destruct (run_invariant ops) as (t & E & Inv & P).
exists t. split; [exact E|].
pose proof Inv as (_ & _ & _ & Hs).
pose proof (size_length t Inv) as Hlen.
split.
- intros H1 H12 H2.
  destruct (proj1 (select_spec k1 t Inv)) as (a & Ea & Na); [lia|].
  destruct (proj1 (select_spec k2 t Inv)) as (b & Eb & Nb); [lia|].
  exists a, b. split; [exact Ea|]. split; [exact Eb|].
  apply (sorted_nth_le (elements t) (Z.to_nat (k1 - 1))
           (Z.to_nat (k2 - 1)) a b Hs); [lia | exact Na | exact Nb].
- intros key Hk.
  assert (Hi : In key (elements t))
    by (eapply Permutation_in; [symmetry|]; eauto).
  apply In_nth_error in Hi. destruct Hi as [i Hi].
  assert (Hlt : (i < length (elements t))%nat)
    by (apply nth_error_Some; congruence).
  destruct (proj1 (select_spec 1 t Inv)) as (lo & Elo & Nlo); [lia|].
  destruct (proj1 (select_spec (OST.size t) t Inv))
    as (hi & Ehi & Nhi); [lia|].
  exists lo, hi. split; [exact Elo|]. split; [exact Ehi|]. split.
  + apply (sorted_nth_le (elements t) (Z.to_nat (1 - 1)) i lo key Hs);
      [lia | exact Nlo | exact Hi].
  + apply (sorted_nth_le (elements t) i (Z.to_nat (OST.size t - 1))
             key hi Hs); [lia | exact Hi | exact Nhi].
Qed.

(** X14: what [select] and [size] return on an order-statistics tree
  depends on the keys inserted and not removed alone, not on the
  order of the calls that brought them: two sequences of inserts and
  removes that leave the same keys (each as often) give trees with the
  same keys in order, the same [size()] and the same answer of
  [select(k)] for every [k]. *)
Theorem X14_select_history (ops ops' : list OST.op) :
Permutation (OSTProps.live ops) (OSTProps.live ops') ->
exists t t',
  OST.run ops OST.empty_tree = Ok t
  /\ OST.run ops' OST.empty_tree = Ok t'
  /\ elements t = elements t'
  /\ OST.size t = OST.size t'
  /\ (forall k, fst (OST.select k t) = fst (OST.select k t')).
Proof.
intros PP. destruct (run_invariant ops) as (t & E & Inv & P).
destruct (run_invariant ops') as (t' & E' & Inv' & P').
exists t, t'. split; [exact E|]. split; [exact E'|].
assert (Ee : elements t = elements t').
{ apply sorted_perm_eq.
  - now destruct Inv as (_ & _ & _ & Hs).
  - now destruct Inv' as (_ & _ & _ & Hs).
  - now rewrite P, PP, P'. }
assert (Es : OST.size t = OST.size t').
{ now rewrite (size_length t Inv), (size_length t' Inv'), Ee. }
split; [exact Ee|]. split; [exact Es|].
intros k.
destruct (select_spec k t Inv) as [Hin Hout].
destruct (select_spec k t' Inv') as [Hin' Hout'].
destruct (Z_lt_ge_dec k 1) as [Hlo|Hlo];
  [rewrite Hout, Hout' by lia; reflexivity|].
destruct (Z_lt_ge_dec (OST.size t) k) as [Hhi|Hhi];
  [rewrite Hout, Hout' by lia; reflexivity|].
destruct Hin as (a & Ea & Na); [lia|].
destruct Hin' as (b & Eb & Nb); [lia|].
rewrite Ea, Eb. simpl. rewrite Ee in Na. congruence.
Qed.

Lemma X14_select_history_witness :
exists t t',
  OST.run [OST.Insert 1; OST.Insert 2; OST.Insert 3] OST.empty_tree
  = Ok t
  /\ OST.run [OST.Insert 3; OST.Insert 9; OST.Insert 1; OST.Remove 9;
              OST.Insert 2] OST.empty_tree = Ok t'
  /\ elements t = elements t'
  /\ OST.size t = OST.size t'
  /\ (forall k, fst (OST.select k t) = fst (OST.select k t')).
Proof.
apply X14_select_history. vm_compute.
apply (Permutation_cons_app [2; 1] [] 3). apply Permutation_refl.
Defined.

(** X15: on the interval tree, when every [insert] brings a [start]
  that no interval inserted and not removed has, [getSum()] and
  [findPOM()] depend on the intervals inserted and not removed alone:
  two such sequences of [int]-valued [insert]s and of [remove]s that
  leave the same intervals give trees with the same intervals in
  order, the same [getSum()] and the same [findPOM()]. *)
Theorem X15_interval_history (ops ops' : list POM.op) :
POMProps.fresh_starts [] ops -> POMProps.fresh_starts [] ops' ->
Forall POMProps.int_valued ops -> Forall POMProps.int_valued ops' ->
Permutation (POMProps.live ops) (POMProps.live ops') ->
exists t t',
  POM.run ops POM.empty_tree = Ok t
  /\ POM.run ops' POM.empty_tree = Ok t'
  /\ POMProps.intervals t = POMProps.intervals t'
  /\ POM.getSum t = POM.getSum t'
  /\ POM.findPOM t = POM.findPOM t'.
Proof.
intros Hf Hf' Hv Hv' PP.
destruct (pom_run_summaries ops Hv) as (t & E & I & Hs).
destruct (pom_run_summaries ops' Hv') as (t' & E' & I' & Hs').
destruct (pom_run_ledger ops POM.empty_tree [] pom_empty_invariant
            (perm_nil _) (NoDup_nil _) Hf) as (u & Eu & _ & P & Hn).
destruct (pom_run_ledger ops' POM.empty_tree [] pom_empty_invariant
            (perm_nil _) (NoDup_nil _) Hf') as (u' & Eu' & _ & P' & Hn').
rewrite E in Eu. inversion Eu; subst u.
rewrite E' in Eu'. inversion Eu'; subst u'.
fold (POMProps.live ops) in P, Hn. fold (POMProps.live ops') in P', Hn'.
exists t, t'. split; [exact E|]. split; [exact E'|].
assert (Strict : forall (v : POM.POMTree) l,
           POMProps.invariant v -> Permutation (POMProps.intervals v) l ->
           NoDup (map POM.start l) ->
           StronglySorted Z.lt (map POM.start (POMProps.intervals v))).
{ intros v l (_ & _ & Ho) Pv Hnv. apply sorted_strict.
  - unfold POMProps.intervals. rewrite map_map. exact Ho.
  - eapply Permutation_NoDup; [|exact Hnv].
    apply Permutation_map. now symmetry. }
assert (Ei : POMProps.intervals t = POMProps.intervals t').
{ apply (strict_sorted_perm_eq POM.start).
  - eapply Strict; eauto.
  - eapply Strict; eauto.
  - now rewrite P, PP, P'. }
split; [exact Ei|].
destruct (root_summary t Hs) as [Ef Eg].
destruct (root_summary t' Hs') as [Ef' Eg'].
split; [now rewrite Eg, Eg', Ei | now rewrite Ef, Ef', Ei].
Qed.

Lemma X15_interval_history_witness :
exists t t',
  POM.run [POM.Insert {| POM.start := 0; POM.end_ := 5; POM.value := 10 |};
           POM.Insert {| POM.start := 5; POM.end_ := 10; POM.value := -5 |}]
    POM.empty_tree = Ok t
  /\ POM.run
       [POM.Insert {| POM.start := 5; POM.end_ := 10; POM.value := -5 |};
        POM.Insert {| POM.start := 0; POM.end_ := 5; POM.value := 10 |}]
       POM.empty_tree = Ok t'
  /\ POMProps.intervals t = POMProps.intervals t'
  /\ POM.getSum t = POM.getSum t'
  /\ POM.findPOM t = POM.findPOM t'.
Proof.
apply X15_interval_history.
- simpl. repeat split; lia.
- simpl. repeat split; lia.
- repeat constructor; simpl; lia.
- repeat constructor; simpl; lia.
- vm_compute. apply perm_swap.
Defined.

(** X16: [remove] on the interval tree reads the [start] and the [end]
  of its argument only: two intervals with the same [start] and [end]
  give the same result on every tree, whatever their [value]s. *)
Theorem X16_remove_ignores_value (iv iv' : POM.Interval) (t : POM.POMTree) :
POM.start iv = POM.start iv' -> POM.end_ iv = POM.end_ iv' ->
POM.remove iv t = POM.remove iv' t.
Proof. apply pom_remove_span. Qed.

Lemma X16_remove_ignores_value_witness :
POM.remove {| POM.start := 5; POM.end_ := 10; POM.value := -5 |}
  {| POM.root := POM.new_node 1
                   {| POM.start := 5; POM.end_ := 10; POM.value := -5 |};
     POM.fresh := 2 |}
= POM.remove {| POM.start := 5; POM.end_ := 10; POM.value := 77 |}
    {| POM.root := POM.new_node 1
                     {| POM.start := 5; POM.end_ := 10; POM.value := -5 |};
       POM.fresh := 2 |}.
Proof. apply X16_remove_ignores_value; reflexivity. Defined.

(** X17: on every interval tree reached by a sequence of [int]-valued
  [insert]s and of [remove]s, [insert] puts the new interval, among the
  intervals in order, before the first one with a greater [start] and
  behind all the others (intervals of one [start] stay in the order in
  which they came), and for an [int]-valued interval [getSum()] grows
  by its [value]. *)
Theorem X17_insert_place (ops : list POM.op) (iv : POM.Interval) :
Forall POMProps.int_valued ops ->
exists t t1,
  POM.run ops POM.empty_tree = Ok t
  /\ POM.insert iv t = Ok t1
  /\ POMProps.intervals t1 = POMProps.place iv (POMProps.intervals t)
  /\ (POMProps.int_valued (POM.Insert iv) ->
      POM.getSum t1 = POM.getSum t + POM.value iv).
Proof.
intros Hops. destruct pom_empty_sound as (Ha0 & Hd0 & Hv0).
destruct (pom_run_sound ops POM.empty_tree pom_empty_invariant
            Ha0 Hd0 Hv0 Hops) as (t & E & I & Ha & Hd & Hv).
destruct (pom_insert_sum iv t I Ha Hd Hv) as (t1 & E1 & Ei & Hs).
exists t, t1. split; [exact E|]. split; [exact E1|].
split; [exact Ei|].
intros Hiv. apply Hs. apply int_above_min. simpl in Hiv. tauto.
Qed.

Lemma X17_insert_place_witness :
exists t t1,
  POM.run POMProps.example_intervals POM.empty_tree = Ok t
  /\ POM.insert {| POM.start := 5; POM.end_ := 7; POM.value := 3 |} t
     = Ok t1
  /\ POMProps.intervals t1
     = POMProps.place {| POM.start := 5; POM.end_ := 7; POM.value := 3 |}
         (POMProps.intervals t)
  /\ (POMProps.int_valued
        (POM.Insert {| POM.start := 5; POM.end_ := 7; POM.value := 3 |}) ->
      POM.getSum t1
      = POM.getSum t
        + POM.value {| POM.start := 5; POM.end_ := 7; POM.value := 3 |}).
Proof.
apply X17_insert_place.
unfold POMProps.example_intervals. repeat constructor; simpl; lia.
Defined.

(** X18: on every interval tree reached by a sequence of [int]-valued
  [insert]s and of [remove]s, [remove] leaves the tree as it is or
  takes out one interval with the [start] and the [end] asked for: the
  other intervals keep their order, and [getSum()] goes down by the
  [value] of the interval taken out, the one stored in the tree. *)
Theorem X18_remove_one (ops : list POM.op) (iv : POM.Interval) :
Forall POMProps.int_valued ops ->
exists t t2,
  POM.run ops POM.empty_tree = Ok t
  /\ POM.remove iv t = Ok t2
  /\ (t2 = t
      \/ exists l1 k l2,
           POMProps.intervals t = l1 ++ k :: l2
           /\ POMProps.same_span iv k = true
           /\ POMProps.intervals t2 = l1 ++ l2
           /\ POM.getSum t2 = POM.getSum t - POM.value k).
Proof.
intros Hops. destruct pom_empty_sound as (Ha0 & Hd0 & Hv0).
destruct (pom_run_sound ops POM.empty_tree pom_empty_invariant
            Ha0 Hd0 Hv0 Hops) as (t & E & I & Ha & Hd & Hv).
destruct (pom_remove_sum iv t I Ha Hd Hv) as (t2 & E2 & C).
exists t, t2. auto.
Qed.

Lemma X18_remove_one_witness :
exists t t2,
  POM.run POMProps.example_intervals POM.empty_tree = Ok t
  /\ POM.remove {| POM.start := 5; POM.end_ := 10; POM.value := 0 |} t
     = Ok t2
  /\ (t2 = t
      \/ exists l1 k l2,
           POMProps.intervals t = l1 ++ k :: l2
           /\ POMProps.same_span
                {| POM.start := 5; POM.end_ := 10; POM.value := 0 |} k
              = true
           /\ POMProps.intervals t2 = l1 ++ l2
           /\ POM.getSum t2 = POM.getSum t - POM.value k).
Proof.
apply X18_remove_one.
unfold POMProps.example_intervals. repeat constructor; simpl; lia.
Defined.

(** X19: [minimum(x)] of a node [x] returns the node of its subtree
  that comes first in order; that node has no left child, and the tree
  around it is the tree around [x]. *)
Theorem X19_minimum_first (K D : Type) (x : node K D) (path : list (frame K D)) :
x <> nil ->
exists k c d r ypath,
  minimum x path = (Node k c d nil r, ypath)
  /\ plug (Node k c d nil r) ypath = plug x path
  /\ exists rest, elements x = k :: rest.
Proof. apply minimum_first. Qed.

Lemma X19_minimum_first_witness :
exists k c d r ypath,
  minimum (Node 5 BLACK 2 (Node 3 RED 1 nil nil) nil) []
  = (Node k c d nil r, ypath)
  /\ plug (Node k c d nil r) ypath
     = plug (Node 5 BLACK 2 (Node 3 RED 1 nil nil) nil) []
  /\ exists rest,
       elements (Node 5 BLACK 2 (Node 3 RED 1 nil nil) nil) = k :: rest.
Proof. apply X19_minimum_first. discriminate. Defined.

(** X20: the loop [for (i = 0; i < n; i++) ost.insert(i)] on an empty
  order-statistics tree, with which [generateOST] and the benchmarks
  start, leaves a tree of [size()] [n] (0 for a negative [n]) in which
  [select(k)] is [k - 1] for every [k] in [1, n], [rank(i)] is [i + 1]
  for every [i] in [0, n), and, for [n >= 1] and every [x >= 0],
  [select(x % n + 1)] is in range and returns [x % n]. *)
Theorem X20_ascending_fill :
forall n,
exists t,
  Josephus.initialize 0 (Z.to_nat n) OST.empty_tree = Ok t
  /\ OST.size t = Z.max 0 n
  /\ (forall k, 1 <= k <= n -> OST.select k t = (Ok (k - 1), t))
  /\ (forall i, 0 <= i < n -> OST.rank i t = i + 1)
  /\ (forall x, 0 <= x -> 1 <= n ->
      OST.select (Z.rem x n + 1) t = (Ok (Z.rem x n), t)).
Proof.
intros n. destruct (initialize_positions n) as (t & E & I & El).
exists t. split; [exact E|].
assert (Hs : OST.size t = Z.max 0 n).
{ rewrite (size_length t I), El, positions_length. lia. }
split; [exact Hs|].
assert (Hsel : forall k, 1 <= k <= n -> OST.select k t = (Ok (k - 1), t)).
{ intros k Hk.
  destruct (proj1 (select_spec k t I)) as (key & Es & Hn); [lia|].
  rewrite El, positions_nth in Hn.
  destruct (Z.to_nat (k - 1) <? Z.to_nat n)%nat; [|discriminate].
  inversion Hn; subst key. rewrite Es. do 2 f_equal. lia. }
split; [exact Hsel|]. split.
- intros i Hi.
  assert (Hin : In i (elements t)).
  { rewrite El. unfold JosephusProps.positions. apply in_map_iff.
    exists (Z.to_nat i). split; [lia|]. apply in_seq. lia. }
  destruct (rank_spec i t I Hin) as (j & Er & Hn).
  rewrite El, positions_nth in Hn.
  destruct (j <? Z.to_nat n)%nat; [|discriminate].
  injection Hn as <-. exact Er.
- intros x Hx Hn. pose proof (Z.rem_bound_pos x n Hx) as Hb.
  rewrite Hsel by lia. do 2 f_equal. lia.
Qed.

(** X21: on an empty circle both generators return the empty sequence:
  [generateOST(n, m)] for every [n <= 0] and every [m] (no key is
  inserted and the loop does not run), [generateNaive(0, m)] for every
  [m]; and [verify(0, m)] is [true]. *)
Theorem X21_empty_circle :
forall m,
  (forall n, n <= 0 -> Josephus.generateOST n m = Ok [])
  /\ Josephus.generateNaive 0 m = Ok []
  /\ Josephus.verify 0 m = Ok true.
Proof.
intros m.
assert (Eo : forall n, n <= 0 -> Josephus.generateOST n m = Ok []).
{ intros n Hn. unfold Josephus.generateOST.
  replace (Z.to_nat n) with 0%nat by lia. reflexivity. }
assert (En : Josephus.generateNaive 0 m = Ok []) by reflexivity.
split; [exact Eo|]. split; [exact En|].
unfold Josephus.verify. rewrite (Eo 0), En by lia. cbn [bind].
now destruct (list_eq_dec Z.eq_dec _ _).
Qed.



(** X23: the sequence [generateOST] returns obeys the Josephus
  recurrence: for [n >= 2], [m >= 1] and [n + m <= 2^31],
  [generateOST(n, m)] starts with [(m - 1) mod n] and goes on with
  [generateOST(n - 1, m)], every position [i] of it renamed to
  [(i + m) mod n]; so the last one to leave is [(s + m) mod n], [s]
  being the last one to leave of [n - 1]. [generateOST(1, m)] is
  [[0]]. *)
Theorem X23_josephus_recurrence (n m : Z) :
1 <= n -> 1 <= m -> n + m <= 2 ^ 31 ->
(n = 1 -> Josephus.generateOST n m = Ok [0])
/\ (2 <= n ->
    exists l l',
      Josephus.generateOST (n - 1) m = Ok l
      /\ Josephus.generateOST n m = Ok l'
      /\ l' = (m - 1) mod n :: map (fun i => (i + m) mod n) l
      /\ last l' 0 = (last l 0 + m) mod n).
Proof.
intros Hn Hm Hb.
pose proof (generateOST_josephus n m Hn Hm Hb) as E. split.
- intros ->. now rewrite E, josephus_one.
- intros H2.
  assert (E1 : Josephus.generateOST (n - 1) m
               = Ok (JosephusProps.josephus (n - 1) m))
    by (apply generateOST_josephus; lia).
  exists (JosephusProps.josephus (n - 1) m), (JosephusProps.josephus n m).
  split; [exact E1|]. split; [exact E|].
  pose proof (josephus_step n m H2 Hm) as Es. split; [exact Es|].
  rewrite Es.
  apply (last_map_cons (fun i => (i + m) mod n) ((m - 1) mod n) 0 0).
  intros E0. apply (f_equal (@length Z)) in E0.
  rewrite josephus_length in E0. simpl in E0. lia.
Qed.

Lemma X23_josephus_recurrence_witness :
(7 = 1 -> Josephus.generateOST 7 3 = Ok [0])
/\ (2 <= 7 ->
    exists l l',
      Josephus.generateOST (7 - 1) 3 = Ok l
      /\ Josephus.generateOST 7 3 = Ok l'
      /\ l' = (3 - 1) mod 7 :: map (fun i => (i + 3) mod 7) l
      /\ last l' 0 = (last l 0 + 3) mod 7).
Proof. apply X23_josephus_recurrence; lia. Defined.
